(** * Extrator de vales: a Rocq model of [app.py]

    The development embeds the document-to-record pipeline of [app.py]:
    the image normaliser [preprocess_image], the three field extractors
    [extract_vale_number], [extract_supplier], [extract_due_date] and the
    per-image loop of [processar_imagens].

    Python strings are sequences of Unicode code points; they are modelled
    as lists of integers.  The regular expressions of the source are kept
    as abstract syntax and run by a backtracking matcher that follows the
    priority rules of Python's [re] module (greedy before shorter, lazy
    before longer, left alternative first, leftmost start position). *)

From Stdlib Require Import String Ascii ZArith List Bool Lia SpecFloat.
Import ListNotations.
Open Scope Z_scope.

(** ** Python strings *)

Definition pystr := list Z.

Definition ord (a : ascii) : Z := Z.of_N (N_of_ascii a).

Definition lit (s : string) : pystr := map ord (list_ascii_of_string s).

(** Python's [len]. *)
Definition len {A} (l : list A) : Z := Z.of_nat (length l).

(** ** The Unicode tables used by [re] and [str.strip]

    [\s], [\d] and [re.IGNORECASE] on a [str] pattern consult CPython's
    Unicode database.  The tables below are those of Unicode 14.0
    (CPython 3.11): [Py_UNICODE_ISSPACE], [Py_UNICODE_ISDECIMAL],
    [_sre.unicode_tolower], [_sre.unicode_iscased] and the extra
    equivalences of [re._casefix]. *)

Module Unicode.

Definition isspace (c : Z) : bool :=
  ((9 <=? c) && (c <=? 13)) || ((28 <=? c) && (c <=? 32)) ||
  (c =? 133) || (c =? 160) || (c =? 5760) ||
  ((8192 <=? c) && (c <=? 8202)) ||
  (c =? 8232) || (c =? 8233) || (c =? 8239) || (c =? 8287) || (c =? 12288).

(** Code points of the digit zero of every decimal script; each is followed
    by its digits one to nine. *)
Definition decimal_zeros : list Z :=
  [
   48; 1632; 1776; 1984; 2406; 2534; 2662; 2790; 2918; 3046;
   3174; 3302; 3430; 3558; 3664; 3792; 3872; 4160; 4240; 6112;
   6160; 6470; 6608; 6784; 6800; 6992; 7088; 7232; 7248; 42528;
   43216; 43264; 43472; 43504; 43600; 44016; 65296; 66720; 68912; 69734;
   69872; 69942; 70096; 70384; 70736; 70864; 71248; 71360; 71472; 71904;
   72016; 72784; 73040; 73120; 92768; 92864; 93008; 120782; 120792; 120802;
   120812; 120822; 123200; 123632; 125264; 130032 ].

Definition lower_runs : list (Z * Z * Z * Z) :=
  [
   (65, 90, 1, 32); (192, 214, 1, 32); (216, 222, 1, 32); (256, 302, 2, 1);
   (304, 304, 1, -199); (306, 310, 2, 1); (313, 327, 2, 1); (330, 374, 2, 1);
   (376, 376, 1, -121); (377, 381, 2, 1); (385, 385, 1, 210); (386, 388, 2, 1);
   (390, 390, 1, 206); (391, 391, 1, 1); (393, 394, 1, 205); (395, 395, 1, 1);
   (398, 398, 1, 79); (399, 399, 1, 202); (400, 400, 1, 203); (401, 401, 1, 1);
   (403, 403, 1, 205); (404, 404, 1, 207); (406, 406, 1, 211); (407, 407, 1, 209);
   (408, 408, 1, 1); (412, 412, 1, 211); (413, 413, 1, 213); (415, 415, 1, 214);
   (416, 420, 2, 1); (422, 422, 1, 218); (423, 423, 1, 1); (425, 425, 1, 218);
   (428, 428, 1, 1); (430, 430, 1, 218); (431, 431, 1, 1); (433, 434, 1, 217);
   (435, 437, 2, 1); (439, 439, 1, 219); (440, 440, 1, 1); (444, 444, 1, 1);
   (452, 452, 1, 2); (453, 453, 1, 1); (455, 455, 1, 2); (456, 456, 1, 1);
   (458, 458, 1, 2); (459, 475, 2, 1); (478, 494, 2, 1); (497, 497, 1, 2);
   (498, 500, 2, 1); (502, 502, 1, -97); (503, 503, 1, -56); (504, 542, 2, 1);
   (544, 544, 1, -130); (546, 562, 2, 1); (570, 570, 1, 10795); (571, 571, 1, 1);
   (573, 573, 1, -163); (574, 574, 1, 10792); (577, 577, 1, 1); (579, 579, 1, -195);
   (580, 580, 1, 69); (581, 581, 1, 71); (582, 590, 2, 1); (880, 882, 2, 1);
   (886, 886, 1, 1); (895, 895, 1, 116); (902, 902, 1, 38); (904, 906, 1, 37);
   (908, 908, 1, 64); (910, 911, 1, 63); (913, 929, 1, 32); (931, 939, 1, 32);
   (975, 975, 1, 8); (984, 1006, 2, 1); (1012, 1012, 1, -60); (1015, 1015, 1, 1);
   (1017, 1017, 1, -7); (1018, 1018, 1, 1); (1021, 1023, 1, -130); (1024, 1039, 1, 80);
   (1040, 1071, 1, 32); (1120, 1152, 2, 1); (1162, 1214, 2, 1); (1216, 1216, 1, 15);
   (1217, 1229, 2, 1); (1232, 1326, 2, 1); (1329, 1366, 1, 48); (4256, 4293, 1, 7264);
   (4295, 4295, 1, 7264); (4301, 4301, 1, 7264); (5024, 5103, 1, 38864); (5104, 5109, 1, 8);
   (7312, 7354, 1, -3008); (7357, 7359, 1, -3008); (7680, 7828, 2, 1); (7838, 7838, 1, -7615);
   (7840, 7934, 2, 1); (7944, 7951, 1, -8); (7960, 7965, 1, -8); (7976, 7983, 1, -8);
   (7992, 7999, 1, -8); (8008, 8013, 1, -8); (8025, 8031, 2, -8); (8040, 8047, 1, -8);
   (8072, 8079, 1, -8); (8088, 8095, 1, -8); (8104, 8111, 1, -8); (8120, 8121, 1, -8);
   (8122, 8123, 1, -74); (8124, 8124, 1, -9); (8136, 8139, 1, -86); (8140, 8140, 1, -9);
   (8152, 8153, 1, -8); (8154, 8155, 1, -100); (8168, 8169, 1, -8); (8170, 8171, 1, -112);
   (8172, 8172, 1, -7); (8184, 8185, 1, -128); (8186, 8187, 1, -126); (8188, 8188, 1, -9);
   (8486, 8486, 1, -7517); (8490, 8490, 1, -8383); (8491, 8491, 1, -8262); (8498, 8498, 1, 28);
   (8544, 8559, 1, 16); (8579, 8579, 1, 1); (9398, 9423, 1, 26); (11264, 11311, 1, 48);
   (11360, 11360, 1, 1); (11362, 11362, 1, -10743); (11363, 11363, 1, -3814); (11364, 11364, 1, -10727);
   (11367, 11371, 2, 1); (11373, 11373, 1, -10780); (11374, 11374, 1, -10749); (11375, 11375, 1, -10783);
   (11376, 11376, 1, -10782); (11378, 11378, 1, 1); (11381, 11381, 1, 1); (11390, 11391, 1, -10815);
   (11392, 11490, 2, 1); (11499, 11501, 2, 1); (11506, 11506, 1, 1); (42560, 42604, 2, 1);
   (42624, 42650, 2, 1); (42786, 42798, 2, 1); (42802, 42862, 2, 1); (42873, 42875, 2, 1);
   (42877, 42877, 1, -35332); (42878, 42886, 2, 1); (42891, 42891, 1, 1); (42893, 42893, 1, -42280);
   (42896, 42898, 2, 1); (42902, 42920, 2, 1); (42922, 42922, 1, -42308); (42923, 42923, 1, -42319);
   (42924, 42924, 1, -42315); (42925, 42925, 1, -42305); (42926, 42926, 1, -42308); (42928, 42928, 1, -42258);
   (42929, 42929, 1, -42282); (42930, 42930, 1, -42261); (42931, 42931, 1, 928); (42932, 42946, 2, 1);
   (42948, 42948, 1, -48); (42949, 42949, 1, -42307); (42950, 42950, 1, -35384); (42951, 42953, 2, 1);
   (42960, 42960, 1, 1); (42966, 42968, 2, 1); (42997, 42997, 1, 1); (65313, 65338, 1, 32);
   (66560, 66599, 1, 40); (66736, 66771, 1, 40); (66928, 66938, 1, 39); (66940, 66954, 1, 39);
   (66956, 66962, 1, 39); (66964, 66965, 1, 39); (68736, 68786, 1, 64); (71840, 71871, 1, 32);
   (93760, 93791, 1, 32); (125184, 125217, 1, 34) ].

Definition cased_ranges : list (Z * Z) :=
  [
   (65, 90); (97, 122); (181, 181); (192, 214); (216, 246); (248, 311);
   (313, 396); (398, 410); (412, 425); (428, 441); (444, 445); (447, 447);
   (452, 544); (546, 563); (570, 596); (598, 599); (601, 601); (603, 604);
   (608, 609); (611, 611); (613, 614); (616, 620); (623, 623); (625, 626);
   (629, 629); (637, 637); (640, 640); (642, 643); (647, 652); (658, 658);
   (669, 670); (837, 837); (880, 883); (886, 887); (891, 893); (895, 895);
   (902, 902); (904, 906); (908, 908); (910, 929); (931, 977); (981, 1013);
   (1015, 1019); (1021, 1153); (1162, 1327); (1329, 1366); (1377, 1415); (4256, 4293);
   (4295, 4295); (4301, 4301); (4304, 4346); (4349, 4351); (5024, 5109); (5112, 5117);
   (7296, 7304); (7312, 7354); (7357, 7359); (7545, 7545); (7549, 7549); (7566, 7566);
   (7680, 7835); (7838, 7838); (7840, 7957); (7960, 7965); (7968, 8005); (8008, 8013);
   (8016, 8023); (8025, 8025); (8027, 8027); (8029, 8029); (8031, 8061); (8064, 8116);
   (8118, 8124); (8126, 8126); (8130, 8132); (8134, 8140); (8144, 8147); (8150, 8155);
   (8160, 8172); (8178, 8180); (8182, 8188); (8486, 8486); (8490, 8491); (8498, 8498);
   (8526, 8526); (8544, 8575); (8579, 8580); (9398, 9449); (11264, 11376); (11378, 11379);
   (11381, 11382); (11390, 11491); (11499, 11502); (11506, 11507); (11520, 11557); (11559, 11559);
   (11565, 11565); (42560, 42605); (42624, 42651); (42786, 42799); (42802, 42863); (42873, 42887);
   (42891, 42893); (42896, 42900); (42902, 42926); (42928, 42954); (42960, 42961); (42966, 42969);
   (42997, 42998); (43859, 43859); (43888, 43967); (64256, 64262); (64275, 64279); (65313, 65338);
   (65345, 65370); (66560, 66639); (66736, 66771); (66776, 66811); (66928, 66938); (66940, 66954);
   (66956, 66962); (66964, 66965); (66967, 66977); (66979, 66993); (66995, 67001); (67003, 67004);
   (68736, 68786); (68800, 68850); (71840, 71903); (93760, 93823); (125184, 125251) ].

Definition ignorecase_fixes : list (Z * list Z) :=
  [
   (105, [305]); (115, [383]); (181, [956]); (305, [105]);
   (383, [115]); (837, [953; 8126]); (912, [8147]); (944, [8163]);
   (946, [976]); (949, [1013]); (952, [977]); (953, [837; 8126]);
   (954, [1008]); (956, [181]); (960, [982]); (961, [1009]);
   (962, [963]); (963, [962]); (966, [981]); (976, [946]);
   (977, [952]); (981, [966]); (982, [960]); (1008, [954]);
   (1009, [961]); (1013, [949]); (1074, [7296]); (1076, [7297]);
   (1086, [7298]); (1089, [7299]); (1090, [7300; 7301]); (1098, [7302]);
   (1123, [7303]); (7296, [1074]); (7297, [1076]); (7298, [1086]);
   (7299, [1089]); (7300, [1090; 7301]); (7301, [1090; 7300]); (7302, [1098]);
   (7303, [1123]); (7304, [42571]); (7777, [7835]); (7835, [7777]);
   (8126, [837; 953]); (8147, [912]); (8163, [944]); (42571, [7304]);
   (64261, [64262]); (64262, [64261]) ].

Definition isdecimal (c : Z) : bool :=
  existsb (fun z => (z <=? c) && (c <? z + 10)) decimal_zeros.

(** A run [(first, last, stride, delta)] maps every [c] of
    [first, first + stride, ..., last] to [c + delta]. *)
Definition tolower (c : Z) : Z :=
  match find (fun '(a, b, st, _) => (a <=? c) && (c <=? b) && ((c - a) mod st =? 0))
             lower_runs with
  | Some (_, _, _, d) => c + d
  | None => c
  end.

Definition iscased (c : Z) : bool :=
  existsb (fun '(a, b) => (a <=? c) && (c <=? b)) cased_ranges.

Definition casefix (c : Z) : list Z :=
  match find (fun '(k, _) => k =? c) ignorecase_fixes with
  | Some (_, l) => l
  | None => []
  end.

End Unicode.

(** ** Regular expressions *)

Module Re.

(** Members of a bracketed set. *)
Inductive set_item :=
| SChar (c : Z)
| SRange (lo hi : Z)
| SSpace
| SDigit.

(** One-character matchers: a literal, or a set [[...]] / [[^...]]. *)
Inductive atom :=
| ALit (c : Z)
| ASet (negate : bool) (items : list set_item).

(** The fragment of the [re] syntax used by [app.py]: every quantifier of
    the source applies to a single-character matcher. *)
Inductive regex :=
| REmpty
| RAtom (a : atom)
| RRep (greedy : bool) (lo : nat) (hi : option nat) (a : atom)
| RCat (r1 r2 : regex)
| RAlt (r1 r2 : regex)
| RGroup (n : nat) (r : regex)
| RLook (r : regex)
| REnd.

Definition zrange (lo hi : Z) : list Z :=
  map (fun i => lo + Z.of_nat i) (seq 0 (Z.to_nat (hi - lo + 1))).

Definition mem (x : Z) (l : list Z) : bool := existsb (Z.eqb x) l.

(** [folds c x]: [x] is the lower case of [c] or one of its extra
    equivalents (the entries a set gets for [c] when it is compiled with
    [fixup = tolower]). *)
Definition folds (c x : Z) : bool :=
  let lo := Unicode.tolower c in (x =? lo) || mem x (Unicode.casefix lo).

Definition lit_match (ic : bool) (c x : Z) : bool :=
  if ic && Unicode.iscased c then folds c (Unicode.tolower x) else x =? c.

Definition item_cased (it : set_item) : bool :=
  match it with
  | SChar c => Unicode.iscased c
  | SRange lo hi => existsb Unicode.iscased (zrange lo hi)
  | SSpace | SDigit => false
  end.

Definition item_plain (it : set_item) (x : Z) : bool :=
  match it with
  | SChar c => x =? c
  | SRange lo hi => (lo <=? x) && (x <=? hi)
  | SSpace => Unicode.isspace x
  | SDigit => Unicode.isdecimal x
  end.

Definition item_folded (it : set_item) (x : Z) : bool :=
  match it with
  | SChar c => folds c x
  | SRange lo hi => existsb (fun c => folds c x) (zrange lo hi)
  | SSpace => Unicode.isspace x
  | SDigit => Unicode.isdecimal x
  end.

(** With [IGNORECASE] the set is compiled through [tolower]; the subject
    character is lowered before the test only when the set has a cased
    member. *)
Definition set_match (ic : bool) (items : list set_item) (x : Z) : bool :=
  if ic then
    let y := if existsb item_cased items then Unicode.tolower x else x in
    existsb (fun it => item_folded it y) items
  else existsb (fun it => item_plain it x) items.

Definition atom_match (ic : bool) (a : atom) (x : Z) : bool :=
  match a with
  | ALit c => lit_match ic c x
  | ASet neg items => xorb neg (set_match ic items x)
  end.

Definition more (hi : option nat) : bool :=
  match hi with Some O => false | _ => true end.

Definition less (hi : option nat) : option nat := option_map pred hi.

(** Greedy [a{lo,hi}]: as many characters as possible first, then fewer. *)
Fixpoint rep_greedy {A} (p : Z -> bool) (lo : nat) (hi : option nat)
  (k : pystr -> option A) (s : pystr) : option A :=
  match s with
  | x :: s' =>
      if more hi && p x then
        match rep_greedy p (pred lo) (less hi) k s' with
        | Some r => Some r
        | None => match lo with O => k s | S _ => None end
        end
      else match lo with O => k s | S _ => None end
  | [] => match lo with O => k s | S _ => None end
  end.

(** Lazy [a{lo,hi}?]: as few characters as possible first, then more. *)
Fixpoint rep_lazy {A} (p : Z -> bool) (lo : nat) (hi : option nat)
  (k : pystr -> option A) (s : pystr) : option A :=
  match s with
  | x :: s' =>
      match lo with
      | O => match k s with
             | Some r => Some r
             | None => if more hi && p x then rep_lazy p O (less hi) k s' else None
             end
      | S lo' => if more hi && p x then rep_lazy p lo' (less hi) k s' else None
      end
  | [] => match lo with O => k s | S _ => None end
  end.

(** Captured groups, most recent first. *)
Definition caps := list (nat * pystr).

Definition consumed (s s' : pystr) : pystr :=
  firstn (length s - length s') s.

(** The matcher, in continuation-passing style: [k] is what remains to be
    matched after [r]; a failing continuation makes the matcher try the
    next alternative of [r]. *)
Fixpoint rmatch (ic : bool) (r : regex) (s : pystr) (c : caps)
  (k : pystr -> caps -> option (pystr * caps)) : option (pystr * caps) :=
  match r with
  | REmpty => k s c
  | RAtom a =>
      match s with
      | x :: s' => if atom_match ic a x then k s' c else None
      | [] => None
      end
  | RRep g lo hi a =>
      if g then rep_greedy (atom_match ic a) lo hi (fun s' => k s' c) s
      else rep_lazy (atom_match ic a) lo hi (fun s' => k s' c) s
  | RCat r1 r2 => rmatch ic r1 s c (fun s1 c1 => rmatch ic r2 s1 c1 k)
  | RAlt r1 r2 =>
      match rmatch ic r1 s c k with
      | Some res => Some res
      | None => rmatch ic r2 s c k
      end
  | RGroup n r1 => rmatch ic r1 s c (fun s1 c1 => k s1 ((n, consumed s s1) :: c1))
  | RLook r1 =>
      match rmatch ic r1 s c (fun s1 c1 => Some (s1, c1)) with
      | Some (_, c1) => k s c1
      | None => None
      end
  | REnd =>
      match s with
      | [] => k s c
      | [x] => if x =? 10 then k s c else None
      | _ => None
      end
  end.

(** A match anchored at the head of [s]. *)
Definition match_here (ic : bool) (r : regex) (s : pystr) : option (pystr * caps) :=
  rmatch ic r s [] (fun s' c => Some (s', c)).

(** [re.search]: the first start position with a match; the result gives
    that position, what follows the match, and the groups. *)
Fixpoint search_from (ic : bool) (r : regex) (pos : nat) (s : pystr)
  : option (nat * pystr * caps) :=
  match match_here ic r s with
  | Some (rest, c) => Some (pos, rest, c)
  | None =>
      match s with
      | [] => None
      | _ :: s' => search_from ic r (S pos) s'
      end
  end.

Definition search (ic : bool) (r : regex) (s : pystr) := search_from ic r 0 s.

Fixpoint group (n : nat) (c : caps) : option pystr :=
  match c with
  | [] => None
  | (m, v) :: c' => if Nat.eqb n m then Some v else group n c'
  end.

(** [re.sub(r'[set]', '', s)] for a one-character pattern: the matching
    characters are removed. *)
Definition sub_delete (ic : bool) (a : atom) (s : pystr) : pystr :=
  filter (fun x => negb (atom_match ic a x)) s.

(** [re.split(r, s)[0]]: what precedes the first match, or [s]. *)
Definition split_head (ic : bool) (r : regex) (s : pystr) : pystr :=
  match search ic r s with
  | Some (pos, _, _) => firstn pos s
  | None => s
  end.

(** Abbreviations for writing the patterns of the source. *)
Definition str (s : string) : regex :=
  fold_right (fun a r => RCat (RAtom (ALit (ord a))) r) REmpty (list_ascii_of_string s).

Definition space : atom := ASet false [SSpace].
Definition digit : atom := ASet false [SDigit].
Definition star (a : atom) : regex := RRep true 0 None a.
Definition opt (a : atom) : regex := RRep true 0 (Some 1%nat) a.
Definition between (lo hi : nat) (a : atom) : regex := RRep true lo (Some hi) a.
Definition at_least (lo : nat) (a : atom) : regex := RRep true lo None a.
Definition oneof (l : list set_item) : atom := ASet false l.
Definition seqs (l : list regex) : regex := fold_right RCat REmpty l.

End Re.

(** ** Field extraction (section 3 of [app.py]) *)

Module Extract.
Import Re.

Definition date : regex :=
  seqs [between 1 2 digit; RAtom (ALit (ord "/")); between 1 2 digit;
        RAtom (ALit (ord "/")); between 4 4 digit].

(** [str.strip()]. *)
Fixpoint lstrip (s : pystr) : pystr :=
  match s with
  | x :: s' => if Unicode.isspace x then lstrip s' else s
  | [] => []
  end.

Definition strip (s : pystr) : pystr := rev (lstrip (rev (lstrip s))).

(** Python's truth value of a string. *)
Definition truthy (s : pystr) : bool :=
  match s with [] => false | _ => true end.

(** *** [extract_vale_number] *)

(** [Vale\s*[\.:ºNº°\-\s]*\s*(\d{5,})] *)
Definition padrao_vale_1 : regex :=
  seqs [str "Vale"; star space;
        star (oneof [SChar (ord "."); SChar (ord ":"); SChar 186; SChar (ord "N");
                     SChar 186; SChar 176; SChar (ord "-"); SSpace]);
        star space; RGroup 1 (at_least 5 digit)].

(** [V\.?\s*[\.:º°\-\s]*\s*(\d{5,})] *)
Definition padrao_vale_2 : regex :=
  seqs [str "V"; opt (ALit (ord ".")); star space;
        star (oneof [SChar (ord "."); SChar (ord ":"); SChar 186; SChar 176;
                     SChar (ord "-"); SSpace]);
        star space; RGroup 1 (at_least 5 digit)].

(** [N[º°]\s*[:\.\-\s]*\s*(\d{5,})] *)
Definition padrao_vale_3 : regex :=
  seqs [str "N"; RAtom (oneof [SChar 186; SChar 176]); star space;
        star (oneof [SChar (ord ":"); SChar (ord "."); SChar (ord "-"); SSpace]);
        star space; RGroup 1 (at_least 5 digit)].

(** [VALE\s*(\d{5,})] *)
Definition padrao_vale_4 : regex :=
  seqs [str "VALE"; star space; RGroup 1 (at_least 5 digit)].

Definition padroes_vale : list regex :=
  [padrao_vale_1; padrao_vale_2; padrao_vale_3; padrao_vale_4].

(** [[^\d]] *)
Definition nao_numerico : atom := ASet true [SDigit].

(** The [for padrao in padroes] loop.  Every pattern has its group 1 on
    the path of any match, so [match.group(1)] is never [None]. *)
Fixpoint vale_loop (padroes : list regex) (texto : pystr) : option pystr :=
  match padroes with
  | [] => None
  | padrao :: resto =>
      match search true padrao texto with
      | Some (_, _, c) =>
          match group 1 c with
          | Some numero =>
              let numero_limpo := sub_delete false nao_numerico numero in
              if len numero_limpo >=? 5 then Some numero_limpo
              else vale_loop resto texto
          | None => vale_loop resto texto
          end
      | None => vale_loop resto texto
      end
  end.

Definition extract_vale_number (texto : pystr) : option pystr :=
  if truthy texto then vale_loop padroes_vale texto else None.

(** *** [extract_supplier] *)

(** [[A-Za-zÀ-ÿ0-9\s\.\-&]] *)
Definition nome_char : atom :=
  oneof [SRange (ord "A") (ord "Z"); SRange (ord "a") (ord "z"); SRange 192 255;
         SRange (ord "0") (ord "9"); SSpace; SChar (ord "."); SChar (ord "-");
         SChar (ord "&")].

(** [[\.:;\-]] *)
Definition separador : atom :=
  oneof [SChar (ord "."); SChar (ord ":"); SChar (ord ";"); SChar (ord "-")].

(** [Fornecedor\s*[\.:;\-]\s*([A-Za-zÀ-ÿ0-9\s\.\-&]+?)(?=\s*(Vale|Data|Nº|$|\.))] *)
Definition padrao_fornecedor_1 : regex :=
  seqs [str "Fornecedor"; star space; RAtom separador; star space;
        RGroup 1 (RRep false 1 None nome_char);
        RLook (seqs [star space;
                     RGroup 2 (RAlt (str "Vale")
                              (RAlt (str "Data")
                              (RAlt (RCat (RAtom (ALit (ord "N"))) (RAtom (ALit 186)))
                              (RAlt REnd (RAtom (ALit (ord ".")))))))])].

(** [FORNECEDOR\s*[\.:;\-]\s*([A-Za-zÀ-ÿ0-9\s\.\-&]+)] *)
Definition padrao_fornecedor_2 : regex :=
  seqs [str "FORNECEDOR"; star space; RAtom separador; star space;
        RGroup 1 (at_least 1 nome_char)].

(** [Empresa\s*[\.:;\-]\s*([A-Za-zÀ-ÿ0-9\s\.\-&]+)] *)
Definition padrao_fornecedor_3 : regex :=
  seqs [str "Empresa"; star space; RAtom separador; star space;
        RGroup 1 (at_least 1 nome_char)].

Definition padroes_fornecedor : list regex :=
  [padrao_fornecedor_1; padrao_fornecedor_2; padrao_fornecedor_3].

(** [\s{2,}|[-\|]] *)
Definition corte : regex :=
  RAlt (at_least 2 space) (RAtom (oneof [SChar (ord "-"); SChar (ord "|")])).

Fixpoint fornecedor_loop (padroes : list regex) (texto : pystr) : option pystr :=
  match padroes with
  | [] => None
  | padrao :: resto =>
      match search true padrao texto with
      | Some (_, _, c) =>
          match group 1 c with
          | Some g =>
              let fornecedor := split_head false corte (strip g) in
              if len fornecedor >? 3 then Some fornecedor
              else fornecedor_loop resto texto
          | None => fornecedor_loop resto texto
          end
      | None => fornecedor_loop resto texto
      end
  end.

Definition extract_supplier (texto : pystr) : option pystr :=
  if truthy texto then fornecedor_loop padroes_fornecedor texto else None.

(** *** [extract_due_date] *)

(** [[\.:]] *)
Definition ponto : atom := oneof [SChar (ord "."); SChar (ord ":")].

(** [Data\s*[\.:]\s*\d{1,2}/\d{1,2}/\d{4}\s*[aAà]\s*(\d{1,2}/\d{1,2}/\d{4})] *)
Definition padrao_principal : regex :=
  seqs [str "Data"; star space; RAtom ponto; star space; date; star space;
        RAtom (oneof [SChar (ord "a"); SChar (ord "A"); SChar 224]); star space;
        RGroup 1 date].

(** [Vencimento\s*[\.:]\s*(\d{1,2}/\d{1,2}/\d{4})] *)
Definition padrao_vencimento : regex :=
  seqs [str "Vencimento"; star space; RAtom ponto; star space; RGroup 1 date].

(** [Venc\.?\s*[\.:]\s*(\d{1,2}/\d{1,2}/\d{4})] *)
Definition padrao_venc : regex :=
  seqs [str "Venc"; opt (ALit (ord ".")); star space; RAtom ponto; star space;
        RGroup 1 date].

Definition padroes_fallback : list regex := [padrao_vencimento; padrao_venc].

Fixpoint fallback_loop (padroes : list regex) (texto : pystr) : option pystr :=
  match padroes with
  | [] => None
  | padrao :: resto =>
      match search false padrao texto with
      | Some (_, _, c) => group 1 c
      | None => fallback_loop resto texto
      end
  end.

Definition extract_due_date (texto : pystr) : option pystr :=
  if truthy texto then
    match search false padrao_principal texto with
    | Some (_, _, c) => group 1 c
    | None => fallback_loop padroes_fallback texto
    end
  else None.

End Extract.

(** ** Exceptions *)

Inductive result (A : Type) :=
| Ok (a : A)
| Raise (msg : pystr).
Arguments Ok {A} a.
Arguments Raise {A} msg.

Definition bind {A B} (x : result A) (f : A -> result B) : result B :=
  match x with
  | Ok a => f a
  | Raise e => Raise e
  end.

(** ** Python floats (IEEE 754 binary64) *)

Module Float.

Definition float := spec_float.

(** [float(n)], exact for the integers the program meets. *)
Definition of_int (n : Z) : float := binary_normalize 53 1024 n 0 false.

Definition div (x y : float) : float := SFdiv 53 1024 x y.
Definition mul (x y : float) : float := SFmul 53 1024 x y.

(** [int(x)]: truncation toward zero.  [int] raises on an infinity or a
    NaN; no operand of the program is one. *)
Definition to_int (x : float) : Z :=
  match x with
  | S754_finite s m e => cond_Zopp s (Z.shiftl (Zpos m) e)
  | _ => 0
  end.

End Float.

(** ** Image normalisation (section 2 of [app.py]) *)

Module Cv.

(** A [numpy] array of [uint8]: [h x w] or [h x w x 3] in BGR order. *)
Definition gray := list (list Z).
Definition bgr := list (list (Z * Z * Z)).

Inductive ndarray :=
| Gray (px : gray)
| Bgr (px : bgr).

Definition nrows {A} (m : list (list A)) : Z := len m.
Definition ncols {A} (m : list (list A)) : Z :=
  match m with
  | r :: _ => len r
  | [] => 0
  end.

Definition height (a : ndarray) : Z :=
  match a with Gray px => nrows px | Bgr px => nrows px end.
Definition width (a : ndarray) : Z :=
  match a with Gray px => ncols px | Bgr px => ncols px end.

(** [len(img_array.shape)] *)
Definition ndim (a : ndarray) : Z :=
  match a with Gray _ => 2 | Bgr _ => 3 end.

Definition rect {A} (m : list (list A)) : Prop :=
  1 <= nrows m /\ 1 <= ncols m /\ Forall (fun r => len r = ncols m) m.

(** A raster with at least one row and one column. *)
Definition raster (a : ndarray) : Prop :=
  match a with Gray px => rect px | Bgr px => rect px end.

(** The OpenCV primitives whose pixel arithmetic the program does not see:
    [cv2.resize], [cv2.cvtColor(_, COLOR_BGR2GRAY)] and the threshold that
    [THRESH_OTSU] selects. *)
Record cv2 := {
  resize : ndarray -> Z -> Z -> result ndarray;
  cvtColor : bgr -> gray;
  otsu : gray -> Z
}.

(** What the program relies on: [resize(img, (w, h))] gives an [h x w]
    array with the channels of [img], and raises on an empty target size;
    the colour conversion keeps the shape. *)
Record cv2_laws (cv : cv2) : Prop := {
  resize_shape : forall img w h, raster img -> 1 <= w -> 1 <= h ->
    exists out, resize cv img w h = Ok out /\ raster out /\
                height out = h /\ width out = w /\ ndim out = ndim img;
  resize_empty : forall img w h, w <= 0 \/ h <= 0 ->
    exists e, resize cv img w h = Raise e;
  cvtColor_shape : forall px, rect px ->
    rect (cvtColor cv px) /\ nrows (cvtColor cv px) = nrows px /\
    ncols (cvtColor cv px) = ncols px
}.

(** A [uint8] array. *)
Definition uint8 (m : gray) : Prop := Forall (Forall (fun x => 0 <= x <= 255)) m.

(** What [THRESH_OTSU] selects on an array whose pixels are not all equal:
    the threshold of largest between-class variance, which is positive
    only where pixels lie on both sides; so some pixel is at most the
    threshold and some pixel exceeds it.  OpenCV passes over a class whose
    weight is below [FLT_EPSILON = 2^-23]; with fewer than [2^23] pixels
    no class that holds a pixel is. *)
Definition otsu_splits (cv : cv2) : Prop :=
  forall m x y, rect m -> uint8 m -> len (concat m) < 2 ^ 23 ->
    In x (concat m) -> In y (concat m) -> x <> y ->
    exists a b, In a (concat m) /\ In b (concat m) /\ a <= otsu cv m < b.

(** [cv2.convertScaleAbs(_, alpha=1.5, beta=0)] on one pixel:
    [|1.5 x|] rounded to nearest, ties to even, saturated at 255. *)
Definition scale_abs (x : Z) : Z :=
  let n := 3 * Z.abs x in
  let q := n / 2 in
  let r := if n mod 2 =? 0 then q else if Z.even q then q else q + 1 in
  Z.min 255 r.

Definition convertScaleAbs (m : gray) : gray := map (map scale_abs) m.

(** [cv2.medianBlur(_, 3)]: the median of the 3 x 3 neighbourhood, the
    border pixels replicated. *)
Definition clamp (lo hi i : Z) : Z := Z.max lo (Z.min hi i).

Definition pixel (m : gray) (i j : Z) : Z :=
  let i' := clamp 0 (nrows m - 1) i in
  let j' := clamp 0 (ncols m - 1) j in
  nth (Z.to_nat j') (nth (Z.to_nat i') m []) 0.

Fixpoint insert (x : Z) (l : list Z) : list Z :=
  match l with
  | [] => [x]
  | y :: l' => if x <=? y then x :: l else y :: insert x l'
  end.

Definition sort (l : list Z) : list Z := fold_right insert [] l.

Definition median9 (m : gray) (i j : Z) : Z :=
  nth 4 (sort (flat_map (fun di => map (fun dj => pixel m (i + di) (j + dj)) [-1; 0; 1])
                        [-1; 0; 1])) 0.

Definition indices (n : Z) : list Z := map Z.of_nat (seq 0 (Z.to_nat n)).

Definition medianBlur3 (m : gray) : gray :=
  map (fun i => map (fun j => median9 m i j) (indices (ncols m))) (indices (nrows m)).

(** [cv2.threshold(_, t, maxval, THRESH_BINARY)] *)
Definition threshold (t maxval : Z) (m : gray) : gray :=
  map (map (fun x => if x >? t then maxval else 0)) m.

(** A [PIL] image, as [Image.fromarray] builds it from a [uint8] array. *)
Inductive pil_image :=
| ModeL (px : gray)
| ModeRGB (px : bgr).

Definition fromarray (a : ndarray) : pil_image :=
  match a with Gray px => ModeL px | Bgr px => ModeRGB px end.

Definition pil_height (p : pil_image) : Z :=
  match p with ModeL px => nrows px | ModeRGB px => nrows px end.
Definition pil_width (p : pil_image) : Z :=
  match p with ModeL px => ncols px | ModeRGB px => ncols px end.

(** The distinct intensities of an image. *)
Definition levels (p : pil_image) : list Z :=
  match p with
  | ModeL px => nodup Z.eq_dec (concat px)
  | ModeRGB px => nodup Z.eq_dec (flat_map (fun '(b, g, r) => [b; g; r]) (concat px))
  end.

(** [int(w * escala)] with [escala = 2000 / h]. *)
Definition nova_largura (w h : Z) : Z :=
  let escala := Float.div (Float.of_int 2000) (Float.of_int h) in
  Float.to_int (Float.mul (Float.of_int w) escala).

Section Normaliser.
Variable cv : cv2.

(** Lines 67-82: grey conversion, contrast, median filter, binarisation. *)
Definition binarizar (img_array : ndarray) : pil_image :=
  let cinza := match img_array with
               | Bgr px => cvtColor cv px
               | Gray px => px
               end in
  let cinza := convertScaleAbs cinza in
  let cinza := medianBlur3 cinza in
  let binario := threshold (otsu cv cinza) 255 cinza in
  fromarray (Gray binario).

Definition preprocess_image (img_array : option ndarray) : result (option pil_image) :=
  match img_array with
  | None => Ok None
  | Some img =>
      let h := height img in
      let w := width img in
      bind (if h >? 2000 then resize cv img (nova_largura w h) 2000 else Ok img)
           (fun img => Ok (Some (binarizar img)))
  end.

End Normaliser.

(** A stand-in for the OpenCV primitives that satisfies [cv2_laws]:
    nearest-neighbour resampling, the fixed-point luma of OpenCV 4 and
    Otsu's threshold computed exactly.  It is used to run the model on
    concrete images. *)
Definition sample {A} (d : A) (m : list (list A)) (w h : Z) : list (list A) :=
  map (fun i => map (fun j => nth (Z.to_nat (j * ncols m / w))
                                  (nth (Z.to_nat (i * nrows m / h)) m []) d)
                    (indices w))
      (indices h).

Definition resize_nn (a : ndarray) (w h : Z) : result ndarray :=
  if (w <=? 0) || (h <=? 0) then Raise (lit "inv_scale_x > 0")
  else match a with
       | Gray px => Ok (Gray (sample 0 px w h))
       | Bgr px => Ok (Bgr (sample (0, 0, 0) px w h))
       end.

Definition luma (p : Z * Z * Z) : Z :=
  let '(b, g, r) := p in (b * 3735 + g * 19235 + r * 9798 + 16384) / 32768.

(** Otsu's method in exact arithmetic: among the thresholds 0..255 that
    leave pixels on both sides, the first one of largest between-class
    variance, and 0 when there is none.  With [n1] pixels of sum [s1] at
    or below the threshold, out of [n] pixels of sum [s], the variance is
    [(s1 n - n1 s)^2 / (n^2 n1 (n - n1))]; two of them are compared by
    cross-multiplication. *)
Definition total (l : list Z) : Z := fold_right Z.add 0 l.

Definition otsu_num (l : list Z) (i : Z) : Z :=
  let low := filter (fun x => x <=? i) l in
  let d := total low * len l - len low * total l in
  d * d.

Definition otsu_den (l : list Z) (i : Z) : Z :=
  let n1 := len (filter (fun x => x <=? i) l) in
  n1 * (len l - n1).

Definition otsu_step (l : list Z) (best : Z * Z * Z) (i : Z) : Z * Z * Z :=
  let '(num, den, val) := best in
  if (0 <? otsu_den l i) && (num * otsu_den l i <? otsu_num l i * den)
  then (otsu_num l i, otsu_den l i, i)
  else best.

Definition otsu_exact (m : gray) : Z :=
  let '(_, _, val) := fold_left (otsu_step (concat m)) (indices 256) (0, 1, 0) in
  val.

Definition cv_stub : cv2 :=
  {| resize := resize_nn; cvtColor := map (map luma); otsu := otsu_exact |}.

End Cv.

(** ** The batch loop (section 5 of [app.py], [processar_imagens]) *)

Module App.
Import Cv Extract.

(** An entry of [imagens_processar]. *)
Record dados_imagem := {
  nome : pystr;
  imagem : option ndarray;
  tipo : pystr
}.

(** A row of [resultados]. *)
Record registro := {
  Arquivo : pystr;
  Origem : pystr;
  Numero_do_Vale : pystr;
  Fornecedor : pystr;
  Vencimento : pystr
}.

(** What [pytesseract.image_to_string] is called on. *)
Inductive entrada_ocr :=
| Processada (img : pil_image)
| Original (img : option ndarray).

(** What the loop shows besides the table: the calls of the recogniser and
    the [st.error] messages. *)
Inductive evento :=
| ChamadaOcr (e : entrada_ocr)
| StError (msg : pystr).

(** ["Não encontrado"] *)
Definition nao_encontrado : pystr := lit "N" ++ [227] ++ lit "o encontrado".

Definition ERRO : pystr := lit "ERRO".

(** [x or d] on an optional string: [None] and [""] are false. *)
Definition ou (x : option pystr) (d : pystr) : pystr :=
  match x with
  | Some v => if truthy v then v else d
  | None => d
  end.

(** Lines 358-360: the minimum-digit filter. *)
Definition filtro_minimo (minimo_digitos : Z) (numero_vale : option pystr) : option pystr :=
  match numero_vale with
  | Some v => if truthy v && (len v <? minimo_digitos) then None else Some v
  | None => None
  end.

(** Lines 385-391. *)
Definition registro_ok (d : dados_imagem) (minimo_digitos : Z) (texto_ocr : pystr) : registro :=
  let numero_vale := extract_vale_number texto_ocr in
  let fornecedor := extract_supplier texto_ocr in
  let vencimento := extract_due_date texto_ocr in
  let numero_vale := filtro_minimo minimo_digitos numero_vale in
  {| Arquivo := nome d;
     Origem := tipo d;
     Numero_do_Vale := ou numero_vale nao_encontrado;
     Fornecedor := ou fornecedor nao_encontrado;
     Vencimento := ou vencimento nao_encontrado |}.

(** Lines 393-401. *)
Definition registro_erro (d : dados_imagem) (e : pystr) : registro :=
  {| Arquivo := nome d;
     Origem := tipo d;
     Numero_do_Vale := ERRO;
     Fornecedor := lit "Erro: " ++ firstn 50 e;
     Vencimento := [] |}.


(** The widget calls that stand inside the [try] of lines 347-401, where
    what they raise is caught like what the recogniser raises.
    [metricas] is lines 363-372: the heading, the three columns and their
    [st.metric], given the three values shown.  [texto_completo] is lines
    375-383: the expander opened inside the expander of the image and its
    text area, given the name, the index and the text. *)
Record streamlit := {
  metricas : pystr -> pystr -> pystr -> result unit;
  texto_completo : pystr -> Z -> pystr -> result unit
}.

Section Loop.
Variable cv : cv2.
Variable image_to_string : entrada_ocr -> result pystr.
Variable st : streamlit.

(** [imagem_processada if imagem_processada else imagem]; a [PIL] image
    is always true. *)
Definition entrada (imagem_processada : option pil_image) (imagem : option ndarray)
  : entrada_ocr :=
  match imagem_processada with
  | Some p => Processada p
  | None => Original imagem
  end.

(** The body of the [try], lines 348-391: recognition, extraction, the
    minimum-digit filter, the display of the three fields, the display of
    the text under [mostrar_texto and texto_ocr.strip()], and the record
    that is appended last. *)
Definition corpo_try (mostrar_texto : bool) (minimo_digitos idx : Z) (d : dados_imagem)
  (arg : entrada_ocr) : result registro :=
  bind (image_to_string arg) (fun texto_ocr =>
    let r := registro_ok d minimo_digitos texto_ocr in
    bind (metricas st (Numero_do_Vale r) (Fornecedor r) (Vencimento r)) (fun _ =>
      bind (if mostrar_texto && truthy (strip texto_ocr)
            then texto_completo st (nome d) idx texto_ocr
            else Ok tt) (fun _ =>
        Ok r))).

(** One iteration, lines 337-401: the normaliser runs outside the [try];
    whatever the body of the [try] raises becomes the error record.  The
    widget calls outside the [try] (the status line, the expander of the
    image, the display of the original and of the processed image) are
    taken to return. *)
Definition processar_item (mostrar_texto : bool) (minimo_digitos idx : Z) (d : dados_imagem)
  : result (registro * list evento) :=
  bind (preprocess_image cv (imagem d)) (fun imagem_processada =>
    let arg := entrada imagem_processada (imagem d) in
    match corpo_try mostrar_texto minimo_digitos idx d arg with
    | Ok r => Ok (r, [ChamadaOcr arg])
    | Raise e =>
        Ok (registro_erro d e,
            [ChamadaOcr arg; StError (lit "Erro durante o OCR: " ++ e)])
    end).

(** The [for] loop of lines 297-403 over [enumerate(imagens_processar)],
    appending to [resultados]. *)
Fixpoint laco (mostrar_texto : bool) (minimo_digitos idx : Z) (imagens : list dados_imagem)
  (resultados : list registro) (log : list evento)
  : result (list registro * list evento) :=
  match imagens with
  | [] => Ok (resultados, log)
  | d :: resto =>
      bind (processar_item mostrar_texto minimo_digitos idx d) (fun '(r, ev) =>
        laco mostrar_texto minimo_digitos (idx + 1) resto (resultados ++ [r]) (log ++ ev))
  end.

(** Lines 254-291: an uploaded file gives an entry when its bytes decode;
    [decodificadas] holds, per file, the name and what [cv2.imdecode]
    returned.  The image fetched from the Drive link, if any, comes last. *)
Definition imagens_processar (decodificadas : list (pystr * option ndarray))
  (drive : option ndarray) : list dados_imagem :=
  flat_map (fun '(n, img) =>
              match img with
              | Some i => [{| nome := n; imagem := Some i; tipo := lit "upload" |}]
              | None => []
              end) decodificadas
  ++ match drive with
     | Some i => [{| nome := lit "imagem_drive.jpg"; imagem := Some i; tipo := lit "drive" |}]
     | None => []
     end.

Definition processar_imagens (decodificadas : list (pystr * option ndarray))
  (drive : option ndarray) (mostrar_texto : bool) (minimo_digitos : Z)
  : result (list registro * list evento) :=
  laco mostrar_texto minimo_digitos 0 (imagens_processar decodificadas drive) [] [].

End Loop.

End App.

(** ** The Drive link (section 4 of [app.py], [get_drive_file_id]) *)

Module Drive.
Import Re.

(** [[a-zA-Z0-9_-]] *)
Definition id_char : atom :=
  oneof [SRange (ord "a") (ord "z"); SRange (ord "A") (ord "Z");
         SRange (ord "0") (ord "9"); SChar (ord "_"); SChar (ord "-")].

(** [/d/([a-zA-Z0-9_-]+)] *)
Definition padrao_d : regex := seqs [str "/d/"; RGroup 1 (at_least 1 id_char)].

(** [id=([a-zA-Z0-9_-]+)] *)
Definition padrao_id : regex := seqs [str "id="; RGroup 1 (at_least 1 id_char)].

Definition padroes : list regex := [padrao_d; padrao_id].

Fixpoint id_loop (padroes : list regex) (link : pystr) : option pystr :=
  match padroes with
  | [] => None
  | padrao :: resto =>
      match search false padrao link with
      | Some (_, _, c) => group 1 c
      | None => id_loop resto link
      end
  end.

Definition get_drive_file_id (link : pystr) : option pystr := id_loop padroes link.

(** Lines 278-287: the link is used when it is not empty and carries an
    identifier; [download] stands for [download_from_drive]. *)
Definition imagem_do_drive (download : pystr -> option Cv.ndarray) (link_drive : pystr)
  : option Cv.ndarray :=
  if Extract.truthy link_drive then
    match get_drive_file_id link_drive with
    | Some file_id => if Extract.truthy file_id then download file_id else None
    | None => None
    end
  else None.

End Drive.

(** ** Locating the Tesseract binary (section 1 of [app.py]) *)

Module Setup.

Definition caminhos_cloud : list pystr :=
  [lit "/usr/bin/tesseract"; lit "/usr/local/bin/tesseract"; lit "/usr/bin/tesseract-ocr"].

Definition caminhos_local : list pystr :=
  [lit "C:\Program Files\Tesseract-OCR\tesseract.exe";
   lit "C:\Program Files (x86)\Tesseract-OCR\tesseract.exe";
   lit "/usr/bin/tesseract"; lit "/usr/local/bin/tesseract"].

Section Probe.
(** [os.path.exists], and whether [pytesseract.get_tesseract_version()]
    returns (rather than raises) once [tesseract_cmd] is the given path. *)
Variable path_exists : pystr -> bool.
Variable version_ok : pystr -> bool.

(** The [for caminho in caminhos_tentar] loop; the state is the global
    [pytesseract.pytesseract.tesseract_cmd], assigned before the version
    is asked for and left as it is when the query raises. *)
Fixpoint tentar (caminhos : list pystr) (tesseract_cmd : pystr) : bool * pystr :=
  match caminhos with
  | [] => (false, tesseract_cmd)
  | caminho :: resto =>
      if path_exists caminho then
        if version_ok caminho then (true, caminho) else tentar resto caminho
      else tentar resto tesseract_cmd
  end.

Definition caminhos_tentar : list pystr :=
  if path_exists (lit "/app") then caminhos_cloud else caminhos_local.

Definition setup_tesseract (tesseract_cmd : pystr) : bool * pystr :=
  tentar caminhos_tentar tesseract_cmd.

End Probe.

End Setup.

(** ** The consolidated statistics (lines 409-427 of [processar_imagens]) *)

Module Report.
Import App.

Fixpoint str_eqb (a b : pystr) : bool :=
  match a, b with
  | [], [] => true
  | x :: a', y :: b' => (x =? y) && str_eqb a' b'
  | _, _ => false
  end.

(** [x in l] for a list of strings. *)
Definition in_list (x : pystr) (l : list pystr) : bool := existsb (str_eqb x) l.

(** [r['Número do Vale'] not in ['Não encontrado', 'ERRO']] *)
Definition vale_encontrado (r : registro) : bool :=
  negb (in_list (Numero_do_Vale r) [nao_encontrado; ERRO]).

Definition total_processado (resultados : list registro) : Z := len resultados.

(** [sum(1 for r in resultados if ...)] *)
Definition vales_encontrados (resultados : list registro) : Z :=
  fold_right Z.add 0 (map (fun _ => 1) (filter vale_encontrado resultados)).

(** [(vales_encontrados / total_processado) * 100], computed when
    [total_processado > 0]. *)
Definition taxa_sucesso (resultados : list registro) : option Float.float :=
  if total_processado resultados >? 0 then
    Some (Float.mul (Float.div (Float.of_int (vales_encontrados resultados))
                               (Float.of_int (total_processado resultados)))
                    (Float.of_int 100))
  else None.

End Report.

(** * Specification vocabulary *)

Module Spec.
Import Re.

(** [n] repetitions are allowed by the bounds [{lo,hi}]. *)
Definition rep_ok (lo : nat) (hi : option nat) (n : nat) : Prop :=
  (lo <= n)%nat /\ match hi with Some h => (n <= h)%nat | None => True end.

(** The declarative reading of a pattern: [matches ic r s c s' c'] when
    [r] can consume the part of [s] that precedes [s'], turning the groups
    [c] into [c'].  It knows nothing of priorities. *)
Fixpoint matches (ic : bool) (r : regex) (s : pystr) (c : caps) (s' : pystr) (c' : caps)
  : Prop :=
  match r with
  | REmpty => s' = s /\ c' = c
  | RAtom a => exists x, s = x :: s' /\ atom_match ic a x = true /\ c' = c
  | RRep _ lo hi a =>
      exists xs, s = xs ++ s' /\ Forall (fun x => atom_match ic a x = true) xs /\
                 rep_ok lo hi (length xs) /\ c' = c
  | RCat r1 r2 => exists s1 c1, matches ic r1 s c s1 c1 /\ matches ic r2 s1 c1 s' c'
  | RAlt r1 r2 => matches ic r1 s c s' c' \/ matches ic r2 s c s' c'
  | RGroup n r1 => exists c1, matches ic r1 s c s' c1 /\ c' = (n, consumed s s') :: c1
  | RLook r1 => s' = s /\ exists s1, matches ic r1 s c s1 c'
  | REnd => s' = s /\ c' = c /\ (s = [] \/ s = [10])
  end.

(** A continuation whose success does not depend on the groups. *)
Definition blind (k : pystr -> caps -> option (pystr * caps)) : Prop :=
  forall s c1 c2, k s c1 = None -> k s c2 = None.

(** The white-space code points, one by one. *)
Definition space_points : list Z :=
  [9; 10; 11; 12; 13; 28; 29; 30; 31; 32; 133; 160; 5760; 8192; 8193; 8194; 8195;
   8196; 8197; 8198; 8199; 8200; 8201; 8202; 8232; 8233; 8239; 8287; 12288].

Definition spaces (ws : pystr) : Prop := Forall (fun x => Unicode.isspace x = true) ws.
Definition digits (ds : pystr) : Prop := Forall (fun x => Unicode.isdecimal x = true) ds.

(** [P] holds of a suffix of [texto], of its first argument, and of no
    suffix that starts further left. *)
Definition leftmost (P : pystr -> pystr -> Prop) (texto d : pystr) : Prop :=
  exists pre suf, texto = pre ++ suf /\ P suf d /\
    forall pre' suf' d', texto = pre' ++ suf' -> (length pre' < length pre)%nat -> ~ P suf' d'.

Definition nowhere (P : pystr -> pystr -> Prop) (texto : pystr) : Prop :=
  forall pre suf d, texto = pre ++ suf -> ~ P suf d.

(** A date [d{1,2}/d{1,2}/dddd]. *)
Definition is_date (d : pystr) : Prop :=
  exists dd mm yyyy, d = dd ++ ord "/" :: mm ++ ord "/" :: yyyy /\
    digits dd /\ digits mm /\ digits yyyy /\
    (1 <= length dd <= 2)%nat /\ (1 <= length mm <= 2)%nat /\ length yyyy = 4%nat.

Definition is_ponto (x : Z) : Prop := x = ord "." \/ x = ord ":".

(** [s] begins with a validity range ["Data" sep date conn date] whose
    second date is [d]. *)
Definition range_here (s d : pystr) : Prop :=
  exists ws1 sep ws2 d1 ws3 conn ws4 rest,
    s = lit "Data" ++ ws1 ++ sep :: ws2 ++ d1 ++ ws3 ++ conn :: ws4 ++ d ++ rest /\
    spaces ws1 /\ is_ponto sep /\ spaces ws2 /\ is_date d1 /\ spaces ws3 /\
    (conn = ord "a" \/ conn = ord "A" \/ conn = 224) /\ spaces ws4 /\ is_date d.

(** [s] begins with ["Vencimento" sep date]. *)
Definition vencimento_here (s d : pystr) : Prop :=
  exists ws1 sep ws2 rest,
    s = lit "Vencimento" ++ ws1 ++ sep :: ws2 ++ d ++ rest /\
    spaces ws1 /\ is_ponto sep /\ spaces ws2 /\ is_date d.

(** [s] begins with ["Venc" sep date] or ["Venc." sep date]. *)
Definition venc_here (s d : pystr) : Prop :=
  exists dot ws1 sep ws2 rest,
    s = lit "Venc" ++ dot ++ ws1 ++ sep :: ws2 ++ d ++ rest /\
    (dot = [] \/ dot = [ord "."]) /\
    spaces ws1 /\ is_ponto sep /\ spaces ws2 /\ is_date d.

(** A keyword immediately followed by a date, with or without blanks in
    between but no separator. *)
Definition keyword_then_date (kw s d : pystr) : Prop :=
  exists ws rest, s = kw ++ ws ++ d ++ rest /\ spaces ws /\ is_date d.

(** Where [re.split(r'\s{2,}|[-\|]', _)] cuts: at a hyphen, a pipe, or two
    white-space characters in a row. *)
Definition cut_here (s : pystr) : Prop :=
  match s with
  | x :: rest =>
      x = ord "-" \/ x = ord "|" \/
      (Unicode.isspace x = true /\
       match rest with y :: _ => Unicode.isspace y = true | [] => False end)
  | [] => False
  end.

(** Python's [round] of the quotient [a / b]: to nearest, ties to even. *)
Definition round_div (a b : Z) : Z :=
  let q := a / b in
  let r := a mod b in
  if 2 * r <? b then q
  else if b <? 2 * r then q + 1
  else if Z.even q then q else q + 1.

(** [match.group(1)] of [re.search(p, texto, re.IGNORECASE)]. *)
Definition captured (p : regex) (texto : pystr) : option pystr :=
  match search true p texto with
  | Some (_, _, c) => group 1 c
  | None => None
  end.

(** The clean-up of a supplier candidate: [re.split(...)[0]] of the
    stripped capture. *)
Definition aparar (g : pystr) : pystr := split_head false Extract.corte (Extract.strip g).

(** The first supplier pattern matches at the head of [s]. *)
Definition fornecedor_here (s : pystr) : Prop :=
  match_here true Extract.padrao_fornecedor_1 s <> None.

(** Sample texts. *)
Definition exemplo_vale : pystr := lit "Vale n" ++ [186] ++ lit " 00045123".

Definition exemplo_fornecedor : pystr :=
  lit "Fornecedor: Comercial ABC Ltda   Vale 123456".

Definition dois_fornecedores : pystr :=
  lit "Fornecedor: Outra Firma Vale 1 Fornecedor: Comercial ABC Ltda   Vale 123456".

Definition exemplo_data : pystr := lit "Data: 01/01/2024 a 15/02/2024".

Definition duas_faixas : pystr :=
  lit "Data: 03/03/2023 a 04/04/2023 Data: 01/01/2024 a 15/02/2024".

(** Sample images: one grey pixel; a grey image 3 wide and 4000 high; a
    colour image 1 wide and 2001 high. *)
Definition um_pixel : Cv.ndarray := Cv.Gray [[0]].

Definition imagem_alta : Cv.ndarray := Cv.Gray (repeat [0; 0; 0] 4000).

Definition imagem_estreita : Cv.ndarray := Cv.Bgr (repeat [(0, 0, 0)] 2001).

(** An image is binary when each pixel is 0 or 255. *)
Definition binary (px : Cv.gray) : Prop :=
  Forall (Forall (fun x => x = 0 \/ x = 255)) px.

End Spec.

(** * Further specification vocabulary *)

Module SpecMore.
Import Re Spec.

(** [g] occurs in [t] as a contiguous piece. *)
Definition substring (g t : pystr) : Prop := exists pre post, t = pre ++ g ++ post.

Definition suffix (s t : pystr) : Prop := exists pre, t = pre ++ s.

(** Every group of [c] holds a piece of [t]. *)
Definition caps_in (t : pystr) (c : caps) : Prop :=
  forall n g, In (n, g) c -> substring g t.

(** The longest prefix of [s] made of [p]-characters, and what follows. *)
Fixpoint span (p : Z -> bool) (s : pystr) : pystr * pystr :=
  match s with
  | x :: s' => if p x then let '(xs, rest) := span p s' in (x :: xs, rest) else ([], s)
  | [] => ([], [])
  end.

(** [rest] does not continue a run of [p]-characters. *)
Definition stops (p : Z -> bool) (rest : pystr) : Prop :=
  match rest with
  | x :: _ => p x = false
  | [] => True
  end.

(** A character of a Drive identifier. *)
Definition is_id_char (x : Z) : bool :=
  ((ord "a" <=? x) && (x <=? ord "z")) || ((ord "A" <=? x) && (x <=? ord "Z")) ||
  ((ord "0" <=? x) && (x <=? ord "9")) || (x =? ord "_") || (x =? ord "-").

(** [s] begins with the key [kw] and the identifier [i], taken as far as
    identifier characters go. *)
Definition key_here (kw : pystr) (s i : pystr) : Prop :=
  exists rest, s = kw ++ i ++ rest /\ i <> [] /\
               Forall (fun x => is_id_char x = true) i /\ stops is_id_char rest.

(** What may stand between ["Vale"] and the number in the first voucher
    pattern: white space and the characters [. : º N n ° -]. *)
Definition is_vale_sep (x : Z) : bool :=
  Unicode.isspace x || mem x [ord "."; ord ":"; 186; ord "N"; ord "n"; 176; ord "-"].

(** A spelling of ["vale"] in any mix of cases. *)
Definition is_vale_word (kw : pystr) : Prop :=
  exists v a l e, kw = [v; a; l; e] /\
    (v = ord "V" \/ v = ord "v") /\ (a = ord "A" \/ a = ord "a") /\
    (l = ord "L" \/ l = ord "l") /\ (e = ord "E" \/ e = ord "e").

(** No letter [v] or [V] (nor any character folding to [v]). *)
Definition no_v (pre : pystr) : Prop :=
  Forall (fun x => Unicode.tolower x <> ord "v") pre.

(** The characters a set member stands for once compiled with
    [IGNORECASE]: the lower case of each of its characters and their extra
    equivalents (categories apart). *)
Definition item_values (it : set_item) : list Z :=
  match it with
  | SChar c => Unicode.tolower c :: Unicode.casefix (Unicode.tolower c)
  | SRange lo hi =>
      flat_map (fun c => Unicode.tolower c :: Unicode.casefix (Unicode.tolower c))
               (zrange lo hi)
  | SSpace | SDigit => []
  end.

(** The separator set of the first voucher pattern. *)
Definition vale_set : list set_item :=
  [SChar (ord "."); SChar (ord ":"); SChar 186; SChar (ord "N");
   SChar 186; SChar 176; SChar (ord "-"); SSpace].

(** The value [tesseract_cmd] is left with when no candidate answers: the
    last candidate that exists, or the initial value. *)
Definition ultimo_existente (path_exists : pystr -> bool) (caminhos : list pystr)
  (inicial : pystr) : pystr :=
  fold_left (fun cmd c => if path_exists c then c else cmd) caminhos inicial.

(** The shape of both Drive patterns: a key, then a captured run of at
    least [n] characters of the class [a]. *)
Definition key_pattern (w : string) (a : atom) (n : nat) : regex :=
  seqs [str w; RGroup 1 (at_least n a)].

(** A candidate path answers when it exists and the version query made
    with it returns. *)
Definition answers (path_exists version_ok : pystr -> bool) (c : pystr) : bool :=
  path_exists c && version_ok c.

(** An upload whose bytes [cv2.imdecode] turned into an image. *)
Definition decodificado (u : pystr * option Cv.ndarray) : bool :=
  match snd u with Some _ => true | None => false end.

(** The image the filters work on: the input, resized first when it is
    taller than 2000 pixels (lines 61-65). *)
Definition redimensionada (cv : Cv.cv2) (img : Cv.ndarray) : result Cv.ndarray :=
  if Cv.height img >? 2000
  then Cv.resize cv img (Cv.nova_largura (Cv.width img) (Cv.height img)) 2000
  else Ok img.

(** The picture that is thresholded (lines 67-76): grey, the contrast
    raised, median filtered. *)
Definition filtrada (cv : Cv.cv2) (img : Cv.ndarray) : Cv.gray :=
  Cv.medianBlur3 (Cv.convertScaleAbs
    (match img with Cv.Bgr px => Cv.cvtColor cv px | Cv.Gray px => px end)).

(** What the search for the exact Otsu threshold keeps true of its best
    candidate [(num, den, val)] once the thresholds [seen] are tried: a
    positive variance belongs to a threshold with pixels on both sides,
    and is reached as soon as such a threshold has been tried. *)
Definition otsu_inv (l : list Z) (seen : list Z) (best : Z * Z * Z) : Prop :=
  let '(num, den, val) := best in
  0 < den /\ 0 <= num /\ (0 < num -> 0 < Cv.otsu_den l val) /\
  (forall i, In i seen -> 0 < Cv.otsu_den l i -> 0 < num).

(** A grey image of one row, dark on the left and light on the right. *)
Definition duas_cores : Cv.ndarray := Cv.Gray [[0; 0; 0; 200; 200; 200]].

(** Widgets that all return, and widgets of a Streamlit release that
    refuses an expander inside an expander. *)
Definition st_ok : App.streamlit :=
  {| App.metricas := fun _ _ _ => Ok tt; App.texto_completo := fun _ _ _ => Ok tt |}.

Definition st_sem_aninhar : App.streamlit :=
  {| App.metricas := fun _ _ _ => Ok tt;
     App.texto_completo := fun _ _ _ =>
       Raise (lit "Expanders may not be nested inside other expanders.") |}.



End SpecMore.

(** * The matcher against its declarative reading *)

Module ReFacts.
Import Re Spec.

Section Repetition.
Context {A : Type} (p : Z -> bool).

Lemma rep_ok_step lo hi n :
  more hi = true -> rep_ok (pred lo) (less hi) n -> rep_ok lo hi (S n).
Proof.
  unfold rep_ok; destruct hi as [[|h]|]; simpl; intros Hm [H1 H2];
    try discriminate; split; lia.
Qed.

Lemma rep_ok_pred lo hi n :
  rep_ok lo hi (S n) -> more hi = true /\ rep_ok (pred lo) (less hi) n.
Proof.
  unfold rep_ok; destruct hi as [[|h]|]; simpl; intros [H1 H2];
    (split; [reflexivity || lia | split; lia]).
Qed.

Lemma rep_ok_zero lo hi : rep_ok lo hi 0 -> lo = O.
Proof. unfold rep_ok; intros [H _]; lia. Qed.

Lemma rep_greedy_sound s : forall lo hi (k : pystr -> option A) r,
  rep_greedy p lo hi k s = Some r ->
  exists xs rest, s = xs ++ rest /\ Forall (fun x => p x = true) xs /\
                  rep_ok lo hi (length xs) /\ k rest = Some r.
Proof.
  assert (Hstop : forall lo hi (k : pystr -> option A) r t,
             match lo with O => k t | S _ => None end = Some r ->
             exists xs rest, t = xs ++ rest /\ Forall (fun x => p x = true) xs /\
                             rep_ok lo hi (length xs) /\ k rest = Some r).
  { intros [|lo] hi k r t H; [|discriminate].
    exists [], t; repeat split; auto; simpl; try lia.
    destruct hi; [simpl; lia | exact I]. }
  induction s as [|x s IH]; intros lo hi k r H; simpl in H.
  - now apply Hstop.
  - destruct (more hi && p x) eqn:E; [|now apply Hstop].
    apply andb_prop in E as [Em Ep].
    destruct (rep_greedy p (pred lo) (less hi) k s) eqn:E2; [|now apply Hstop].
    injection H as <-.
    destruct (IH _ _ _ _ E2) as (xs & rest & -> & Hall & Hok & Hk).
    exists (x :: xs), rest; repeat split; auto.
    + apply (rep_ok_step _ _ _ Em Hok).
    + apply (rep_ok_step _ _ _ Em Hok).
Qed.

Lemma rep_greedy_complete xs : forall rest lo hi (k : pystr -> option A),
  Forall (fun x => p x = true) xs -> rep_ok lo hi (length xs) -> k rest <> None ->
  rep_greedy p lo hi k (xs ++ rest) <> None.
Proof.
  induction xs as [|x xs IH]; intros rest lo hi k Hall Hok Hk.
  - apply rep_ok_zero in Hok; subst lo; simpl.
    destruct rest as [|y rest]; simpl; auto.
    destruct (more hi && p y); auto.
    destruct (rep_greedy p 0 (less hi) k rest); auto; discriminate.
  - inversion Hall as [|? ? Hx Hxs]; subst.
    apply rep_ok_pred in Hok as [Hm Hok].
    simpl. rewrite Hm, Hx; simpl.
    specialize (IH rest _ _ k Hxs Hok Hk).
    destruct (rep_greedy p (pred lo) (less hi) k (xs ++ rest)); [discriminate | contradiction].
Qed.

Lemma rep_lazy_sound s : forall lo hi (k : pystr -> option A) r,
  rep_lazy p lo hi k s = Some r ->
  exists xs rest, s = xs ++ rest /\ Forall (fun x => p x = true) xs /\
                  rep_ok lo hi (length xs) /\ k rest = Some r.
Proof.
  assert (Hnil : forall hi, rep_ok 0 hi 0).
  { intros [h|]; split; simpl; lia || exact I. }
  induction s as [|x s IH]; intros lo hi k r H; simpl in H.
  - destruct lo; [|discriminate].
    exists [], []; repeat split; auto; apply Hnil.
  - destruct lo as [|lo].
    + destruct (k (x :: s)) eqn:Ek.
      * injection H as <-. exists [], (x :: s); repeat split; auto; apply Hnil.
      * destruct (more hi && p x) eqn:E; [|discriminate].
        apply andb_prop in E as [Em Ep].
        destruct (IH _ _ _ _ H) as (xs & rest & -> & Hall & Hok & Hk).
        exists (x :: xs), rest; repeat split; auto;
          apply (rep_ok_step 0 _ _ Em Hok).
    + destruct (more hi && p x) eqn:E; [|discriminate].
      apply andb_prop in E as [Em Ep].
      destruct (IH _ _ _ _ H) as (xs & rest & -> & Hall & Hok & Hk).
      exists (x :: xs), rest; repeat split; auto;
        apply (rep_ok_step (S lo) _ _ Em Hok).
Qed.

Lemma rep_lazy_complete xs : forall rest lo hi (k : pystr -> option A),
  Forall (fun x => p x = true) xs -> rep_ok lo hi (length xs) -> k rest <> None ->
  rep_lazy p lo hi k (xs ++ rest) <> None.
Proof.
  induction xs as [|x xs IH]; intros rest lo hi k Hall Hok Hk.
  - apply rep_ok_zero in Hok; subst lo; simpl.
    destruct rest as [|y rest]; simpl; auto.
    destruct (k (y :: rest)); [discriminate | contradiction].
  - inversion Hall as [|? ? Hx Hxs]; subst.
    apply rep_ok_pred in Hok as [Hm Hok].
    simpl. rewrite Hm, Hx; simpl.
    specialize (IH rest _ _ k Hxs Hok Hk).
    destruct lo as [|lo]; simpl in *; auto.
    destruct (k (x :: xs ++ rest)); [discriminate | auto].
Qed.

End Repetition.

(** Every result of the matcher is a declarative match followed by a
    success of the continuation. *)
Lemma rmatch_sound ic r : forall s c k res,
  rmatch ic r s c k = Some res ->
  exists s' c', matches ic r s c s' c' /\ k s' c' = Some res.
Proof.
  induction r as [|a|g lo hi a|r1 IH1 r2 IH2|r1 IH1 r2 IH2|n r1 IH1|r1 IH1|];
    intros s c k res H; simpl in H.
  - exists s, c; simpl; auto.
  - destruct s as [|x s]; [discriminate|].
    destruct (atom_match ic a x) eqn:E; [|discriminate].
    exists s, c; split; auto. exists x; auto.
  - assert (exists xs rest, s = xs ++ rest /\
              Forall (fun x => atom_match ic a x = true) xs /\
              rep_ok lo hi (length xs) /\ k rest c = Some res) as (xs & rest & -> & ? & ? & ?).
    { destruct g; [apply rep_greedy_sound in H | apply rep_lazy_sound in H]; exact H. }
    exists rest, c; split; auto. exists xs; auto.
  - apply IH1 in H as (s1 & c1 & H1 & H).
    apply IH2 in H as (s2 & c2 & H2 & H).
    exists s2, c2; split; auto. exists s1, c1; auto.
  - destruct (rmatch ic r1 s c k) eqn:E.
    + injection H as <-. apply IH1 in E as (s' & c' & ? & ?).
      exists s', c'; simpl; auto.
    + apply IH2 in H as (s' & c' & ? & ?). exists s', c'; simpl; auto.
  - apply IH1 in H as (s1 & c1 & H1 & H).
    exists s1, ((n, consumed s s1) :: c1); split; auto. exists c1; auto.
  - destruct (rmatch ic r1 s c (fun s1 c1 => Some (s1, c1))) as [[s1 c1]|] eqn:E;
      [|discriminate].
    apply IH1 in E as (s2 & c2 & H2 & E). injection E as -> ->.
    exists s, c1; split; auto. split; auto. exists s1; auto.
  - destruct s as [|x [|y s]]; try discriminate.
    + exists [], c; simpl; auto.
    + destruct (x =? 10) eqn:E; [|discriminate].
      apply Z.eqb_eq in E; subst. exists [10], c; simpl; auto.
Qed.

Lemma rep_blind (g : bool) p lo hi k s c1 c2 :
  blind k ->
  (if g then rep_greedy p lo hi (fun s' => k s' c1) s
   else rep_lazy p lo hi (fun s' => k s' c1) s) = None ->
  (if g then rep_greedy p lo hi (fun s' => k s' c2) s
   else rep_lazy p lo hi (fun s' => k s' c2) s) = None.
Proof.
  intros Hk H.
  destruct (if g then rep_greedy p lo hi (fun s' => k s' c2) s
            else rep_lazy p lo hi (fun s' => k s' c2) s) eqn:E; [|reflexivity].
  exfalso.
  assert (exists xs rest, s = xs ++ rest /\ Forall (fun x => p x = true) xs /\
            rep_ok lo hi (length xs) /\ k rest c2 = Some p0) as (xs & rest & -> & Ha & Ho & Hr).
  { destruct g; [apply rep_greedy_sound in E | apply rep_lazy_sound in E]; exact E. }
  assert (Hne : k rest c1 <> None).
  { intro Hn. apply (Hk _ _ c2) in Hn. congruence. }
  destruct g;
    [apply (rep_greedy_complete p xs rest lo hi (fun s' => k s' c1)) in Hne
    |apply (rep_lazy_complete p xs rest lo hi (fun s' => k s' c1)) in Hne]; auto.
Qed.

(** Without back-references, whether a match exists does not depend on
    the groups collected so far. *)
Lemma rmatch_blind ic r : forall k, blind k -> blind (fun s c => rmatch ic r s c k).
Proof.
  induction r as [|a|g lo hi a|r1 IH1 r2 IH2|r1 IH1 r2 IH2|n r1 IH1|r1 IH1|];
    intros k Hk s c1 c2 H; simpl in *.
  - eauto.
  - destruct s as [|x s]; auto. destruct (atom_match ic a x); eauto.
  - destruct g; [apply (rep_blind true) with (c1 := c1) | apply (rep_blind false) with (c1 := c1)];
      auto.
  - revert H. apply (IH1 (fun s1 c => rmatch ic r2 s1 c k)). now apply IH2.
  - destruct (rmatch ic r1 s c1 k) eqn:E1; [discriminate|].
    rewrite (IH1 k Hk s c1 c2 E1). now apply (IH2 k Hk s c1 c2).
  - revert H. apply (IH1 (fun s1 c => k s1 ((n, consumed s s1) :: c))).
    intros t d1 d2. apply Hk.
  - destruct (rmatch ic r1 s c1 (fun s1 c => Some (s1, c))) as [[t1 d1]|] eqn:E1.
    + destruct (rmatch ic r1 s c2 (fun s1 c => Some (s1, c))) as [[t2 d2]|]; auto.
      now apply (Hk s d1 d2).
    + rewrite (IH1 (fun s1 c => Some (s1, c))) with (c1 := c1); auto.
      intros ? ? ? ?; discriminate.
  - destruct s as [|x [|y s]]; eauto. destruct (x =? 10); eauto.
Qed.

(** A declarative match whose continuation succeeds makes the matcher
    succeed (possibly on a match of higher priority). *)
Lemma rmatch_complete ic r : forall s c s' c' k,
  blind k -> matches ic r s c s' c' -> k s' c' <> None -> rmatch ic r s c k <> None.
Proof.
  induction r as [|a|g lo hi a|r1 IH1 r2 IH2|r1 IH1 r2 IH2|n r1 IH1|r1 IH1|];
    intros s c s' c' k Hb Hm Hk; simpl in *.
  - destruct Hm as [-> ->]; auto.
  - destruct Hm as (x & -> & Hx & ->). now rewrite Hx.
  - destruct Hm as (xs & -> & Hall & Hok & ->).
    destruct g; [apply rep_greedy_complete | apply rep_lazy_complete]; auto.
  - destruct Hm as (s1 & c1 & H1 & H2).
    apply (IH1 s c s1 c1); auto.
    + now apply rmatch_blind.
    + now apply (IH2 s1 c1 s' c').
  - destruct (rmatch ic r1 s c k) eqn:E; [discriminate|].
    destruct Hm as [Hm|Hm].
    + exfalso. revert E. now apply (IH1 s c s' c').
    + now apply (IH2 s c s' c').
  - destruct Hm as (c1 & H1 & ->).
    apply (IH1 s c s' c1); auto.
    intros t d1 d2. apply Hb.
  - destruct Hm as (-> & s1 & H1).
    destruct (rmatch ic r1 s c (fun s2 c2 => Some (s2, c2))) as [[t d]|] eqn:E.
    + intro Hn. apply (Hb s d c') in Hn. contradiction.
    + exfalso. revert E. apply (IH1 s c s1 c'); auto; try discriminate.
  - destruct Hm as (-> & -> & [->| ->]); auto.
Qed.

Lemma blind_final : blind (fun s c => Some (s, c)).
Proof. intros ? ? ? ?; discriminate. Qed.

Lemma match_here_sound ic r s rest c :
  match_here ic r s = Some (rest, c) -> matches ic r s [] rest c.
Proof.
  unfold match_here; intros H.
  apply rmatch_sound in H as (s' & c' & Hm & E). now injection E as -> ->.
Qed.

Lemma match_here_complete ic r s rest c :
  matches ic r s [] rest c -> match_here ic r s <> None.
Proof.
  intros Hm. apply (rmatch_complete ic r s [] rest c); auto using blind_final.
  discriminate.
Qed.

(** [re.search] returns the match at the leftmost position that has one. *)
Lemma search_from_some ic r : forall s pos p rest c,
  search_from ic r pos s = Some (p, rest, c) ->
  exists pre suf, s = pre ++ suf /\ p = (pos + length pre)%nat /\
    match_here ic r suf = Some (rest, c) /\
    forall pre' suf', s = pre' ++ suf' -> (length pre' < length pre)%nat ->
                      match_here ic r suf' = None.
Proof.
  induction s as [|x s IH]; intros pos p rest c H; simpl in H.
  - destruct (match_here ic r []) as [[t d]|] eqn:E; [|discriminate].
    injection H as <- <- <-. exists [], []; repeat split; auto.
    intros ? ? _ Hl; simpl in Hl; lia.
  - destruct (match_here ic r (x :: s)) as [[t d]|] eqn:E.
    + injection H as <- <- <-. exists [], (x :: s); repeat split; auto.
      intros ? ? _ Hl; simpl in Hl; lia.
    + apply IH in H as (pre & suf & -> & -> & Hm & Hleft).
      exists (x :: pre), suf; repeat split; auto; simpl; try lia.
      intros [|y pre'] suf' Heq Hl; simpl in *.
      * now subst suf'.
      * injection Heq as -> Heq. apply (Hleft pre' suf' Heq). lia.
Qed.

Lemma search_from_none ic r : forall s pos pre suf,
  search_from ic r pos s = None -> s = pre ++ suf -> match_here ic r suf = None.
Proof.
  induction s as [|x s IH]; intros pos pre suf H Heq; simpl in H.
  - destruct (match_here ic r []) as [[t d]|] eqn:E; [discriminate|].
    symmetry in Heq. apply app_eq_nil in Heq as [-> ->]. exact E.
  - destruct (match_here ic r (x :: s)) as [[t d]|] eqn:E; [discriminate|].
    destruct pre as [|y pre]; simpl in Heq.
    + now subst suf.
    + injection Heq as -> Heq. now apply (IH (S pos) pre suf).
Qed.

(** Skipping a prefix in which no match starts. *)
Lemma search_from_skip ic r : forall pre suf pos,
  (forall pre' suf', pre ++ suf = pre' ++ suf' -> (length pre' < length pre)%nat ->
                     match_here ic r suf' = None) ->
  search_from ic r pos (pre ++ suf) = search_from ic r (pos + length pre) suf.
Proof.
  induction pre as [|x pre IH]; intros suf pos H; simpl.
  - now rewrite Nat.add_0_r.
  - rewrite (H [] (x :: pre ++ suf)); [|reflexivity|simpl; lia].
    rewrite IH.
    + now replace (S pos + length pre)%nat with (pos + S (length pre))%nat by lia.
    + intros pre' suf' Heq Hl.
      apply (H (x :: pre') suf'); simpl; [now rewrite Heq | lia].
Qed.

End ReFacts.

(** * Facts about characters and lists *)

Module Chars.
Import Re Spec.

Lemma isspace_points x : Unicode.isspace x = true -> In x space_points.
Proof.
  unfold Unicode.isspace; intros H.
  repeat (apply orb_prop in H as [H|H]);
    repeat match goal with
           | H : _ && _ = true |- _ => apply andb_prop in H as [? ?]
           | H : (_ <=? _) = true |- _ => apply Z.leb_le in H
           | H : (_ =? _) = true |- _ => apply Z.eqb_eq in H
           end;
    unfold space_points; simpl;
    try (assert (x = 9 \/ x = 10 \/ x = 11 \/ x = 12 \/ x = 13) by lia);
    try (assert (x = 28 \/ x = 29 \/ x = 30 \/ x = 31 \/ x = 32) by lia);
    try (assert (x = 8192 \/ x = 8193 \/ x = 8194 \/ x = 8195 \/ x = 8196 \/ x = 8197 \/
                 x = 8198 \/ x = 8199 \/ x = 8200 \/ x = 8201 \/ x = 8202) by lia);
    intuition auto.
Qed.

(** No decimal digit is white space. *)
Lemma decimal_not_space x : Unicode.isdecimal x = true -> Unicode.isspace x = false.
Proof.
  intros Hd. destruct (Unicode.isspace x) eqn:Hs; [|reflexivity].
  apply isspace_points in Hs.
  assert (Hall : forallb (fun y => negb (Unicode.isdecimal y)) space_points = true)
    by (vm_compute; reflexivity).
  rewrite forallb_forall in Hall. apply Hall in Hs. now rewrite Hd in Hs.
Qed.

Lemma ponto_not_space x : is_ponto x -> Unicode.isspace x = false.
Proof. intros [->| ->]; reflexivity. Qed.

Lemma ponto_not_decimal x : is_ponto x -> Unicode.isdecimal x = false.
Proof. intros [->| ->]; vm_compute; reflexivity. Qed.

Lemma atom_lit c x : atom_match false (ALit c) x = (x =? c).
Proof. reflexivity. Qed.

Lemma atom_space x : atom_match false space x = Unicode.isspace x.
Proof. unfold atom_match, space, set_match; simpl. now rewrite orb_false_r. Qed.

Lemma atom_digit x : atom_match false digit x = Unicode.isdecimal x.
Proof. unfold atom_match, digit, set_match; simpl. now rewrite orb_false_r. Qed.

Lemma atom_ponto x : atom_match false Extract.ponto x = true <-> is_ponto x.
Proof.
  unfold atom_match, Extract.ponto, oneof, set_match, is_ponto; simpl.
  rewrite orb_false_r, orb_true_iff, !Z.eqb_eq. reflexivity.
Qed.

Lemma consumed_app (xs rest : pystr) : consumed (xs ++ rest) rest = xs.
Proof.
  unfold consumed. rewrite length_app.
  replace (length xs + length rest - length rest)%nat with (length xs) by lia.
  rewrite firstn_app, Nat.sub_diag, firstn_all. simpl. apply app_nil_r.
Qed.

(** Two ways of cutting a text after a run of [p]-characters agree. *)
Lemma span_unique (p : Z -> bool) : forall xs ys a b r1 r2,
  Forall (fun x => p x = true) xs -> Forall (fun x => p x = true) ys ->
  p a = false -> p b = false ->
  xs ++ a :: r1 = ys ++ b :: r2 -> xs = ys /\ a = b /\ r1 = r2.
Proof.
  induction xs as [|x xs IH]; intros [|y ys] a b r1 r2 Hx Hy Ha Hb E; simpl in E.
  - injection E as -> ->; auto.
  - injection E as -> _. inversion Hy; congruence.
  - injection E as <- _. inversion Hx; congruence.
  - injection E as -> E. inversion Hx; inversion Hy; subst.
    destruct (IH ys a b r1 r2) as (-> & -> & ->); auto.
Qed.

Lemma same_length_app {A} : forall (xs ys r1 r2 : list A),
  length xs = length ys -> xs ++ r1 = ys ++ r2 -> xs = ys /\ r1 = r2.
Proof.
  induction xs as [|x xs IH]; intros [|y ys] r1 r2 Hl E; simpl in *; try discriminate; auto.
  injection E as -> E. injection Hl as Hl.
  destruct (IH ys r1 r2 Hl E) as [-> ->]; auto.
Qed.

Lemma barra_not_decimal : Unicode.isdecimal (ord "/") = false.
Proof. vm_compute; reflexivity. Qed.

Lemma date_head d : is_date d -> exists x t, d = x :: t /\ Unicode.isdecimal x = true.
Proof.
  intros (dd & mm & yy & -> & Hd & _ & _ & Hl & _).
  destruct dd as [|x dd]; [simpl in Hl; lia|].
  exists x, (dd ++ ord "/" :: mm ++ ord "/" :: yy). split; auto.
  now inversion Hd.
Qed.

Lemma date_nonempty d : is_date d -> d <> [].
Proof. intros H E. apply date_head in H as (x & t & H & _). congruence. Qed.

(** A date at the head of a text is determined by the text. *)
Lemma date_unique d d' r r' :
  is_date d -> is_date d' -> d ++ r = d' ++ r' -> d = d' /\ r = r'.
Proof.
  intros (dd & mm & yy & -> & Hd & Hm & Hy & _ & _ & Hl)
         (dd' & mm' & yy' & -> & Hd' & Hm' & Hy' & _ & _ & Hl') E.
  repeat (rewrite <- app_assoc in E; simpl in E).
  apply (span_unique Unicode.isdecimal) in E as (-> & _ & E);
    auto using barra_not_decimal.
  apply (span_unique Unicode.isdecimal) in E as (-> & _ & E);
    auto using barra_not_decimal.
  apply same_length_app in E as [-> ->]; [auto | congruence].
Qed.

(** The same after a run of white space. *)
Lemma spaces_date_unique ws ws' d d' r r' :
  spaces ws -> spaces ws' -> is_date d -> is_date d' ->
  ws ++ d ++ r = ws' ++ d' ++ r' -> ws = ws' /\ d = d' /\ r = r'.
Proof.
  intros Hw Hw' Hd Hd' E.
  destruct (date_head d Hd) as (x & t & Ex & Hx).
  destruct (date_head d' Hd') as (x' & t' & Ex' & Hx').
  assert (E2 : ws ++ x :: (t ++ r) = ws' ++ x' :: (t' ++ r')).
  { rewrite Ex, Ex' in E. exact E. }
  apply (span_unique Unicode.isspace) in E2 as (-> & _ & _);
    auto using decimal_not_space.
  apply app_inv_head in E.
  destruct (date_unique d d' r r' Hd Hd' E) as [-> ->]; auto.
Qed.

End Chars.

(** * The date patterns *)

Module DateFacts.
Import Re Spec ReFacts Chars Extract.

Lemma all_space xs : Forall (fun x => atom_match false space x = true) xs <-> spaces xs.
Proof. unfold spaces; split; apply Forall_impl; intros x; now rewrite atom_space. Qed.

Lemma all_digit xs : Forall (fun x => atom_match false digit x = true) xs <-> digits xs.
Proof. unfold digits; split; apply Forall_impl; intros x; now rewrite atom_digit. Qed.

Lemma m_str w : forall s c s' c',
  matches false (str w) s c s' c' <-> s = lit w ++ s' /\ c' = c.
Proof.
  induction w as [|a w IH]; intros s c s' c'.
  - simpl. intuition auto.
  - change (str (String a w)) with (RCat (RAtom (ALit (ord a))) (str w)).
    change (lit (String a w)) with (ord a :: lit w).
    cbn [matches]. split.
    + intros (s1 & c1 & (x & -> & Hx & ->) & H).
      rewrite atom_lit in Hx. apply Z.eqb_eq in Hx. subst x.
      apply IH in H as [-> ->]. auto.
    + intros [-> ->]. exists (lit w ++ s'), c. split.
      * exists (ord a). rewrite atom_lit, Z.eqb_refl. auto.
      * apply IH. auto.
Qed.

Lemma m_star_space s c s' c' :
  matches false (star space) s c s' c' <-> exists ws, s = ws ++ s' /\ spaces ws /\ c' = c.
Proof.
  unfold star; cbn [matches]. split.
  - intros (ws & -> & H & _ & ->). exists ws. rewrite <- all_space. auto.
  - intros (ws & -> & H & ->). exists ws. rewrite all_space.
    repeat split; auto. lia.
Qed.

Lemma m_ponto s c s' c' :
  matches false (RAtom ponto) s c s' c' <-> exists x, s = x :: s' /\ is_ponto x /\ c' = c.
Proof.
  cbn [matches]. split; intros (x & -> & H & ->); exists x;
    [rewrite <- atom_ponto | rewrite atom_ponto]; auto.
Qed.

Lemma m_date s c s' c' :
  matches false date s c s' c' <-> exists d, s = d ++ s' /\ is_date d /\ c' = c.
Proof.
  unfold date, between; cbn [matches seqs fold_right]. split.
  - intros (s1 & c1 & (dd & -> & Hdd & [? ?] & ->) &
            s2 & c2 & (x & -> & Hx & ->) &
            s3 & c3 & (mm & -> & Hmm & [? ?] & ->) &
            s4 & c4 & (y & -> & Hy & ->) &
            s5 & c5 & (yy & -> & Hyy & [? ?] & ->) & -> & ->).
    rewrite atom_lit in Hx, Hy. apply Z.eqb_eq in Hx, Hy. subst x y.
    apply all_digit in Hdd, Hmm, Hyy.
    exists (dd ++ ord "/" :: mm ++ ord "/" :: yy). split.
    + now repeat (rewrite <- app_assoc; simpl).
    + split; auto. exists dd, mm, yy. repeat split; auto; lia.
  - intros (d & -> & (dd & mm & yy & -> & Hdd & Hmm & Hyy & ? & ? & ?) & ->).
    apply all_digit in Hdd, Hmm, Hyy.
    exists (ord "/" :: mm ++ ord "/" :: yy ++ s'), c. split.
    { exists dd. repeat split; auto; try lia. now repeat (rewrite <- app_assoc; simpl). }
    exists (mm ++ ord "/" :: yy ++ s'), c. split.
    { exists (ord "/"). rewrite atom_lit, Z.eqb_refl. auto. }
    exists (ord "/" :: yy ++ s'), c. split.
    { exists mm. repeat split; auto; lia. }
    exists (yy ++ s'), c. split.
    { exists (ord "/"). rewrite atom_lit, Z.eqb_refl. auto. }
    exists s', c. split; auto.
    exists yy. repeat split; auto; lia.
Qed.

Lemma m_group_date n s c s' c' :
  matches false (RGroup n date) s c s' c' <->
  exists d, s = d ++ s' /\ is_date d /\ c' = (n, d) :: c.
Proof.
  cbn [matches]. split.
  - intros (c1 & H & ->). apply m_date in H as (d & -> & Hd & ->).
    exists d. now rewrite consumed_app.
  - intros (d & -> & Hd & ->). exists c. rewrite consumed_app. split; auto.
    apply m_date. exists d; auto.
Qed.

Lemma m_conn s c s' c' :
  matches false (RAtom (oneof [SChar (ord "a"); SChar (ord "A"); SChar 224])) s c s' c' <->
  exists x, s = x :: s' /\ (x = ord "a" \/ x = ord "A" \/ x = 224) /\ c' = c.
Proof.
  cbn [matches]. unfold atom_match, oneof, set_match; simpl.
  split; intros (x & -> & H & ->); exists x; repeat split; auto.
  - rewrite orb_false_r, !orb_true_iff, !Z.eqb_eq in H. exact H.
  - rewrite orb_false_r, !orb_true_iff, !Z.eqb_eq. exact H.
Qed.

Lemma m_opt_dot s c s' c' :
  matches false (opt (ALit (ord "."))) s c s' c' <->
  exists dot, s = dot ++ s' /\ (dot = [] \/ dot = [ord "."]) /\ c' = c.
Proof.
  unfold opt; cbn [matches]. split.
  - intros (xs & -> & H & [_ Hl] & ->). exists xs. repeat split; auto.
    destruct xs as [|x [|y xs]]; auto; [|simpl in Hl; lia].
    inversion H as [|? ? Hx _]; subst. rewrite atom_lit in Hx.
    apply Z.eqb_eq in Hx. subst; auto.
  - intros (dot & -> & [->| ->] & ->).
    + exists []. repeat split; auto; simpl; lia.
    + exists [ord "."]. repeat split; auto; simpl; lia.
Qed.

(** What the three patterns of [extract_due_date] accept. *)
Lemma principal_complete s d :
  range_here s d -> exists s' c', matches false padrao_principal s [] s' c'.
Proof.
  unfold padrao_principal; cbn [matches seqs fold_right].
  intros (ws1 & sep & ws2 & d1 & ws3 & conn & ws4 & rest & -> & H1 & Hs & H2 & Hd1 &
          H3 & Hc & H4 & Hd).
  exists rest, [(1%nat, d)].
  eexists _, []. split. { apply m_str. split; reflexivity. }
  eexists _, []. split. { apply m_star_space. exists ws1. repeat split; auto. }
  eexists _, []. split. { apply m_ponto. exists sep. repeat split; auto. }
  eexists _, []. split. { apply m_star_space. exists ws2. repeat split; auto. }
  eexists _, []. split. { apply m_date. exists d1. repeat split; auto. }
  eexists _, []. split. { apply m_star_space. exists ws3. repeat split; auto. }
  eexists _, []. split. { apply m_conn. exists conn. repeat split; auto. }
  eexists _, []. split. { apply m_star_space. exists ws4. repeat split; auto. }
  eexists _, _. split. { apply m_group_date. exists d. repeat split; auto. }
  split; reflexivity.
Qed.

Lemma principal_sound s s' c' :
  matches false padrao_principal s [] s' c' ->
  exists d, group 1 c' = Some d /\ range_here s d.
Proof.
  unfold padrao_principal; cbn [matches seqs fold_right].
  intros (s1 & c1 & M1 & s2 & c2 & M2 & s3 & c3 & M3 & s4 & c4 & M4 &
          s5 & c5 & M5 & s6 & c6 & M6 & s7 & c7 & M7 & s8 & c8 & M8 &
          s9 & c9 & M9 & -> & ->).
  apply m_str in M1 as [-> ->].
  apply m_star_space in M2 as (ws1 & -> & H1 & ->).
  apply m_ponto in M3 as (sep & -> & Hs & ->).
  apply m_star_space in M4 as (ws2 & -> & H2 & ->).
  apply m_date in M5 as (d1 & -> & Hd1 & ->).
  apply m_star_space in M6 as (ws3 & -> & H3 & ->).
  apply m_conn in M7 as (conn & -> & Hc & ->).
  apply m_star_space in M8 as (ws4 & -> & H4 & ->).
  apply m_group_date in M9 as (d2 & -> & Hd & ->).
  exists d2. split; [reflexivity|].
  exists ws1, sep, ws2, d1, ws3, conn, ws4, s9. repeat split; auto.
Qed.

Lemma vencimento_complete s d :
  vencimento_here s d -> exists s' c', matches false padrao_vencimento s [] s' c'.
Proof.
  unfold padrao_vencimento; cbn [matches seqs fold_right].
  intros (ws1 & sep & ws2 & rest & -> & H1 & Hs & H2 & Hd).
  exists rest, [(1%nat, d)].
  eexists _, []. split. { apply m_str. split; reflexivity. }
  eexists _, []. split. { apply m_star_space. exists ws1. repeat split; auto. }
  eexists _, []. split. { apply m_ponto. exists sep. repeat split; auto. }
  eexists _, []. split. { apply m_star_space. exists ws2. repeat split; auto. }
  eexists _, _. split. { apply m_group_date. exists d. repeat split; auto. }
  split; reflexivity.
Qed.

Lemma vencimento_sound s s' c' :
  matches false padrao_vencimento s [] s' c' ->
  exists d, group 1 c' = Some d /\ vencimento_here s d.
Proof.
  unfold padrao_vencimento; cbn [matches seqs fold_right].
  intros (s1 & c1 & M1 & s2 & c2 & M2 & s3 & c3 & M3 & s4 & c4 & M4 &
          s5 & c5 & M5 & -> & ->).
  apply m_str in M1 as [-> ->].
  apply m_star_space in M2 as (ws1 & -> & H1 & ->).
  apply m_ponto in M3 as (sep & -> & Hs & ->).
  apply m_star_space in M4 as (ws2 & -> & H2 & ->).
  apply m_group_date in M5 as (d2 & -> & Hd & ->).
  exists d2. split; [reflexivity|].
  exists ws1, sep, ws2, s5. repeat split; auto.
Qed.

Lemma venc_complete s d :
  venc_here s d -> exists s' c', matches false padrao_venc s [] s' c'.
Proof.
  unfold padrao_venc; cbn [matches seqs fold_right].
  intros (dot & ws1 & sep & ws2 & rest & -> & Hdot & H1 & Hs & H2 & Hd).
  exists rest, [(1%nat, d)].
  eexists _, []. split. { apply m_str. split; reflexivity. }
  eexists _, []. split. { apply m_opt_dot. exists dot. repeat split; auto. }
  eexists _, []. split. { apply m_star_space. exists ws1. repeat split; auto. }
  eexists _, []. split. { apply m_ponto. exists sep. repeat split; auto. }
  eexists _, []. split. { apply m_star_space. exists ws2. repeat split; auto. }
  eexists _, _. split. { apply m_group_date. exists d. repeat split; auto. }
  split; reflexivity.
Qed.

Lemma venc_sound s s' c' :
  matches false padrao_venc s [] s' c' ->
  exists d, group 1 c' = Some d /\ venc_here s d.
Proof.
  unfold padrao_venc; cbn [matches seqs fold_right].
  intros (s1 & c1 & M1 & s2 & c2 & M2 & s3 & c3 & M3 & s4 & c4 & M4 &
          s5 & c5 & M5 & s6 & c6 & M6 & -> & ->).
  apply m_str in M1 as [-> ->].
  apply m_opt_dot in M2 as (dot & -> & Hdot & ->).
  apply m_star_space in M3 as (ws1 & -> & H1 & ->).
  apply m_ponto in M4 as (sep & -> & Hs & ->).
  apply m_star_space in M5 as (ws2 & -> & H2 & ->).
  apply m_group_date in M6 as (d2 & -> & Hd & ->).
  exists d2. split; [reflexivity|].
  exists dot, ws1, sep, ws2, s6. repeat split; auto.
Qed.

(** Each form determines its date. *)
Lemma conn_not_space x :
  x = ord "a" \/ x = ord "A" \/ x = 224 -> Unicode.isspace x = false.
Proof. intros [->|[->| ->]]; reflexivity. Qed.

Lemma range_unique s d d' : range_here s d -> range_here s d' -> d = d'.
Proof.
  intros (ws1 & sep & ws2 & d1 & ws3 & conn & ws4 & rest & -> & H1 & Hs & H2 & Hd1 &
          H3 & Hc & H4 & Hd)
         (ws1' & sep' & ws2' & d1' & ws3' & conn' & ws4' & rest' & E & H1' & Hs' & H2' &
          Hd1' & H3' & Hc' & H4' & Hd').
  apply app_inv_head in E.
  apply (span_unique Unicode.isspace) in E as (_ & _ & E); auto using ponto_not_space.
  apply spaces_date_unique in E as (_ & _ & E); auto.
  apply (span_unique Unicode.isspace) in E as (_ & _ & E); auto using conn_not_space.
  apply spaces_date_unique in E as (_ & E & _); auto.
Qed.

Lemma vencimento_unique s d d' : vencimento_here s d -> vencimento_here s d' -> d = d'.
Proof.
  intros (ws1 & sep & ws2 & rest & -> & H1 & Hs & H2 & Hd)
         (ws1' & sep' & ws2' & rest' & E & H1' & Hs' & H2' & Hd').
  apply app_inv_head in E.
  apply (span_unique Unicode.isspace) in E as (_ & _ & E); auto using ponto_not_space.
  apply spaces_date_unique in E as (_ & E & _); auto.
Qed.

(** After ["Venc"], a dot read as the optional dot cannot also be read
    as the separator of another decomposition. *)
Lemma venc_dot_clash ws1 sep ws2 d rest ws1' sep' ws2' d' rest' :
  spaces ws1 -> is_ponto sep -> spaces ws1' -> is_ponto sep' -> spaces ws2' -> is_date d' ->
  ord "." :: ws1 ++ sep :: ws2 ++ d ++ rest = ws1' ++ sep' :: ws2' ++ d' ++ rest' -> False.
Proof.
  intros H1 Hs H1' Hs' H2' Hd' E.
  destruct ws1' as [|x ws1'].
  - simpl in E. injection E as _ E.
    destruct (date_head d' Hd') as (y & t & -> & Hy).
    change (ws1 ++ sep :: ws2 ++ d ++ rest = ws2' ++ y :: (t ++ rest')) in E.
    apply (span_unique Unicode.isspace) in E as (_ & E & _);
      auto using ponto_not_space, decimal_not_space.
    subst y. apply ponto_not_decimal in Hs. congruence.
  - simpl in E. injection E as <- _. inversion H1'; subst. discriminate.
Qed.

Lemma venc_unique s d d' : venc_here s d -> venc_here s d' -> d = d'.
Proof.
  intros (dot & ws1 & sep & ws2 & rest & -> & Hdot & H1 & Hs & H2 & Hd)
         (dot' & ws1' & sep' & ws2' & rest' & E & Hdot' & H1' & Hs' & H2' & Hd').
  apply app_inv_head in E.
  destruct Hdot as [->| ->], Hdot' as [->| ->]; simpl in E.
  - apply (span_unique Unicode.isspace) in E as (_ & _ & E); auto using ponto_not_space.
    apply spaces_date_unique in E as (_ & E & _); auto.
  - symmetry in E. exfalso. revert E. now apply venc_dot_clash.
  - exfalso. revert E. now apply venc_dot_clash.
  - injection E as E.
    apply (span_unique Unicode.isspace) in E as (_ & _ & E); auto using ponto_not_space.
    apply spaces_date_unique in E as (_ & E & _); auto.
Qed.

(** ** Searching for a pattern with a declarative form *)

Section Pattern.
Variable r : regex.
Variable P : pystr -> pystr -> Prop.
Hypothesis P_complete : forall s d, P s d -> exists s' c', matches false r s [] s' c'.
Hypothesis P_sound : forall s s' c', matches false r s [] s' c' ->
                                     exists d, group 1 c' = Some d /\ P s d.
Hypothesis P_unique : forall s d d', P s d -> P s d' -> d = d'.

Lemma here_inv s rest c :
  match_here false r s = Some (rest, c) -> exists d, group 1 c = Some d /\ P s d.
Proof. intros H. apply match_here_sound in H. now apply P_sound in H. Qed.

Lemma here_some s d :
  P s d -> exists rest c, match_here false r s = Some (rest, c) /\ group 1 c = Some d.
Proof.
  intros H. destruct (P_complete s d H) as (s' & c' & Hm).
  apply match_here_complete in Hm.
  destruct (match_here false r s) as [[rest c]|] eqn:E; [|contradiction].
  exists rest, c. split; auto.
  destruct (here_inv s rest c E) as (d' & Hg & Hd').
  now rewrite (P_unique s d d' H Hd').
Qed.

Lemma here_none s : (forall d, ~ P s d) -> match_here false r s = None.
Proof.
  intros H. destruct (match_here false r s) as [[rest c]|] eqn:E; [|reflexivity].
  destruct (here_inv s rest c E) as (d & _ & Hd). now apply H in Hd.
Qed.

Lemma search_leftmost texto d :
  leftmost P texto d ->
  exists p rest c, search false r texto = Some (p, rest, c) /\ group 1 c = Some d.
Proof.
  intros (pre & suf & -> & Hd & Hleft).
  unfold search. rewrite search_from_skip.
  - destruct (here_some suf d Hd) as (rest & c & E & Hg).
    exists (0 + length pre)%nat, rest, c. split; auto.
    destruct suf; simpl; now rewrite E.
  - intros pre' suf' Heq Hl. apply here_none. intros d'. now apply (Hleft pre' suf' d').
Qed.

Lemma search_nowhere texto : nowhere P texto -> search false r texto = None.
Proof.
  intros H. destruct (search false r texto) as [[[p rest] c]|] eqn:E; [|reflexivity].
  apply search_from_some in E as (pre & suf & -> & _ & E & _).
  destruct (here_inv suf rest c E) as (d & _ & Hd).
  exfalso. now apply (H pre suf d).
Qed.

Lemma search_none_nowhere texto : search false r texto = None -> nowhere P texto.
Proof.
  intros H pre suf d -> Hd.
  destruct (here_some suf d Hd) as (rest & c & E & _).
  rewrite (search_from_none false r _ 0%nat pre suf H eq_refl) in E. discriminate.
Qed.

End Pattern.

End DateFacts.

(** * The due-date extractor *)

Module DueDate.
Import Re Spec ReFacts Chars Extract DateFacts.

Lemma leftmost_truthy P texto d :
  (forall s e, P s e -> s <> []) -> leftmost P texto d -> truthy texto = true.
Proof.
  intros HP (pre & suf & -> & Hd & _). apply HP in Hd.
  destruct pre; [destruct suf; [contradiction|reflexivity]|reflexivity].
Qed.

Lemma range_nonempty s d : range_here s d -> s <> [].
Proof. intros (? & ? & ? & ? & ? & ? & ? & ? & -> & _); discriminate. Qed.

Lemma vencimento_nonempty s d : vencimento_here s d -> s <> [].
Proof. intros (? & ? & ? & ? & -> & _); discriminate. Qed.

Lemma venc_nonempty s d : venc_here s d -> s <> [].
Proof. intros (? & ? & ? & ? & ? & -> & _); discriminate. Qed.

Lemma principal_found texto d :
  leftmost range_here texto d -> extract_due_date texto = Some d.
Proof.
  intros H. unfold extract_due_date.
  rewrite (leftmost_truthy _ _ _ range_nonempty H).
  destruct (search_leftmost padrao_principal range_here principal_complete principal_sound
              range_unique texto d H) as (p & rest & c & -> & Hg).
  exact Hg.
Qed.

Lemma principal_absent texto :
  nowhere range_here texto -> search false padrao_principal texto = None.
Proof. apply (search_nowhere padrao_principal range_here principal_sound). Qed.

Lemma computed_nowhere_range texto :
  search false padrao_principal texto = None -> nowhere range_here texto.
Proof.
  apply (search_none_nowhere padrao_principal range_here principal_complete principal_sound
           range_unique).
Qed.

Lemma computed_nowhere_vencimento texto :
  search false padrao_vencimento texto = None -> nowhere vencimento_here texto.
Proof.
  apply (search_none_nowhere padrao_vencimento vencimento_here vencimento_complete
           vencimento_sound vencimento_unique).
Qed.

Lemma computed_nowhere_venc texto :
  search false padrao_venc texto = None -> nowhere venc_here texto.
Proof.
  apply (search_none_nowhere padrao_venc venc_here venc_complete venc_sound venc_unique).
Qed.

Lemma is_date_lit dd mm yyyy :
  digits dd -> digits mm -> digits yyyy ->
  (1 <= length dd <= 2)%nat -> (1 <= length mm <= 2)%nat -> length yyyy = 4%nat ->
  is_date (dd ++ ord "/" :: mm ++ ord "/" :: yyyy).
Proof. intros; exists dd, mm, yyyy; auto 10. Qed.

Ltac all_true := repeat constructor.

Lemma exemplo_data_range post :
  range_here (exemplo_data ++ post) (lit "15/02/2024").
Proof.
  exists [], (ord ":"), [32], (lit "01/01/2024"), [32], (ord "a"), [32], post.
  split; [reflexivity|].
  split; [constructor|]. split; [right; reflexivity|].
  split; [all_true|].
  split; [apply (is_date_lit (lit "01") (lit "01") (lit "2024")); simpl; try lia; all_true|].
  split; [all_true|]. split; [left; reflexivity|]. split; [all_true|].
  apply (is_date_lit (lit "15") (lit "02") (lit "2024")); simpl; try lia; all_true.
Qed.

(** C1 (as amended).  The due-date extractor returns the second date of
    the leftmost validity range ["Data" sep date a|A|à date] of the text;
    in particular it returns ["15/02/2024"] on every text that contains
    ["Data: 01/01/2024 a 15/02/2024"] with no range starting before it. *)
Theorem due_date_is_end_of_leftmost_range :
  (forall texto d, leftmost range_here texto d -> extract_due_date texto = Some d) /\
  (forall pre post,
     (forall pre' suf' d', pre ++ exemplo_data ++ post = pre' ++ suf' ->
                           (length pre' < length pre)%nat -> ~ range_here suf' d') ->
     extract_due_date (pre ++ exemplo_data ++ post) = Some (lit "15/02/2024")).
Proof.
  split.
  - exact principal_found.
  - intros pre post H. apply principal_found.
    exists pre, (exemplo_data ++ post). split; [reflexivity|].
    split; [apply exemplo_data_range | exact H].
Qed.

Lemma range_head s d : range_here s d -> exists t, s = ord "D" :: t.
Proof. intros (? & ? & ? & ? & ? & ? & ? & ? & -> & _). eexists; reflexivity. Qed.

Lemma due_date_is_end_of_leftmost_range_witness :
  extract_due_date (lit "Vale 123456 " ++ exemplo_data ++ lit " Fim") = Some (lit "15/02/2024").
Proof.
  apply (proj2 due_date_is_end_of_leftmost_range (lit "Vale 123456 ") (lit " Fim")).
  intros pre' suf' d' E Hl Hr.
  apply range_head in Hr as (t & ->).
  do 12 (destruct pre' as [|? pre']; [vm_compute in E; discriminate E|]).
  simpl in Hl. lia.
Defined.

(** C1 (as stated) fails: a text may contain the sample range after an
    earlier one, and the extractor then reports the earlier range. *)
Lemma due_date_containing_counterexample :
  (exists pre post, duas_faixas = pre ++ exemplo_data ++ post) /\
  extract_due_date duas_faixas = Some (lit "04/04/2023") /\
  extract_due_date duas_faixas <> Some (lit "15/02/2024").
Proof.
  split; [|split].
  - exists (lit "Data: 03/03/2023 a 04/04/2023 "), []. reflexivity.
  - vm_compute. reflexivity.
  - vm_compute. discriminate.
Qed.

Lemma fallback_vencimento texto d :
  nowhere range_here texto -> leftmost vencimento_here texto d ->
  extract_due_date texto = Some d.
Proof.
  intros Hn H. unfold extract_due_date.
  rewrite (leftmost_truthy _ _ _ vencimento_nonempty H).
  rewrite (principal_absent texto Hn). simpl.
  destruct (search_leftmost padrao_vencimento vencimento_here vencimento_complete
              vencimento_sound vencimento_unique texto d H) as (p & rest & c & -> & Hg).
  exact Hg.
Qed.

Lemma fallback_venc texto d :
  nowhere range_here texto -> nowhere vencimento_here texto -> leftmost venc_here texto d ->
  extract_due_date texto = Some d.
Proof.
  intros Hn Hv H. unfold extract_due_date.
  rewrite (leftmost_truthy _ _ _ venc_nonempty H).
  rewrite (principal_absent texto Hn). simpl.
  rewrite (search_nowhere padrao_vencimento vencimento_here vencimento_sound texto Hv).
  destruct (search_leftmost padrao_venc venc_here venc_complete venc_sound venc_unique
              texto d H) as (p & rest & c & -> & Hg).
  exact Hg.
Qed.

Lemma fallback_none texto :
  nowhere range_here texto -> nowhere vencimento_here texto -> nowhere venc_here texto ->
  extract_due_date texto = None.
Proof.
  intros Hn Hv Hc. unfold extract_due_date.
  destruct (truthy texto); [|reflexivity].
  rewrite (principal_absent texto Hn). simpl.
  rewrite (search_nowhere padrao_vencimento vencimento_here vencimento_sound texto Hv).
  now rewrite (search_nowhere padrao_venc venc_here venc_sound texto Hc).
Qed.

(** C6 (as amended).  On a text without a validity range the extractor
    returns the date of the leftmost ["Vencimento" sep date]; when there is
    none, the date of the leftmost ["Venc" sep date] or ["Venc." sep date];
    when there is none either, nothing.  Here [sep] is a mandatory ['.'] or
    [':'] with optional white space on both sides. *)
Theorem fallback_needs_separator : forall texto,
  nowhere range_here texto ->
  (forall d, leftmost vencimento_here texto d -> extract_due_date texto = Some d) /\
  (nowhere vencimento_here texto ->
   forall d, leftmost venc_here texto d -> extract_due_date texto = Some d) /\
  (nowhere vencimento_here texto -> nowhere venc_here texto ->
   extract_due_date texto = None).
Proof.
  intros texto Hn. repeat split.
  - intros d. now apply fallback_vencimento.
  - intros Hv d. now apply fallback_venc.
  - now apply fallback_none.
Qed.

Lemma fallback_needs_separator_witness :
  extract_due_date (lit "Venc. 15/02/2024") = Some (lit "15/02/2024").
Proof.
  assert (Hn : nowhere range_here (lit "Venc. 15/02/2024"))
    by (apply computed_nowhere_range; vm_compute; reflexivity).
  apply (proj1 (proj2 (fallback_needs_separator (lit "Venc. 15/02/2024") Hn))).
  - apply computed_nowhere_vencimento; vm_compute; reflexivity.
  - exists [], (lit "Venc. 15/02/2024"). split; [reflexivity|]. split.
    + exists [], [], (ord "."), [32], []. split; [reflexivity|].
      split; [left; reflexivity|]. split; [constructor|]. split; [left; reflexivity|].
      split; [all_true|].
      apply (is_date_lit (lit "15") (lit "02") (lit "2024")); simpl; try lia; all_true.
    + intros pre' suf' d' _ Hl. simpl in Hl. lia.
Defined.

(** C6 (as stated) fails: the keyword followed by the date, with or
    without a blank but without ['.'] or [':'], yields nothing. *)
Lemma fallback_keyword_date_counterexample :
  nowhere range_here (lit "Vencimento 15/02/2024") /\
  keyword_then_date (lit "Vencimento") (lit "Vencimento 15/02/2024") (lit "15/02/2024") /\
  extract_due_date (lit "Vencimento 15/02/2024") = None /\
  nowhere range_here (lit "Vencimento15/02/2024") /\
  keyword_then_date (lit "Vencimento") (lit "Vencimento15/02/2024") (lit "15/02/2024") /\
  extract_due_date (lit "Vencimento15/02/2024") = None.
Proof.
  assert (Hd : is_date (lit "15/02/2024"))
    by (apply (is_date_lit (lit "15") (lit "02") (lit "2024")); simpl; try lia; all_true).
  split; [apply computed_nowhere_range; vm_compute; reflexivity|].
  split; [exists [32], []; split; [reflexivity|]; split; [all_true | exact Hd]|].
  split; [vm_compute; reflexivity|].
  split; [apply computed_nowhere_range; vm_compute; reflexivity|].
  split; [exists [], []; split; [reflexivity|]; split; [constructor | exact Hd]|].
  vm_compute; reflexivity.
Qed.

End DueDate.

(** * The voucher-number extractor and the minimum-digit filter *)

Module Voucher.
Import Re Spec ReFacts Chars Extract App.

Lemma sub_delete_digits s : digits (sub_delete false nao_numerico s).
Proof.
  unfold digits, sub_delete. apply Forall_forall. intros x Hx.
  apply filter_In in Hx as [_ Hx].
  unfold atom_match, nao_numerico, set_match in Hx; simpl in Hx.
  rewrite orb_false_r in Hx. now destruct (Unicode.isdecimal x).
Qed.

Lemma vale_loop_floor ps : forall texto v,
  vale_loop ps texto = Some v -> digits v /\ 5 <= len v.
Proof.
  induction ps as [|p ps IH]; intros texto v H; simpl in H; [discriminate|].
  destruct (search true p texto) as [[[pos rest] c]|]; [|now apply IH in H].
  destruct (group 1 c) as [numero|]; [|now apply IH in H].
  destruct (len (sub_delete false nao_numerico numero) >=? 5) eqn:E; [|now apply IH in H].
  injection H as <-. split; [apply sub_delete_digits|].
  apply Z.geb_le in E. lia.
Qed.

Lemma vale_floor texto v :
  extract_vale_number texto = Some v -> digits v /\ 5 <= len v.
Proof.
  unfold extract_vale_number. destruct (truthy texto); [|discriminate].
  apply vale_loop_floor.
Qed.

Lemma long_truthy v : 5 <= len v -> truthy v = true.
Proof. destruct v; [unfold len; simpl; lia | reflexivity]. Qed.

Lemma filtro_keeps minimo o v :
  filtro_minimo minimo o = Some v -> o = Some v /\ (truthy v = true -> minimo <= len v).
Proof.
  unfold filtro_minimo. destruct o as [w|]; [|discriminate].
  destruct (truthy w && (len w <? minimo)) eqn:E; [discriminate|].
  intros H; injection H as <-. split; auto. intros Ht. rewrite Ht in E. simpl in E.
  apply Z.ltb_ge in E. exact E.
Qed.


Lemma ou_some v d : truthy v = true -> ou (Some v) d = v.
Proof. unfold ou. now intros ->. Qed.

(** C2.  A voucher candidate, when the extractor returns one, is made of
    decimal digits only and has at least five of them; a candidate that
    survives the minimum-digit filter has, moreover, at least the
    configured number of digits, and so has the voucher field of a record
    unless it reads "Não encontrado". *)
Theorem voucher_digits_floor_and_minimum : forall texto minimo_digitos v,
  (extract_vale_number texto = Some v -> digits v /\ 5 <= len v) /\
  (filtro_minimo minimo_digitos (extract_vale_number texto) = Some v ->
   digits v /\ 5 <= len v /\ minimo_digitos <= len v) /\
  (forall d, Numero_do_Vale (registro_ok d minimo_digitos texto) = v ->
             v = nao_encontrado \/ (digits v /\ 5 <= len v /\ minimo_digitos <= len v)).
Proof.
  intros texto minimo v. split; [apply vale_floor|]. split.
  - intros H. apply filtro_keeps in H as [H Hm].
    apply vale_floor in H as [Hd Hl]. repeat split; auto using long_truthy.
  - intros d H. unfold registro_ok in H; simpl in H.
    destruct (filtro_minimo minimo (extract_vale_number texto)) as [w|] eqn:E.
    + apply filtro_keeps in E as [E Hm].
      apply vale_floor in E as [Hd Hl].
      rewrite ou_some in H by auto using long_truthy. subst w.
      right. repeat split; auto using long_truthy.
    + left. now subst v.
Qed.

Lemma voucher_digits_floor_and_minimum_witness :
  digits (lit "00045123") /\ 5 <= len (lit "00045123") /\ 8 <= len (lit "00045123").
Proof.
  apply (proj1 (proj2 (voucher_digits_floor_and_minimum exemplo_vale 8 (lit "00045123")))).
  vm_compute. reflexivity.
Defined.



End Voucher.

(** * The supplier extractor *)

Module Supplier.
Import Re Spec ReFacts Chars Extract DateFacts.

Lemma atom_corte x :
  atom_match false (oneof [SChar (ord "-"); SChar (ord "|")]) x = true <->
  x = ord "-" \/ x = ord "|".
Proof.
  unfold atom_match, oneof, set_match; simpl.
  rewrite orb_false_r, orb_true_iff, !Z.eqb_eq. reflexivity.
Qed.

Lemma corte_sound s rest c : match_here false corte s = Some (rest, c) -> cut_here s.
Proof.
  intros H. apply match_here_sound in H. unfold corte, at_least in H.
  cbn [matches] in H. destruct H as [(xs & -> & Hall & [Hl _] & _)|(x & -> & Hx & _)].
  - apply all_space in Hall.
    destruct xs as [|x [|y xs]]; simpl in Hl; try lia.
    inversion Hall as [|? ? Hx Hall']; subst. inversion Hall' as [|? ? Hy _]; subst.
    simpl. auto.
  - apply atom_corte in Hx. simpl. tauto.
Qed.

Lemma corte_complete s : cut_here s -> match_here false corte s <> None.
Proof.
  intros H. destruct s as [|x rest]; [contradiction|]. simpl in H.
  destruct H as [->|[->|[Hx Hy]]].
  - apply (match_here_complete false corte _ rest []). right.
    exists (ord "-"). repeat split; auto.
  - apply (match_here_complete false corte _ rest []). right.
    exists (ord "|"). repeat split; auto.
  - destruct rest as [|y rest]; [contradiction|].
    apply (match_here_complete false corte _ rest []). left.
    exists [x; y]. repeat split; simpl; auto.
    apply all_space. repeat constructor; auto.
Qed.

(** [re.split(...)[0]] is the text up to the first place where a cut
    starts. *)
Lemma split_head_first_cut s :
  exists rest, s = split_head false corte s ++ rest /\
    (rest = [] \/ cut_here rest) /\
    forall pre suf, s = pre ++ suf ->
      (length pre < length (split_head false corte s))%nat -> ~ cut_here suf.
Proof.
  unfold split_head.
  destruct (search false corte s) as [[[pos r] c]|] eqn:E.
  - apply search_from_some in E as (pre & suf & -> & -> & Hm & Hleft).
    simpl. rewrite firstn_app, firstn_all, Nat.sub_diag. simpl. rewrite app_nil_r.
    exists suf. split; auto. split.
    + right. now apply corte_sound in Hm.
    + intros pre' suf' Heq Hl Hc. apply corte_complete in Hc.
      now rewrite (Hleft pre' suf' Heq Hl) in Hc.
  - exists []. rewrite app_nil_r. split; auto. split; auto.
    intros pre suf Heq _ Hc. apply corte_complete in Hc.
    now rewrite (search_from_none false corte s 0%nat pre suf E Heq) in Hc.
Qed.

Lemma loop_step p ps texto g :
  captured p texto = Some g ->
  fornecedor_loop (p :: ps) texto =
  if len (aparar g) >? 3 then Some (aparar g) else fornecedor_loop ps texto.
Proof.
  unfold captured; simpl. destruct (search true p texto) as [[[pos rest] c]|]; [|discriminate].
  now intros ->.
Qed.

Lemma loop_skip p ps texto :
  captured p texto = None -> fornecedor_loop (p :: ps) texto = fornecedor_loop ps texto.
Proof.
  unfold captured; simpl. destruct (search true p texto) as [[[pos rest] c]|]; auto.
  now intros ->.
Qed.

Lemma loop_result ps : forall texto f,
  fornecedor_loop ps texto = Some f ->
  3 < len f /\ exists p g, In p ps /\ captured p texto = Some g /\ f = aparar g.
Proof.
  induction ps as [|p ps IH]; intros texto f H; [discriminate|].
  destruct (captured p texto) as [g|] eqn:E.
  - rewrite (loop_step p ps texto g E) in H.
    destruct (len (aparar g) >? 3) eqn:El.
    + injection H as <-. split; [now apply Z.gtb_lt in El|].
      exists p, g. simpl; auto.
    + apply IH in H as (Hl & q & g' & Hin & Hc & Hf).
      split; auto. exists q, g'. simpl; auto.
  - rewrite (loop_skip p ps texto E) in H.
    apply IH in H as (Hl & q & g' & Hin & Hc & Hf).
    split; auto. exists q, g'. simpl; auto.
Qed.

(** The loop returns the cut capture of the first pattern, in order,
    whose cut capture has four characters or more. *)
Lemma loop_first before : forall p after texto g,
  (forall q g', In q before -> captured q texto = Some g' -> len (aparar g') <= 3) ->
  captured p texto = Some g -> 4 <= len (aparar g) ->
  fornecedor_loop (before ++ p :: after) texto = Some (aparar g).
Proof.
  induction before as [|q before IH]; intros p after texto g Hb Hc Hl; cbn [app].
  - rewrite (loop_step p after texto g Hc).
    destruct (len (aparar g) >? 3) eqn:E; [reflexivity|].
    rewrite Z.gtb_ltb in E. apply Z.ltb_ge in E. lia.
  - assert (Hrest : fornecedor_loop (before ++ p :: after) texto = Some (aparar g)).
    { apply IH; auto. intros q' g' Hin. apply Hb. now right. }
    destruct (captured q texto) as [g'|] eqn:Eq.
    + rewrite (loop_step q _ texto g' Eq).
      destruct (len (aparar g') >? 3) eqn:E; [|exact Hrest].
      apply Z.gtb_lt in E. specialize (Hb q g' (or_introl eq_refl) Eq). lia.
    + now rewrite (loop_skip q _ texto Eq).
Qed.

Lemma loop_none ps : forall texto,
  (forall q g', In q ps -> captured q texto = Some g' -> len (aparar g') <= 3) ->
  fornecedor_loop ps texto = None.
Proof.
  induction ps as [|q ps IH]; intros texto H; [reflexivity|].
  assert (Hrest : fornecedor_loop ps texto = None).
  { apply IH. intros q' g' Hin. apply H. now right. }
  destruct (captured q texto) as [g'|] eqn:Eq.
  - rewrite (loop_step q ps texto g' Eq).
    destruct (len (aparar g') >? 3) eqn:E; [|exact Hrest].
    apply Z.gtb_lt in E. specialize (H q g' (or_introl eq_refl) Eq). lia.
  - now rewrite (loop_skip q ps texto Eq).
Qed.

(** No pattern captures anything in the empty text. *)
Lemma captured_truthy p texto g :
  In p padroes_fornecedor -> captured p texto = Some g -> truthy texto = true.
Proof.
  intros Hin Hc. destruct texto as [|x texto]; [|reflexivity]. exfalso.
  unfold padroes_fornecedor in Hin. simpl in Hin.
  destruct Hin as [<-|[<-|[<-|[]]]]; vm_compute in Hc; discriminate.
Qed.

Lemma exemplo_here post :
  match_here true padrao_fornecedor_1 (exemplo_fornecedor ++ post) =
  Some (lit "   Vale 123456" ++ post,
        [(2%nat, consumed (lit "Vale 123456" ++ post) (lit " 123456" ++ post));
         (1%nat, consumed (lit "Comercial ABC Ltda" ++ lit "   Vale 123456" ++ post)
                          (lit "   Vale 123456" ++ post))]).
Proof. vm_compute. reflexivity. Qed.

Lemma exemplo_found pre post :
  (forall pre' suf', pre ++ exemplo_fornecedor ++ post = pre' ++ suf' ->
                     (length pre' < length pre)%nat -> ~ fornecedor_here suf') ->
  extract_supplier (pre ++ exemplo_fornecedor ++ post) = Some (lit "Comercial ABC Ltda").
Proof.
  intros H. unfold extract_supplier.
  assert (Ht : truthy (pre ++ exemplo_fornecedor ++ post) = true) by (destruct pre; reflexivity).
  rewrite Ht. unfold padroes_fornecedor.
  rewrite (loop_step _ _ _ (lit "Comercial ABC Ltda")); [vm_compute; reflexivity|].
  unfold captured, search. rewrite search_from_skip.
  - assert (E : search_from true padrao_fornecedor_1 (0 + length pre) (exemplo_fornecedor ++ post)
                = Some ((0 + length pre)%nat, lit "   Vale 123456" ++ post,
                        [(2%nat, consumed (lit "Vale 123456" ++ post) (lit " 123456" ++ post));
                         (1%nat, consumed (lit "Comercial ABC Ltda" ++ lit "   Vale 123456" ++ post)
                                          (lit "   Vale 123456" ++ post))])).
    { change (exemplo_fornecedor ++ post)
        with (ord "F" :: (lit "ornecedor: Comercial ABC Ltda   Vale 123456" ++ post)).
      cbn [search_from].
      change (ord "F" :: (lit "ornecedor: Comercial ABC Ltda   Vale 123456" ++ post))
        with (exemplo_fornecedor ++ post).
      now rewrite exemplo_here. }
    rewrite E. cbn [group Nat.eqb]. now rewrite consumed_app.
  - intros pre' suf' Heq Hl.
    destruct (match_here true padrao_fornecedor_1 suf') eqn:E; [|reflexivity].
    exfalso. apply (H pre' suf' Heq Hl). unfold fornecedor_here. now rewrite E.
Qed.

(** C7 (as amended).  A supplier name returned by the extractor is the
    stripped capture of one of the three patterns, cut where the first
    hyphen, pipe or run of two white-space characters starts, and has at
    least four characters; a pattern whose cut capture has three
    characters or fewer is passed over for the next pattern, and the cut
    capture of the first pattern, in their order, that has four characters
    or more is what the extractor returns; it returns nothing when no
    pattern has one.  On every text that contains
    ["Fornecedor: Comercial ABC Ltda   Vale 123456"] with no match of the
    first pattern starting before it, the result is
    ["Comercial ABC Ltda"]. *)
Theorem supplier_is_cut_and_long_enough :
  (forall texto f,
     extract_supplier texto = Some f ->
     4 <= len f /\
     exists p g rest,
       In p padroes_fornecedor /\ captured p texto = Some g /\
       strip g = f ++ rest /\ (rest = [] \/ cut_here rest) /\
       forall pre suf, strip g = pre ++ suf -> (length pre < length f)%nat -> ~ cut_here suf) /\
  (forall p ps texto g,
     captured p texto = Some g -> len (aparar g) <= 3 ->
     fornecedor_loop (p :: ps) texto = fornecedor_loop ps texto) /\
  (forall pre post,
     (forall pre' suf', pre ++ exemplo_fornecedor ++ post = pre' ++ suf' ->
                        (length pre' < length pre)%nat -> ~ fornecedor_here suf') ->
     extract_supplier (pre ++ exemplo_fornecedor ++ post) = Some (lit "Comercial ABC Ltda")) /\
  (forall texto before p after g,
     padroes_fornecedor = before ++ p :: after ->
     (forall q g', In q before -> captured q texto = Some g' -> len (aparar g') <= 3) ->
     captured p texto = Some g -> 4 <= len (aparar g) ->
     extract_supplier texto = Some (aparar g)) /\
  (forall texto,
     (forall q g', In q padroes_fornecedor -> captured q texto = Some g' ->
                   len (aparar g') <= 3) ->
     extract_supplier texto = None).
Proof.
  split; [|split; [|split; [|split]]].
  - intros texto f H. unfold extract_supplier in H.
    destruct (truthy texto); [|discriminate].
    apply loop_result in H as (Hl & p & g & Hin & Hc & ->).
    split; [lia|]. exists p, g.
    destruct (split_head_first_cut (strip g)) as (rest & E & Hr & Hfirst).
    exists rest. repeat split; auto.
  - intros p ps texto g Hc Hl. rewrite (loop_step p ps texto g Hc).
    destruct (len (aparar g) >? 3) eqn:E; [|reflexivity].
    apply Z.gtb_lt in E. lia.
  - exact exemplo_found.
  - intros texto before p after g Hps Hb Hc Hl. unfold extract_supplier.
    assert (Hin : In p padroes_fornecedor) by (rewrite Hps; apply in_elt).
    rewrite (captured_truthy p texto g Hin Hc), Hps.
    now apply loop_first.
  - intros texto H. unfold extract_supplier.
    destruct (truthy texto); [|reflexivity]. now apply loop_none.
Qed.

Lemma supplier_is_cut_and_long_enough_witness :
  extract_supplier (lit "Vale 77 " ++ exemplo_fornecedor ++ lit " Data") =
  Some (lit "Comercial ABC Ltda") /\
  extract_supplier (lit "Fornecedor: ACME") = Some (aparar (lit "ACME")) /\
  aparar (lit "ACME") = lit "ACME".
Proof.
  split; [|split].
  - apply (proj1 (proj2 (proj2 supplier_is_cut_and_long_enough)) (lit "Vale 77 ") (lit " Data")).
    intros pre' suf' E Hl Hf. apply Hf. clear Hf.
    do 8 (destruct pre' as [|? pre'];
          [vm_compute in E; repeat (injection E as _ E); subst suf'; vm_compute; reflexivity|]).
    simpl in Hl. lia.
  - apply (proj1 (proj2 (proj2 (proj2 supplier_is_cut_and_long_enough)))
             (lit "Fornecedor: ACME") [] padrao_fornecedor_1
             [padrao_fornecedor_2; padrao_fornecedor_3] (lit "ACME")).
    + reflexivity.
    + intros q g' [].
    + vm_compute. reflexivity.
    + vm_compute. discriminate.
  - vm_compute. reflexivity.
Defined.

(** C7 (as stated) fails: a text may contain the sample after an earlier
    supplier line, and the extractor then reports the earlier supplier. *)
Lemma supplier_containing_counterexample :
  (exists pre post, dois_fornecedores = pre ++ exemplo_fornecedor ++ post) /\
  extract_supplier dois_fornecedores = Some (lit "Outra Firma") /\
  extract_supplier dois_fornecedores <> Some (lit "Comercial ABC Ltda").
Proof.
  split; [|split].
  - exists (lit "Fornecedor: Outra Firma Vale 1 "), []. reflexivity.
  - vm_compute. reflexivity.
  - vm_compute. discriminate.
Qed.

End Supplier.

(** * The image normaliser *)

Module Normaliser.
Import Spec SpecMore Cv.

Lemma len_map {A B} (f : A -> B) l : len (map f l) = len l.
Proof. unfold len. now rewrite length_map. Qed.

Lemma len_nonneg {A} (l : list A) : 0 <= len l.
Proof. unfold len. lia. Qed.

Lemma len_indices n : 0 <= n -> len (indices n) = n.
Proof. intros H. unfold indices, len. rewrite length_map, length_seq. lia. Qed.

Lemma indices_head n : 1 <= n -> exists t, indices n = 0 :: t.
Proof.
  intros H. unfold indices. destruct (Z.to_nat n) eqn:E; [lia|].
  simpl. eexists; reflexivity.
Qed.

(** A table built row by row over the index ranges has the shape of the
    ranges. *)
Lemma table_shape {A} (f : Z -> Z -> A) w h :
  1 <= w -> 1 <= h ->
  rect (map (fun i => map (fun j => f i j) (indices w)) (indices h)) /\
  nrows (map (fun i => map (fun j => f i j) (indices w)) (indices h)) = h /\
  ncols (map (fun i => map (fun j => f i j) (indices w)) (indices h)) = w.
Proof.
  intros Hw Hh.
  assert (Hr : nrows (map (fun i => map (fun j => f i j) (indices w)) (indices h)) = h).
  { unfold nrows. rewrite len_map. apply len_indices. lia. }
  assert (Hc : ncols (map (fun i => map (fun j => f i j) (indices w)) (indices h)) = w).
  { destruct (indices_head h Hh) as (t & ->). simpl.
    rewrite len_map. apply len_indices. lia. }
  split; [|split]; auto.
  unfold rect. rewrite Hr, Hc. repeat split; auto.
  apply Forall_forall. intros r Hin. apply in_map_iff in Hin as (i & <- & _).
  rewrite len_map. apply len_indices. lia.
Qed.

Lemma map2_shape {A B} (f : A -> B) (m : list (list A)) :
  nrows (map (map f) m) = nrows m /\ ncols (map (map f) m) = ncols m.
Proof.
  split; [apply len_map|]. destruct m as [|r m]; simpl; auto. apply len_map.
Qed.

Lemma map2_rect {A B} (f : A -> B) (m : list (list A)) : rect m -> rect (map (map f) m).
Proof.
  intros (Hr & Hc & Hall). destruct (map2_shape f m) as [Er Ec].
  unfold rect. rewrite Er, Ec. repeat split; auto.
  apply Forall_forall. intros r Hin. apply in_map_iff in Hin as (r0 & <- & Hin0).
  rewrite len_map. rewrite Forall_forall in Hall. now apply Hall.
Qed.

Lemma medianBlur3_shape m :
  rect m -> rect (medianBlur3 m) /\ nrows (medianBlur3 m) = nrows m /\
            ncols (medianBlur3 m) = ncols m.
Proof. intros (Hr & Hc & _). now apply table_shape. Qed.

Lemma threshold_binary t m : binary (threshold t 255 m).
Proof.
  unfold binary, threshold. apply Forall_forall. intros r Hr.
  apply in_map_iff in Hr as (r0 & <- & _).
  apply Forall_forall. intros x Hx. apply in_map_iff in Hx as (x0 & <- & _).
  destruct (x0 >? t); auto.
Qed.

Lemma binary_levels px :
  rect px -> binary px -> (1 <= length (levels (ModeL px)) <= 2)%nat.
Proof.
  intros (Hr & Hc & _) Hb. simpl. split.
  - assert (Hex : exists x, In x (concat px)).
    { destruct px as [|[|x r] px]; unfold nrows, ncols, len in *; simpl in Hr, Hc; try lia.
      exists x. simpl. auto. }
    destruct Hex as (x & Hx). apply (nodup_In Z.eq_dec) in Hx.
    destruct (nodup Z.eq_dec (concat px)); [contradiction | simpl; lia].
  - change 2%nat with (length [0; 255]).
    apply NoDup_incl_length; [apply NoDup_nodup|].
    intros x Hx. apply nodup_In in Hx. apply in_concat in Hx as (r & Hr' & Hx).
    unfold binary in Hb. rewrite Forall_forall in Hb. specialize (Hb r Hr').
    rewrite Forall_forall in Hb. destruct (Hb x Hx) as [->| ->]; simpl; auto.
Qed.

(** ** The levels left by the threshold *)

Lemma levels_threshold t f v :
  In v (levels (ModeL (threshold t 255 f))) <->
  exists x, In x (concat f) /\ v = if x >? t then 255 else 0.
Proof.
  simpl. rewrite nodup_In. unfold threshold. rewrite <- concat_map, in_map_iff.
  split; intros (x & H1 & H2); exists x; auto.
Qed.

Lemma level_white t f :
  In 255 (levels (ModeL (threshold t 255 f))) <-> exists x, In x (concat f) /\ t < x.
Proof.
  rewrite levels_threshold. split; intros (x & Hx & H); exists x; split; auto.
  - destruct (x >? t) eqn:E; [now apply Z.gtb_lt in E | discriminate].
  - apply Z.gtb_lt in H. now rewrite H.
Qed.

Lemma level_black t f :
  In 0 (levels (ModeL (threshold t 255 f))) <-> exists x, In x (concat f) /\ x <= t.
Proof.
  rewrite levels_threshold. split; intros (x & Hx & H); exists x; split; auto.
  - destruct (x >? t) eqn:E; [discriminate|].
    rewrite Z.gtb_ltb in E. now apply Z.ltb_ge in E.
  - destruct (x >? t) eqn:E; [apply Z.gtb_lt in E; lia | reflexivity].
Qed.

Lemma two_levels t f :
  rect (threshold t 255 f) ->
  (exists a, In a (concat f) /\ a <= t) -> (exists b, In b (concat f) /\ t < b) ->
  length (levels (ModeL (threshold t 255 f))) = 2%nat.
Proof.
  intros Hr Ha Hb. apply level_black in Ha. apply level_white in Hb.
  destruct (binary_levels _ Hr (threshold_binary t f)) as [_ Hle].
  apply Nat.le_antisymm; [exact Hle|].
  change 2%nat with (length [0; 255]).
  apply NoDup_incl_length.
  - repeat constructor; simpl; intuition discriminate.
  - intros v [<-|[<-|[]]]; assumption.
Qed.

Lemma one_level t f :
  rect (threshold t 255 f) ->
  (forall x y, In x (concat f) -> In y (concat f) -> x = y) ->
  length (levels (ModeL (threshold t 255 f))) = 1%nat.
Proof.
  intros Hr Hu.
  destruct (binary_levels _ Hr (threshold_binary t f)) as [Hge _].
  apply Nat.le_antisymm; [|exact Hge].
  destruct (levels (ModeL (threshold t 255 f))) as [|v l] eqn:E; [simpl; lia|].
  assert (Hv : In v (levels (ModeL (threshold t 255 f)))) by (rewrite E; now left).
  apply levels_threshold in Hv as (x & Hx & ->).
  change 1%nat with (length [if x >? t then 255 else 0]). rewrite <- E.
  apply NoDup_incl_length; [apply NoDup_nodup|].
  intros w Hw. apply levels_threshold in Hw as (y & Hy & ->).
  rewrite (Hu y x Hy Hx). now left.
Qed.

(** ** The filtered picture is a [uint8] array *)

Lemma scale_abs_range x : 0 <= scale_abs x <= 255.
Proof.
  unfold scale_abs.
  assert (H : 0 <= 3 * Z.abs x / 2) by (apply Z.div_pos; lia).
  destruct (3 * Z.abs x mod 2 =? 0); [lia|].
  destruct (Z.even (3 * Z.abs x / 2)); lia.
Qed.

Lemma in_insert x y l : In x (insert y l) -> x = y \/ In x l.
Proof.
  induction l as [|z l IH]; simpl.
  - intros [<-|[]]. now left.
  - destruct (y <=? z); simpl.
    + intros [<-|H]; auto.
    + intros [<-|H]; auto. destruct (IH H); auto.
Qed.

Lemma in_sort x l : In x (sort l) -> In x l.
Proof.
  induction l as [|y l IH]; simpl; [tauto|].
  intros H. apply in_insert in H as [->|H]; auto.
Qed.

Lemma nth_range (l : list Z) n : Forall (fun x => 0 <= x <= 255) l -> 0 <= nth n l 0 <= 255.
Proof.
  intros H. destruct (nth_in_or_default n l 0) as [Hin| ->]; [|lia].
  rewrite Forall_forall in H. now apply H.
Qed.

Lemma pixel_range m i j : uint8 m -> 0 <= pixel m i j <= 255.
Proof.
  intros H. unfold pixel. apply nth_range.
  destruct (nth_in_or_default (Z.to_nat (clamp 0 (nrows m - 1) i)) m []) as [Hin|E].
  - unfold uint8 in H. rewrite Forall_forall in H. now apply H.
  - rewrite E. constructor.
Qed.

Lemma median9_range m i j : uint8 m -> 0 <= median9 m i j <= 255.
Proof.
  intros H. unfold median9. apply nth_range.
  apply Forall_forall. intros x Hx. apply in_sort in Hx.
  apply in_flat_map in Hx as (di & _ & Hx). apply in_map_iff in Hx as (dj & <- & _).
  now apply pixel_range.
Qed.

Lemma medianBlur3_uint8 m : uint8 m -> uint8 (medianBlur3 m).
Proof.
  intros H. unfold medianBlur3, uint8.
  apply Forall_forall. intros r Hr. apply in_map_iff in Hr as (i & <- & _).
  apply Forall_forall. intros x Hx. apply in_map_iff in Hx as (j & <- & _).
  now apply median9_range.
Qed.

Lemma convertScaleAbs_uint8 m : uint8 (convertScaleAbs m).
Proof.
  unfold convertScaleAbs, uint8.
  apply Forall_forall. intros r Hr. apply in_map_iff in Hr as (r0 & <- & _).
  apply Forall_forall. intros x Hx. apply in_map_iff in Hx as (x0 & <- & _).
  apply scale_abs_range.
Qed.

Lemma binarizar_eq cv img :
  binarizar cv img =
  ModeL (threshold (otsu cv (filtrada cv img)) 255 (filtrada cv img)).
Proof. destruct img; reflexivity. Qed.

Section Laws.
Variable cv : cv2.
Hypothesis laws : cv2_laws cv.

Lemma filtrada_shape img :
  raster img ->
  rect (filtrada cv img) /\ uint8 (filtrada cv img) /\
  nrows (filtrada cv img) = height img /\ ncols (filtrada cv img) = width img.
Proof.
  intros Hr. unfold filtrada.
  set (cinza := match img with Bgr px => cvtColor cv px | Gray px => px end).
  assert (Hc : rect cinza /\ nrows cinza = height img /\ ncols cinza = width img).
  { destruct img as [px|px]; simpl in *; auto.
    now apply (cvtColor_shape cv laws). }
  destruct Hc as (Hrect & Hh & Hw).
  destruct (map2_shape scale_abs cinza) as [E1 E2].
  pose proof (map2_rect scale_abs cinza Hrect) as Hrect1.
  fold (convertScaleAbs cinza) in E1, E2, Hrect1.
  destruct (medianBlur3_shape _ Hrect1) as (Hrect2 & E3 & E4).
  split; [exact Hrect2|]. split.
  - apply medianBlur3_uint8, convertScaleAbs_uint8.
  - split; congruence.
Qed.

(** Lines 67-82 keep the height and the width and leave two levels. *)
Lemma binarizar_shape img :
  raster img ->
  exists px, binarizar cv img = ModeL px /\ rect px /\ binary px /\
             nrows px = height img /\ ncols px = width img.
Proof.
  intros Hr. unfold binarizar.
  set (cinza := match img with Bgr px => cvtColor cv px | Gray px => px end).
  assert (Hc : rect cinza /\ nrows cinza = height img /\ ncols cinza = width img).
  { destruct img as [px|px]; simpl in *; auto.
    now apply (cvtColor_shape cv laws). }
  destruct Hc as (Hrect & Hh & Hw).
  destruct (map2_shape scale_abs cinza) as [E1 E2].
  pose proof (map2_rect scale_abs cinza Hrect) as Hrect1.
  fold (convertScaleAbs cinza) in E1, E2, Hrect1.
  destruct (medianBlur3_shape _ Hrect1) as (Hrect2 & E3 & E4).
  set (t := otsu cv (medianBlur3 (convertScaleAbs cinza))).
  destruct (map2_shape (fun x => if x >? t then 255 else 0)
              (medianBlur3 (convertScaleAbs cinza))) as [E5 E6].
  pose proof (map2_rect (fun x => if x >? t then 255 else 0) _ Hrect2) as Hrect3.
  exists (threshold t 255 (medianBlur3 (convertScaleAbs cinza))).
  split; [reflexivity|]. split; [exact Hrect3|]. split; [apply threshold_binary|].
  unfold threshold. split; congruence.
Qed.

Lemma preprocess_small img :
  height img <= 2000 -> preprocess_image cv (Some img) = Ok (Some (binarizar cv img)).
Proof.
  intros H. unfold preprocess_image.
  destruct (height img >? 2000) eqn:E; [apply Z.gtb_lt in E; lia | reflexivity].
Qed.

Lemma preprocess_resized img :
  raster img -> 2000 < height img -> 1 <= nova_largura (width img) (height img) ->
  exists px, preprocess_image cv (Some img) = Ok (Some (ModeL px)) /\ rect px /\ binary px /\
             nrows px = 2000 /\ ncols px = nova_largura (width img) (height img).
Proof.
  intros Hr Hh Hw. unfold preprocess_image.
  destruct (height img >? 2000) eqn:E; [|rewrite Z.gtb_ltb in E; apply Z.ltb_ge in E; lia].
  destruct (resize_shape cv laws img _ 2000 Hr Hw ltac:(lia))
    as (out & -> & Hro & Hho & Hwo & _).
  simpl. destruct (binarizar_shape out Hro) as (px & -> & Hrect & Hbin & Hh' & Hw').
  exists px. split; [reflexivity|]. split; [exact Hrect|]. split; [exact Hbin|].
  split; congruence.
Qed.

(** The slip: a target width of zero makes [cv2.resize] raise, and the
    normaliser with it. *)
Lemma preprocess_raises img :
  2000 < height img -> nova_largura (width img) (height img) <= 0 ->
  exists e, preprocess_image cv (Some img) = Raise e.
Proof.
  intros Hh Hw. unfold preprocess_image.
  destruct (height img >? 2000) eqn:E; [|rewrite Z.gtb_ltb in E; apply Z.ltb_ge in E; lia].
  destruct (resize_empty cv laws img (nova_largura (width img) (height img)) 2000)
    as (e & ->); [now left|].
  exists e. reflexivity.
Qed.

(** The normaliser resizes when it must and then filters and thresholds
    what it has. *)
Lemma preprocess_work img :
  raster img ->
  height img <= 2000 \/ 1 <= nova_largura (width img) (height img) ->
  exists work,
    redimensionada cv img = Ok work /\ raster work /\ height work <= 2000 /\
    preprocess_image cv (Some img) = Ok (Some (binarizar cv work)).
Proof.
  intros Hr Hcase. unfold redimensionada, preprocess_image.
  destruct (height img >? 2000) eqn:E.
  - apply Z.gtb_lt in E. destruct Hcase as [Hs|Hw]; [lia|].
    destruct (resize_shape cv laws img _ 2000 Hr Hw ltac:(lia))
      as (out & -> & Hro & Hho & _).
    exists out. split; [reflexivity|]. split; [exact Hro|]. split; [lia|]. reflexivity.
  - rewrite Z.gtb_ltb in E. apply Z.ltb_ge in E.
    exists img. split; [reflexivity|]. split; [exact Hr|]. split; [exact E|]. reflexivity.
Qed.

End Laws.

Lemma sample_shape {A} (d : A) (m : list (list A)) w h :
  1 <= w -> 1 <= h ->
  rect (sample d m w h) /\ nrows (sample d m w h) = h /\ ncols (sample d m w h) = w.
Proof.
  intros Hw Hh. unfold sample.
  exact (table_shape (fun i j => nth (Z.to_nat (j * ncols m / w))
                                     (nth (Z.to_nat (i * nrows m / h)) m []) d) w h Hw Hh).
Qed.

(** The stand-in primitives obey the laws. *)
Lemma cv_stub_laws : cv2_laws cv_stub.
Proof.
  constructor.
  - intros img w h Hr Hw Hh. simpl. unfold resize_nn.
    destruct ((w <=? 0) || (h <=? 0)) eqn:E.
    { apply orb_prop in E as [E|E]; apply Z.leb_le in E; lia. }
    destruct img as [px|px].
    + destruct (sample_shape 0 px w h Hw Hh) as (? & ? & ?).
      exists (Gray (sample 0 px w h)). simpl. auto.
    + destruct (sample_shape (0, 0, 0) px w h Hw Hh) as (? & ? & ?).
      exists (Bgr (sample (0, 0, 0) px w h)). simpl. auto.
  - intros img w h H. simpl. unfold resize_nn.
    destruct ((w <=? 0) || (h <=? 0)) eqn:E; [eexists; reflexivity|].
    apply orb_false_elim in E as [E1 E2]. apply Z.leb_gt in E1, E2. lia.
  - intros px Hr. simpl. destruct (map2_shape luma px).
    split; [now apply map2_rect | auto].
Qed.

(** ** The exact Otsu threshold separates the pixels *)

Lemma total_split (f : Z -> bool) l :
  total l = total (filter f l) + total (filter (fun x => negb (f x)) l) /\
  len l = len (filter f l) + len (filter (fun x => negb (f x)) l).
Proof.
  unfold total, len. induction l as [|x l [IH1 IH2]]; [split; reflexivity|].
  cbn [filter]. destruct (f x); cbn [negb fold_right length]; lia.
Qed.

Lemma total_le i l : Forall (fun x => x <= i) l -> total l <= i * len l.
Proof.
  unfold total, len. induction 1 as [|x l Hx _ IH]; simpl fold_right; simpl length; lia.
Qed.

Lemma total_ge i l : Forall (fun x => i <= x) l -> i * len l <= total l.
Proof.
  unfold total, len. induction 1 as [|x l Hx _ IH]; simpl fold_right; simpl length; lia.
Qed.

Lemma len_pos_in {A} (l : list A) : 0 < len l -> exists x, In x l.
Proof. destruct l as [|x l]; [unfold len; simpl; lia | exists x; now left]. Qed.

Lemma in_len_pos {A} (l : list A) x : In x l -> 0 < len l.
Proof. destruct l; [contradiction | unfold len; simpl length; lia]. Qed.

(** A threshold with pixels on both sides: the two class sizes. *)
Lemma otsu_den_pos l i :
  0 < otsu_den l i <->
  (exists a, In a l /\ a <= i) /\ (exists b, In b l /\ i < b).
Proof.
  unfold otsu_den. destruct (total_split (fun x => x <=? i) l) as [_ Hn].
  set (low := filter (fun x => x <=? i) l) in *.
  set (high := filter (fun x => negb (x <=? i)) l) in *.
  replace (len l - len low) with (len high) by lia.
  pose proof (len_nonneg low). pose proof (len_nonneg high).
  split.
  - intros Hd. assert (0 < len low /\ 0 < len high) as [H1 H2] by nia.
    apply len_pos_in in H1 as (a & Ha). apply len_pos_in in H2 as (b & Hb).
    apply filter_In in Ha as [Ha Ha']. apply filter_In in Hb as [Hb Hb'].
    apply Z.leb_le in Ha'. apply negb_true_iff, Z.leb_gt in Hb'.
    split; [exists a | exists b]; auto.
  - intros [(a & Ha & Ha') (b & Hb & Hb')].
    assert (H1 : 0 < len low).
    { apply (in_len_pos _ a), filter_In. split; auto. now apply Z.leb_le. }
    assert (H2 : 0 < len high).
    { apply (in_len_pos _ b), filter_In. split; auto. now apply negb_true_iff, Z.leb_gt. }
    nia.
Qed.

(** Such a threshold has a positive between-class variance: the mean of
    the lower class is below the mean of the upper class. *)
Lemma otsu_num_pos l i : 0 < otsu_den l i -> 0 < otsu_num l i.
Proof.
  unfold otsu_den, otsu_num. destruct (total_split (fun x => x <=? i) l) as [Hs Hn].
  set (low := filter (fun x => x <=? i) l) in *.
  set (high := filter (fun x => negb (x <=? i)) l) in *.
  assert (Hlow : total low <= i * len low).
  { apply total_le, Forall_forall. intros x Hx. apply filter_In in Hx as [_ Hx].
    now apply Z.leb_le. }
  assert (Hhigh : (i + 1) * len high <= total high).
  { apply total_ge, Forall_forall. intros x Hx. apply filter_In in Hx as [_ Hx].
    apply negb_true_iff, Z.leb_gt in Hx. lia. }
  pose proof (len_nonneg low). pose proof (len_nonneg high).
  intros Hd. replace (len l - len low) with (len high) in Hd by lia.
  assert (0 < len low /\ 0 < len high) as [H1 H2] by nia.
  assert (Hneg : total low * len l - len low * total l <= - (len low * len high)).
  { rewrite Hs, Hn. nia. }
  nia.
Qed.

Section Fold.
Variable l : list Z.

Lemma otsu_step_inv seen best i :
  otsu_inv l seen best -> otsu_inv l (seen ++ [i]) (otsu_step l best i).
Proof.
  destruct best as [[num den] val]. intros (Hden & Hnum & Hval & Hseen).
  unfold otsu_step.
  destruct (0 <? otsu_den l i) eqn:E1; cbn [andb].
  - apply Z.ltb_lt in E1. pose proof (otsu_num_pos l i E1) as Hpos.
    destruct (num * otsu_den l i <? otsu_num l i * den) eqn:E2.
    + split; [exact E1|]. split; [lia|]. split; [auto|]. intros; exact Hpos.
    + apply Z.ltb_ge in E2. assert (0 < num) by nia.
      split; [exact Hden|]. split; [exact Hnum|]. split; [exact Hval|]. intros; assumption.
  - apply Z.ltb_ge in E1.
    split; [exact Hden|]. split; [exact Hnum|]. split; [exact Hval|].
    intros j Hj Hd. apply in_app_or in Hj as [Hj|[<-|[]]]; [now apply (Hseen j) | lia].
Qed.

Lemma otsu_fold_inv todo : forall seen best,
  otsu_inv l seen best -> otsu_inv l (seen ++ todo) (fold_left (otsu_step l) todo best).
Proof.
  induction todo as [|i todo IH]; intros seen best H; cbn [fold_left].
  - now rewrite app_nil_r.
  - replace (seen ++ i :: todo) with ((seen ++ [i]) ++ todo) by now rewrite <- app_assoc.
    apply IH. now apply otsu_step_inv.
Qed.

End Fold.

(** The exact threshold lies between two pixels whenever the pixels are
    not all equal. *)
Lemma otsu_exact_splits m x y :
  uint8 m -> In x (concat m) -> In y (concat m) -> x <> y ->
  exists a b, In a (concat m) /\ In b (concat m) /\ a <= otsu_exact m < b.
Proof.
  intros Hu Hx Hy Hne. unfold otsu_exact.
  pose proof (otsu_fold_inv (concat m) (indices 256) [] (0, 1, 0)) as H.
  destruct (fold_left (otsu_step (concat m)) (indices 256) (0, 1, 0)) as [[num den] val].
  destruct H as (_ & _ & Hval & Hseen).
  { split; [lia|]. split; [lia|]. split; [lia|]. intros i []. }
  assert (Hrange : forall z, In z (concat m) -> 0 <= z <= 255).
  { intros z Hz. apply in_concat in Hz as (r & Hr & Hz).
    unfold uint8 in Hu. rewrite Forall_forall in Hu. specialize (Hu r Hr).
    rewrite Forall_forall in Hu. now apply Hu. }
  assert (Hnum : 0 < num).
  { destruct (Z_lt_le_dec x y) as [Hlt|Hge].
    - apply (Hseen x).
      + cbn [app]. unfold indices. apply in_map_iff. exists (Z.to_nat x).
        pose proof (Hrange x Hx). split; [lia|]. apply in_seq. lia.
      + apply otsu_den_pos. split; [exists x | exists y]; split; auto; lia.
    - apply (Hseen y).
      + cbn [app]. unfold indices. apply in_map_iff. exists (Z.to_nat y).
        pose proof (Hrange y Hy). split; [lia|]. apply in_seq. lia.
      + apply otsu_den_pos. split; [exists y | exists x]; split; auto; lia. }
  apply Hval, otsu_den_pos in Hnum as [(a & Ha & Ha') (b & Hb & Hb')].
  exists a, b. auto.
Qed.

Lemma cv_stub_otsu : otsu_splits cv_stub.
Proof. intros m x y _ Hu _ Hx Hy Hne. simpl. exact (otsu_exact_splits m x y Hu Hx Hy Hne). Qed.

Lemma duas_cores_raster : raster duas_cores.
Proof.
  unfold duas_cores, raster, rect. split; [vm_compute; congruence|].
  split; [vm_compute; congruence|]. repeat constructor.
Qed.

Lemma um_pixel_raster : raster um_pixel.
Proof. unfold um_pixel, raster, rect; simpl. repeat split; try (vm_compute; congruence); auto. Qed.

Lemma imagem_alta_raster : raster imagem_alta.
Proof.
  unfold imagem_alta, raster, rect. split; [vm_compute; congruence|].
  split; [vm_compute; congruence|].
  apply Forall_forall. intros r Hr. apply repeat_spec in Hr. subst. reflexivity.
Qed.

Lemma imagem_estreita_raster : raster imagem_estreita.
Proof.
  unfold imagem_estreita, raster, rect. split; [vm_compute; congruence|].
  split; [vm_compute; congruence|].
  apply Forall_forall. intros r Hr. apply repeat_spec in Hr. subst. reflexivity.
Qed.

(** C4 (as amended).  For a raster of height at most 2000, or taller with
    a target width of at least one pixel, the normaliser returns a
    single-channel image of height at most 2000 in which every pixel is 0
    or 255, white exactly where the filtered picture (grey, contrast
    raised, median filtered) exceeds the Otsu threshold.  The output has
    exactly two distinct levels whenever the filtered picture has two
    different grey values (the threshold then falls between two of its
    pixels; shown for pictures of fewer than [2^23] pixels), and a single
    level when the filtered picture is uniform. *)
Theorem normalised_is_small_grey_binary : forall cv, cv2_laws cv -> forall img,
  raster img ->
  height img <= 2000 \/ 1 <= nova_largura (width img) (height img) ->
  exists work px,
    redimensionada cv img = Ok work /\
    preprocess_image cv (Some img) = Ok (Some (ModeL px)) /\
    px = threshold (otsu cv (filtrada cv work)) 255 (filtrada cv work) /\
    nrows px <= 2000 /\ binary px /\
    (1 <= length (levels (ModeL px)) <= 2)%nat /\
    (In 255 (levels (ModeL px)) <->
     exists x, In x (concat (filtrada cv work)) /\ otsu cv (filtrada cv work) < x) /\
    (In 0 (levels (ModeL px)) <->
     exists x, In x (concat (filtrada cv work)) /\ x <= otsu cv (filtrada cv work)) /\
    (otsu_splits cv -> len (concat (filtrada cv work)) < 2 ^ 23 ->
     (exists x y, In x (concat (filtrada cv work)) /\ In y (concat (filtrada cv work)) /\
                  x <> y) ->
     length (levels (ModeL px)) = 2%nat) /\
    ((forall x y, In x (concat (filtrada cv work)) -> In y (concat (filtrada cv work)) ->
                  x = y) ->
     length (levels (ModeL px)) = 1%nat).
Proof.
  intros cv laws img Hr Hcase.
  destruct (preprocess_work cv laws img Hr Hcase) as (work & Ew & Hrw & Hhw & Ep).
  destruct (filtrada_shape cv laws work Hrw) as (Hrect & Hu8 & Hfh & Hfw).
  set (f := filtrada cv work) in *. set (t := otsu cv f).
  assert (Hshape : rect (threshold t 255 f) /\ nrows (threshold t 255 f) = nrows f).
  { split; [now apply map2_rect | apply map2_shape]. }
  destruct Hshape as [Hrpx Hnpx].
  exists work, (threshold t 255 f).
  split; [exact Ew|]. split; [now rewrite Ep, binarizar_eq|]. split; [reflexivity|].
  split; [lia|]. split; [apply threshold_binary|].
  split; [apply binary_levels; [exact Hrpx | apply threshold_binary]|].
  split; [apply level_white|]. split; [apply level_black|]. split.
  - intros Hotsu Hsize (x & y & Hx & Hy & Hne).
    destruct (Hotsu f x y Hrect Hu8 Hsize Hx Hy Hne) as (a & b & Ha & Hb & Hab).
    apply two_levels; [exact Hrpx | exists a | exists b]; split; auto; lia.
  - intros Huni. now apply one_level.
Qed.

Lemma normalised_is_small_grey_binary_witness :
  exists px, preprocess_image cv_stub (Some duas_cores) = Ok (Some (ModeL px)) /\
             nrows px <= 2000 /\ binary px /\
             length (levels (ModeL px)) = 2%nat.
Proof.
  destruct (normalised_is_small_grey_binary cv_stub cv_stub_laws duas_cores duas_cores_raster)
    as (work & px & Ew & Ep & _ & Hh & Hb & _ & _ & _ & H2 & _).
  { left. vm_compute. discriminate. }
  exists px. split; [exact Ep|]. split; [exact Hh|]. split; [exact Hb|].
  vm_compute in Ew. injection Ew as <-.
  apply H2.
  - exact cv_stub_otsu.
  - vm_compute. reflexivity.
  - exists 0, 255. split; [vm_compute; auto|]. split; [vm_compute; auto 10 | discriminate].
Defined.

(** C4 (as stated) fails: the image of one pixel is normalised to an
    image of one pixel, which has one level, not two. *)
Lemma two_levels_counterexample :
  ~ (forall cv, cv2_laws cv -> forall img, raster img ->
       exists out, preprocess_image cv (Some img) = Ok (Some out) /\
                   pil_height out <= 2000 /\ (exists px, out = ModeL px) /\
                   length (levels out) = 2%nat).
Proof.
  intros H.
  destruct (H cv_stub cv_stub_laws um_pixel um_pixel_raster) as (out & E & _ & _ & Hl).
  vm_compute in E. injection E as <-. vm_compute in Hl. discriminate.
Qed.

(** C5 (as amended).  A raster taller than 2000 pixels is resized to
    height 2000 and width [int(w * (2000 / h))], the binary64 product
    truncated toward zero, whenever that width is at least one; a raster of
    height at most 2000 goes through the rest of the pipeline unresized and
    keeps its height and width.  The width is neither [round] nor the
    floor of the exact quotient: 3 x 4000 gives 1 and 2105 x 2105 gives
    1999. *)
Theorem resize_truncates_width : forall cv, cv2_laws cv -> forall img,
  raster img ->
  (2000 < height img -> 1 <= nova_largura (width img) (height img) ->
   exists out, preprocess_image cv (Some img) = Ok (Some out) /\
               pil_height out = 2000 /\
               pil_width out = nova_largura (width img) (height img)) /\
  (height img <= 2000 ->
   preprocess_image cv (Some img) = Ok (Some (binarizar cv img)) /\
   pil_height (binarizar cv img) = height img /\
   pil_width (binarizar cv img) = width img) /\
  (nova_largura 3 4000 = 1 /\ round_div (3 * 2000) 4000 = 2 /\
   nova_largura 2105 2105 = 1999 /\ 2105 * 2000 / 2105 = 2000).
Proof.
  intros cv laws img Hr. split; [|split].
  - intros Hh Hw.
    destruct (preprocess_resized cv laws img Hr Hh Hw) as (px & E & _ & _ & H1 & H2).
    exists (ModeL px). auto.
  - intros Hs. split; [now apply preprocess_small|].
    destruct (binarizar_shape cv laws img Hr) as (px & -> & _ & _ & H1 & H2). auto.
  - repeat split; vm_compute; reflexivity.
Qed.

Lemma resize_truncates_width_witness :
  exists out, preprocess_image cv_stub (Some imagem_alta) = Ok (Some out) /\
              pil_height out = 2000 /\ pil_width out = 1.
Proof.
  apply (proj1 (resize_truncates_width cv_stub cv_stub_laws imagem_alta imagem_alta_raster)).
  - vm_compute. reflexivity.
  - vm_compute. discriminate.
Defined.

(** C5 (as stated) fails: an image 3 wide and 4000 high is resized to
    width 1, while [round(3 * 2000 / 4000)] is 2. *)
Lemma rounded_width_counterexample :
  ~ (forall cv, cv2_laws cv -> forall img, raster img -> 2000 < height img ->
       exists out, preprocess_image cv (Some img) = Ok (Some out) /\
                   pil_height out = 2000 /\
                   pil_width out = round_div (width img * 2000) (height img)).
Proof.
  intros H.
  destruct (H cv_stub cv_stub_laws imagem_alta imagem_alta_raster) as (out & E & _ & Hw);
    [vm_compute; reflexivity|].
  destruct (preprocess_resized cv_stub cv_stub_laws imagem_alta imagem_alta_raster)
    as (px & E' & _ & _ & _ & Hc); [vm_compute; reflexivity | vm_compute; discriminate|].
  assert (Hn : nova_largura (width imagem_alta) (height imagem_alta) = 1)
    by (vm_compute; reflexivity).
  assert (Hr : round_div (width imagem_alta * 2000) (height imagem_alta) = 2)
    by (vm_compute; reflexivity).
  assert (Eo : out = ModeL px) by congruence.
  rewrite Hr in Hw. rewrite Hn in Hc. rewrite Eo in Hw. unfold pil_width in Hw. lia.
Qed.

End Normaliser.

(** * The batch loop *)

Module Batch.
Import Spec SpecMore Cv Extract App Normaliser.

Lemma nao_encontrado_not_erro : nao_encontrado <> ERRO.
Proof. vm_compute. discriminate. Qed.

Lemma ou_nonempty x d : d <> [] -> ou x d <> [].
Proof.
  intros Hd. unfold ou. destruct x as [v|]; auto.
  destruct v; simpl; [exact Hd | discriminate].
Qed.

(** The voucher field of a success record never reads ["ERRO"]. *)
Lemma ok_voucher_not_erro d minimo texto : Numero_do_Vale (registro_ok d minimo texto) <> ERRO.
Proof.
  unfold registro_ok; simpl.
  destruct (filtro_minimo minimo (extract_vale_number texto)) as [v|] eqn:E.
  - apply Voucher.filtro_keeps in E as [E _].
    apply Voucher.vale_floor in E as [_ Hl].
    rewrite Voucher.ou_some by now apply Voucher.long_truthy.
    intros ->. vm_compute in Hl. now apply Hl.
  - apply nao_encontrado_not_erro.
Qed.

Lemma ok_due_date_nonempty d minimo texto : Vencimento (registro_ok d minimo texto) <> [].
Proof. unfold registro_ok; simpl. apply ou_nonempty. discriminate. Qed.

(** The normaliser gives null on a null input only. *)
Lemma preprocess_null cv img : preprocess_image cv img = Ok None -> img = None.
Proof.
  destruct img as [a|]; auto. unfold preprocess_image.
  destruct (if height a >? 2000
            then resize cv a (nova_largura (width a) (height a)) 2000 else Ok a);
    simpl; discriminate.
Qed.

Section Loop.
Variable cv : cv2.
Variable ocr : entrada_ocr -> result pystr.
Variable st : streamlit.
Variable mostrar_texto : bool.
Variable minimo : Z.
Variable idx : Z.

Lemma item_try d p :
  preprocess_image cv (imagem d) = Ok p ->
  processar_item cv ocr st mostrar_texto minimo idx d =
  match corpo_try ocr st mostrar_texto minimo idx d (entrada p (imagem d)) with
  | Ok r => Ok (r, [ChamadaOcr (entrada p (imagem d))])
  | Raise e =>
      Ok (registro_erro d e,
          [ChamadaOcr (entrada p (imagem d)); StError (lit "Erro durante o OCR: " ++ e)])
  end.
Proof. intros Hp. unfold processar_item. now rewrite Hp. Qed.

Lemma item_error d p e :
  preprocess_image cv (imagem d) = Ok p -> ocr (entrada p (imagem d)) = Raise e ->
  processar_item cv ocr st mostrar_texto minimo idx d =
  Ok (registro_erro d e,
      [ChamadaOcr (entrada p (imagem d)); StError (lit "Erro durante o OCR: " ++ e)]).
Proof. intros Hp Ho. rewrite (item_try d p Hp). unfold corpo_try. now rewrite Ho. Qed.

(** Whatever happens inside the [try], the item gets a record, and the
    recogniser has been called on the chosen image. *)
Lemma item_record d p :
  preprocess_image cv (imagem d) = Ok p ->
  exists r ev, processar_item cv ocr st mostrar_texto minimo idx d
               = Ok (r, ChamadaOcr (entrada p (imagem d)) :: ev) /\
               Arquivo r = nome d /\ Origem r = tipo d.
Proof.
  intros Hp. rewrite (item_try d p Hp).
  destruct (corpo_try ocr st mostrar_texto minimo idx d (entrada p (imagem d))) as [r|e] eqn:E.
  - exists r, []. split; [reflexivity|].
    unfold corpo_try in E.
    destruct (ocr (entrada p (imagem d))) as [t|]; [|discriminate]. cbn [bind] in E.
    destruct (metricas st _ _ _); [|discriminate]. cbn [bind] in E.
    destruct (if mostrar_texto && truthy (strip t)
              then texto_completo st (nome d) idx t else Ok tt); [|discriminate].
    cbn [bind] in E. injection E as <-. split; reflexivity.
  - eexists _, _. split; [reflexivity|]. split; reflexivity.
Qed.

Lemma item_raises d e :
  preprocess_image cv (imagem d) = Raise e ->
  processar_item cv ocr st mostrar_texto minimo idx d = Raise e.
Proof. intros Hp. unfold processar_item. now rewrite Hp. Qed.

Lemma laco_raises d resto acc log e :
  preprocess_image cv (imagem d) = Raise e ->
  laco cv ocr st mostrar_texto minimo idx (d :: resto) acc log = Raise e.
Proof. intros Hp. cbn [laco]. now rewrite (item_raises d e Hp). Qed.

End Loop.

(** No item of a batch is without an image. *)
Lemma imagens_have_image uploads drive d :
  In d (imagens_processar uploads drive) ->
  exists img, imagem d = Some img /\
              ((In (nome d, Some img) uploads /\ tipo d = lit "upload") \/
               (drive = Some img /\ nome d = lit "imagem_drive.jpg" /\ tipo d = lit "drive")).
Proof.
  unfold imagens_processar. intros H. apply in_app_or in H as [H|H].
  - apply in_flat_map in H as ([n [i|]] & Hin & H); [|contradiction].
    destruct H as [<-|[]]. exists i. split; [reflexivity|]. left. auto.
  - destruct drive as [i|]; [|contradiction]. destruct H as [<-|[]].
    exists i. split; [reflexivity|]. right. auto.
Qed.

(** C3, at its failing input.  A decoded image 1 pixel wide and 2001
    pixels high gets the target width [int(1 * (2000 / 2001)) = 0];
    [cv2.resize] raises, the call stands outside the [try], and
    [processar_imagens] ends with the exception: no record for this image
    nor for any of the others. *)
Theorem tall_narrow_image_aborts_batch : forall cv, cv2_laws cv ->
  forall ocr st mostrar_texto minimo_digitos nome outros drive,
  exists e,
    processar_imagens cv ocr st ((nome, Some imagem_estreita) :: outros) drive
      mostrar_texto minimo_digitos
    = Raise e.
Proof.
  intros cv laws ocr st mt minimo nome outros drive.
  destruct (preprocess_raises cv laws imagem_estreita) as (e & He);
    [vm_compute; reflexivity | vm_compute; discriminate |].
  exists e. unfold processar_imagens, imagens_processar.
  cbn [flat_map app].
  now apply laco_raises.
Qed.

Lemma tall_narrow_image_aborts_batch_witness :
  exists e,
    processar_imagens cv_stub (fun _ => Ok (lit "Vale 123456")) st_ok
      [(lit "estreita.png", Some imagem_estreita); (lit "boa.png", Some um_pixel)] None
      false 8
    = Raise e.
Proof. apply (tall_narrow_image_aborts_batch cv_stub cv_stub_laws). Defined.




(** C10.  When the recogniser raises for an item, the record of the item
    has ["ERRO"] as voucher and the empty string as due date: a string that
    is neither "Não encontrado" nor the due-date field of any success
    record. *)
Theorem error_record_due_date_is_empty :
  forall cv ocr st mostrar_texto minimo_digitos idx d p e,
  preprocess_image cv (imagem d) = Ok p ->
  ocr (entrada p (imagem d)) = Raise e ->
  exists r ev,
    processar_item cv ocr st mostrar_texto minimo_digitos idx d = Ok (r, ev) /\
    Numero_do_Vale r = ERRO /\
    Vencimento r = [] /\
    Vencimento r <> nao_encontrado /\
    forall d' minimo' t, Vencimento (registro_ok d' minimo' t) <> Vencimento r.
Proof.
  intros cv ocr st mt minimo idx d p e Hp Ho.
  exists (registro_erro d e),
         [ChamadaOcr (entrada p (imagem d)); StError (lit "Erro durante o OCR: " ++ e)].
  split; [now apply item_error|]. split; [reflexivity|]. split; [reflexivity|].
  split; [discriminate|]. intros d' m' t. exact (ok_due_date_nonempty d' m' t).
Qed.

Lemma error_record_due_date_is_empty_witness :
  exists r ev,
    processar_item cv_stub (fun _ => Raise (lit "tesseract failed")) st_ok false 8 0
      {| nome := lit "a.png"; imagem := None; tipo := lit "upload" |} = Ok (r, ev) /\
    Numero_do_Vale r = ERRO /\
    Vencimento r = [] /\
    Vencimento r <> nao_encontrado /\
    forall d' minimo' t, Vencimento (registro_ok d' minimo' t) <> Vencimento r.
Proof.
  apply (error_record_due_date_is_empty cv_stub (fun _ => Raise (lit "tesseract failed"))
           st_ok false 8 0
           {| nome := lit "a.png"; imagem := None; tipo := lit "upload" |}
           None (lit "tesseract failed") eq_refl eq_refl).
Defined.

End Batch.

(** * Captures are pieces of the subject *)

Module Pieces.
Import Re Spec SpecMore ReFacts Chars.

Lemma matches_suffix ic r : forall s c s' c',
  matches ic r s c s' c' -> exists u, s = u ++ s'.
Proof.
  induction r as [|a|g lo hi a|r1 IH1 r2 IH2|r1 IH1 r2 IH2|n r1 IH1|r1 IH1|];
    intros s c s' c' H; simpl in H.
  - destruct H as [-> _]. now exists [].
  - destruct H as (x & -> & _). now exists [x].
  - destruct H as (xs & -> & _). now exists xs.
  - destruct H as (s1 & c1 & H1 & H2).
    apply IH1 in H1 as (u1 & ->). apply IH2 in H2 as (u2 & ->).
    exists (u1 ++ u2). now rewrite app_assoc.
  - destruct H as [H|H]; eauto.
  - destruct H as (c1 & H & _). eauto.
  - destruct H as (-> & _). now exists [].
  - destruct H as (-> & _). now exists [].
Qed.

Lemma suffix_app pre u s t : t = pre ++ u ++ s -> suffix s t.
Proof. intros ->. exists (pre ++ u). now rewrite app_assoc. Qed.

Lemma matches_caps ic t r : forall s c s' c',
  suffix s t -> caps_in t c -> matches ic r s c s' c' -> caps_in t c'.
Proof.
  induction r as [|a|g lo hi a|r1 IH1 r2 IH2|r1 IH1 r2 IH2|n r1 IH1|r1 IH1|];
    intros s c s' c' Hs Hc H; simpl in H.
  - now destruct H as [_ ->].
  - now destruct H as (x & _ & _ & ->).
  - now destruct H as (xs & _ & _ & _ & ->).
  - destruct H as (s1 & c1 & H1 & H2).
    destruct (matches_suffix _ _ _ _ _ _ H1) as (u & Eu).
    destruct Hs as (pre & Et).
    apply (IH2 s1 c1 s' c'); auto.
    + subst s. now apply (suffix_app pre u).
    + apply (IH1 s c s1 c1); auto. now exists pre.
  - destruct H as [H|H]; eauto.
  - destruct H as (c1 & H & ->).
    destruct (matches_suffix _ _ _ _ _ _ H) as (u & Eu).
    destruct Hs as (pre & Et).
    intros m g [E|Hin].
    + injection E as _ <-. subst s. rewrite consumed_app.
      now exists pre, s'.
    + assert (Hc1 : caps_in t c1) by (apply (IH1 s c s' c1); auto; now exists pre).
      now apply (Hc1 m g).
  - destruct H as (-> & s1 & H). eauto.
  - now destruct H as (_ & -> & _).
Qed.

Lemma group_in n : forall c g, group n c = Some g -> In (n, g) c.
Proof.
  induction c as [|[m v] c IH]; intros g H; simpl in H; [discriminate|].
  destruct (Nat.eqb n m) eqn:E.
  - apply Nat.eqb_eq in E. injection H as ->. subst. now left.
  - right. now apply IH.
Qed.

(** What [re.search] captures is found in the subject. *)
Lemma search_caps ic r t p rest c n g :
  search ic r t = Some (p, rest, c) -> group n c = Some g -> substring g t.
Proof.
  intros H Hg. apply search_from_some in H as (pre & suf & -> & _ & Hm & _).
  apply match_here_sound in Hm.
  assert (Hc : caps_in (pre ++ suf) c).
  { apply (matches_caps ic (pre ++ suf) r suf [] rest c); auto.
    - now exists pre.
    - intros ? ? []. }
  apply (Hc n g). now apply group_in.
Qed.

Lemma substring_trans a b t : substring a b -> substring b t -> substring a t.
Proof.
  intros (p1 & q1 & ->) (p2 & q2 & ->).
  exists (p2 ++ p1), (q1 ++ q2). now rewrite <- !app_assoc.
Qed.

End Pieces.

(** * More on the due-date extractor *)

Module DueDateMore.
Import Re Spec SpecMore ReFacts Chars Extract DateFacts DueDate Pieces.

Lemma is_date_len d : is_date d -> 8 <= len d <= 10.
Proof.
  intros (dd & mm & yy & -> & _ & _ & _ & Hd & Hm & Hy).
  unfold len. rewrite length_app. simpl. rewrite length_app. simpl. lia.
Qed.

Lemma found_is_date r P texto p rest c d :
  (forall s s' c', matches false r s [] s' c' -> exists d, group 1 c' = Some d /\ P s d) ->
  (forall s e, P s e -> is_date e) ->
  search false r texto = Some (p, rest, c) -> group 1 c = Some d ->
  is_date d /\ substring d texto.
Proof.
  intros Hsound Hdate Hs Hg. split; [|now apply (search_caps false r texto p rest c 1%nat)].
  apply search_from_some in Hs as (pre & suf & -> & _ & Hm & _).
  apply match_here_sound, Hsound in Hm as (d' & Hg' & HP).
  rewrite Hg in Hg'. injection Hg' as <-. now apply (Hdate suf).
Qed.

Lemma range_date s d : range_here s d -> is_date d.
Proof. intros (? & ? & ? & ? & ? & ? & ? & ? & _ & _ & _ & _ & _ & _ & _ & _ & H). exact H. Qed.

Lemma vencimento_date s d : vencimento_here s d -> is_date d.
Proof. intros (? & ? & ? & ? & _ & _ & _ & _ & H). exact H. Qed.

Lemma venc_date s d : venc_here s d -> is_date d.
Proof. intros (? & ? & ? & ? & ? & _ & _ & _ & _ & _ & H). exact H. Qed.

(** X1.  Whatever the text, a due date returned by the extractor has the form
    [d{1,2}/d{1,2}/dddd] (8 to 10 characters) and stands in the text. *)
Theorem due_date_is_a_date_of_the_text : forall texto d,
  extract_due_date texto = Some d ->
  is_date d /\ substring d texto /\ 8 <= len d <= 10.
Proof.
  intros texto d H.
  assert (Hd : is_date d /\ substring d texto).
  { unfold extract_due_date in H. destruct (truthy texto); [|discriminate].
    destruct (search false padrao_principal texto) as [[[p rest] c]|] eqn:E1.
    { now apply (found_is_date _ range_here texto p rest c d principal_sound range_date). }
    simpl in H.
    destruct (search false padrao_vencimento texto) as [[[p rest] c]|] eqn:E2.
    { now apply (found_is_date _ vencimento_here texto p rest c d vencimento_sound
                   vencimento_date). }
    destruct (search false padrao_venc texto) as [[[p rest] c]|] eqn:E3; [|discriminate].
    now apply (found_is_date _ venc_here texto p rest c d venc_sound venc_date). }
  destruct Hd as [Hd Hs]. split; [|split]; auto. now apply is_date_len.
Qed.

Lemma due_date_is_a_date_of_the_text_witness :
  is_date (lit "15/02/2024") /\ substring (lit "15/02/2024") (lit "Venc.: 15/02/2024 ok") /\
  8 <= len (lit "15/02/2024") <= 10.
Proof.
  apply (due_date_is_a_date_of_the_text (lit "Venc.: 15/02/2024 ok") (lit "15/02/2024")).
  vm_compute. reflexivity.
Defined.

Lemma found_has_group r P texto p rest c :
  (forall s s' c', matches false r s [] s' c' -> exists d, group 1 c' = Some d /\ P s d) ->
  search false r texto = Some (p, rest, c) -> group 1 c <> None.
Proof.
  intros Hsound Hs.
  apply search_from_some in Hs as (pre & suf & -> & _ & Hm & _).
  apply match_here_sound, Hsound in Hm as (d' & -> & _). discriminate.
Qed.

Lemma nowhere_nil P : (forall s e, P s e -> s <> []) -> nowhere P [].
Proof.
  intros HP pre suf d E Hd. apply HP in Hd.
  symmetry in E. apply app_eq_nil in E as [_ ->]. contradiction.
Qed.

(** X2.  The extractor finds nothing exactly when the text has none of the three
    forms: no validity range, no ["Vencimento" sep date], no
    ["Venc"/"Venc." sep date]. *)
Theorem no_due_date_iff_no_form : forall texto,
  extract_due_date texto = None <->
  nowhere range_here texto /\ nowhere vencimento_here texto /\ nowhere venc_here texto.
Proof.
  intros texto. split.
  - intros H. unfold extract_due_date in H.
    destruct (truthy texto) eqn:Ht.
    + destruct (search false padrao_principal texto) as [[[p rest] c]|] eqn:E1.
      { exfalso. now apply (found_has_group _ range_here _ _ _ _ principal_sound E1). }
      simpl in H.
      destruct (search false padrao_vencimento texto) as [[[p rest] c]|] eqn:E2.
      { exfalso. now apply (found_has_group _ vencimento_here _ _ _ _ vencimento_sound E2). }
      destruct (search false padrao_venc texto) as [[[p rest] c]|] eqn:E3.
      { exfalso. now apply (found_has_group _ venc_here _ _ _ _ venc_sound E3). }
      split; [now apply computed_nowhere_range|].
      split; [now apply computed_nowhere_vencimento | now apply computed_nowhere_venc].
    + destruct texto; [|discriminate].
      split; [apply (nowhere_nil _ range_nonempty)|].
      split; [apply (nowhere_nil _ vencimento_nonempty) | apply (nowhere_nil _ venc_nonempty)].
  - intros (H1 & H2 & H3). now apply fallback_none.
Qed.

End DueDateMore.

(** * More on the voucher-number extractor *)

Module VoucherMore.
Import Re Spec SpecMore ReFacts Chars Extract Pieces.

Lemma atom_digit_ic x : atom_match true digit x = Unicode.isdecimal x.
Proof. unfold atom_match, digit, set_match; simpl. now rewrite orb_false_r. Qed.

Lemma digit_group s c s' c' :
  matches true (RGroup 1 (at_least 5 digit)) s c s' c' ->
  exists g, group 1 c' = Some g /\ digits g /\ (5 <= length g)%nat.
Proof.
  unfold at_least; cbn [matches].
  intros (c1 & (xs & -> & Hall & [Hl _] & ->) & ->).
  exists xs. rewrite consumed_app. split; [reflexivity|]. split; auto.
  unfold digits. revert Hall. apply Forall_impl. intros x. now rewrite atom_digit_ic.
Qed.

Lemma vale_group p s s' c' :
  In p padroes_vale -> matches true p s [] s' c' ->
  exists g, group 1 c' = Some g /\ digits g /\ (5 <= length g)%nat.
Proof.
  intros Hin H. unfold padroes_vale in Hin. simpl in Hin.
  destruct Hin as [<-|[<-|[<-|[<-|[]]]]].
  - unfold padrao_vale_1 in H; cbn [matches seqs fold_right] in H.
    destruct H as (? & ? & _ & ? & ? & _ & ? & ? & _ & ? & ? & _ & ? & ? & H & -> & ->).
    now apply digit_group in H.
  - unfold padrao_vale_2 in H; cbn [matches seqs fold_right] in H.
    destruct H as (? & ? & _ & ? & ? & _ & ? & ? & _ & ? & ? & _ & ? & ? & _ & ? & ? & H & -> & ->).
    now apply digit_group in H.
  - unfold padrao_vale_3 in H; cbn [matches seqs fold_right] in H.
    destruct H as (? & ? & _ & ? & ? & _ & ? & ? & _ & ? & ? & _ & ? & ? & _ & ? & ? & H & -> & ->).
    now apply digit_group in H.
  - unfold padrao_vale_4 in H; cbn [matches seqs fold_right] in H.
    destruct H as (? & ? & _ & ? & ? & _ & ? & ? & H & -> & ->).
    now apply digit_group in H.
Qed.

Lemma sub_delete_id g : digits g -> sub_delete false nao_numerico g = g.
Proof.
  unfold digits, sub_delete. induction 1 as [|x g Hx _ IH]; simpl; auto.
  unfold atom_match, nao_numerico, set_match; simpl.
  rewrite orb_false_r, Hx. simpl. f_equal. exact IH.
Qed.

Lemma vale_loop_piece ps : forall texto v,
  (forall p, In p ps -> In p padroes_vale) ->
  vale_loop ps texto = Some v ->
  exists p, In p ps /\ captured p texto = Some v /\ substring v texto.
Proof.
  induction ps as [|p ps IH]; intros texto v Hps H; simpl in H; [discriminate|].
  assert (Hrec : vale_loop ps texto = Some v ->
                 exists q, In q (p :: ps) /\ captured q texto = Some v /\ substring v texto).
  { intros H'. destruct (IH texto v) as (q & Hq & Hc & Hs); auto.
    - intros q Hq. apply Hps. now right.
    - exists q. split; [now right | auto]. }
  destruct (search true p texto) as [[[pos rest] c]|] eqn:E; [|auto].
  destruct (group 1 c) as [numero|] eqn:Eg; [|auto].
  assert (Hd : digits numero).
  { pose proof E as E'.
    apply search_from_some in E' as (pre & suf & -> & _ & Hm & _).
    apply match_here_sound in Hm.
    destruct (vale_group p suf rest c) as (g & Hg & Hdg & _); auto.
    - apply Hps. now left.
    - rewrite Eg in Hg. now injection Hg as <-. }
  rewrite (sub_delete_id numero Hd) in H.
  destruct (len numero >=? 5); [|auto].
  injection H as <-. exists p. split; [now left|]. split.
  - unfold captured. now rewrite E.
  - now apply (search_caps true p texto pos rest c 1%nat).
Qed.

(** X3.  A voucher number returned by the extractor is, unchanged, the digits
    that one of the four patterns captured, and so a run of at least five
    decimal digits that stands in the text. *)
Theorem voucher_is_a_digit_run_of_the_text : forall texto v,
  extract_vale_number texto = Some v ->
  (exists p, In p padroes_vale /\ captured p texto = Some v) /\
  substring v texto /\ digits v /\ 5 <= len v.
Proof.
  intros texto v H. pose proof (Voucher.vale_floor texto v H) as [Hd Hl].
  unfold extract_vale_number in H. destruct (truthy texto); [|discriminate].
  apply vale_loop_piece in H as (p & Hp & Hc & Hs); auto.
  split; [exists p; auto|]. auto.
Qed.

Lemma voucher_is_a_digit_run_of_the_text_witness :
  (exists p, In p padroes_vale /\ captured p exemplo_vale = Some (lit "00045123")) /\
  substring (lit "00045123") exemplo_vale /\ digits (lit "00045123") /\
  5 <= len (lit "00045123").
Proof.
  apply (voucher_is_a_digit_run_of_the_text exemplo_vale (lit "00045123")).
  vm_compute. reflexivity.
Defined.

End VoucherMore.

(** * More on the supplier extractor *)

Module SupplierMore.
Import Re Spec SpecMore ReFacts Chars Extract Pieces Supplier.

Lemma lstrip_split s : exists ws, s = ws ++ lstrip s.
Proof.
  induction s as [|x s (ws & IH)]; simpl; [now exists []|].
  destruct (Unicode.isspace x); [|now exists []].
  exists (x :: ws). simpl. now f_equal.
Qed.

Lemma lstrip_head s x r : lstrip s = x :: r -> Unicode.isspace x = false.
Proof.
  induction s as [|y s IH]; simpl; [discriminate|].
  destruct (Unicode.isspace y) eqn:E; auto.
  intros H. injection H as <- _. exact E.
Qed.

Lemma strip_split s : exists l r, s = l ++ strip s ++ r.
Proof.
  unfold strip. destruct (lstrip_split s) as (l & El).
  destruct (lstrip_split (rev (lstrip s))) as (w & Ew).
  exists l, (rev w). rewrite El at 1. f_equal.
  rewrite <- (rev_involutive (lstrip s)) at 1. rewrite Ew at 1.
  now rewrite rev_app_distr.
Qed.

Lemma strip_head s x r : strip s = x :: r -> Unicode.isspace x = false.
Proof.
  unfold strip. intros H.
  destruct (lstrip_split (rev (lstrip s))) as (w & Ew).
  assert (E : lstrip s = (x :: r) ++ rev w).
  { rewrite <- (rev_involutive (lstrip s)). rewrite Ew. rewrite rev_app_distr. now rewrite H. }
  simpl in E. now apply lstrip_head in E.
Qed.

(** X4.  Whatever the text, a supplier name returned by the extractor stands in
    the text, has at least four characters, begins with a character that
    is not white space, and contains neither a hyphen, nor a pipe, nor two
    white-space characters in a row. *)
Theorem supplier_is_a_clean_piece_of_the_text : forall texto f,
  extract_supplier texto = Some f ->
  substring f texto /\ 4 <= len f /\
  (exists x r, f = x :: r /\ Unicode.isspace x = false) /\
  ~ In (ord "-") f /\ ~ In (ord "|") f /\
  (forall pre x y suf, f = pre ++ x :: y :: suf ->
     ~ (Unicode.isspace x = true /\ Unicode.isspace y = true)).
Proof.
  intros texto f H. unfold extract_supplier in H.
  destruct (truthy texto); [|discriminate].
  apply loop_result in H as (Hl & p & g & Hin & Hc & ->).
  destruct (split_head_first_cut (strip g)) as (rest & E & _ & Hfirst).
  fold (aparar g) in E, Hfirst.
  assert (Hcut : forall pre suf, aparar g = pre ++ suf -> suf <> [] -> ~ cut_here (suf ++ rest)).
  { intros pre suf Ef Hne. apply (Hfirst pre (suf ++ rest)).
    - rewrite E at 1. rewrite Ef. now rewrite <- app_assoc.
    - rewrite Ef, length_app. destruct suf; [contradiction | simpl; lia]. }
  split; [|split; [lia|split; [|split; [|split]]]].
  - apply (substring_trans _ g).
    + destruct (strip_split g) as (l & r & Eg).
      exists l, (rest ++ r). rewrite Eg at 1. rewrite E at 1. now rewrite <- app_assoc.
    + unfold captured in Hc.
      destruct (search true p texto) as [[[pos rs] c]|] eqn:Es; [|discriminate].
      now apply (search_caps true p texto pos rs c 1%nat).
  - destruct (aparar g) as [|x r] eqn:Ea; [unfold len in Hl; simpl in Hl; lia|].
    exists x, r. split; auto. apply (strip_head g x (r ++ rest)). now rewrite E.
  - intros Hi. apply in_split in Hi as (pre & suf & Ef).
    apply (Hcut pre (ord "-" :: suf) Ef); [discriminate|]. simpl. auto.
  - intros Hi. apply in_split in Hi as (pre & suf & Ef).
    apply (Hcut pre (ord "|" :: suf) Ef); [discriminate|]. simpl. auto.
  - intros pre x y suf Ef [Hx Hy].
    apply (Hcut pre (x :: y :: suf) Ef); [discriminate|]. simpl. auto.
Qed.

Lemma supplier_is_a_clean_piece_of_the_text_witness :
  substring (lit "Comercial ABC Ltda") exemplo_fornecedor /\
  4 <= len (lit "Comercial ABC Ltda") /\
  (exists x r, lit "Comercial ABC Ltda" = x :: r /\ Unicode.isspace x = false) /\
  ~ In (ord "-") (lit "Comercial ABC Ltda") /\ ~ In (ord "|") (lit "Comercial ABC Ltda") /\
  (forall pre x y suf, lit "Comercial ABC Ltda" = pre ++ x :: y :: suf ->
     ~ (Unicode.isspace x = true /\ Unicode.isspace y = true)).
Proof.
  apply (supplier_is_a_clean_piece_of_the_text exemplo_fornecedor (lit "Comercial ABC Ltda")).
  vm_compute. reflexivity.
Defined.

End SupplierMore.

(** * More on the batch loop and its statistics *)

Module BatchMore.
Import Spec SpecMore Cv Extract App Report Normaliser Batch.

Section Loop.
Variable cv : cv2.
Variable ocr : entrada_ocr -> result pystr.
Variable st : streamlit.
Variable mostrar_texto : bool.
Variable minimo : Z.

(** The loop gives the items their records one by one, in order. *)
Lemma laco_fields imagens : forall idx acc log,
  (forall d, In d imagens -> exists p, preprocess_image cv (imagem d) = Ok p) ->
  exists rs ev,
    laco cv ocr st mostrar_texto minimo idx imagens acc log = Ok (acc ++ rs, ev) /\
    map Arquivo rs = map nome imagens /\ map Origem rs = map tipo imagens.
Proof.
  induction imagens as [|d resto IH]; intros idx acc log H.
  - exists [], log. simpl. now rewrite app_nil_r.
  - destruct (H d (or_introl eq_refl)) as (p & Hp).
    destruct (item_record cv ocr st mostrar_texto minimo idx d p Hp)
      as (r & ev & He & Ha & Ho).
    destruct (IH (idx + 1) (acc ++ [r]) (log ++ ChamadaOcr (entrada p (imagem d)) :: ev))
      as (rs & ev' & E & Hn & Ht).
    { intros d' Hd'. apply H. now right. }
    exists (r :: rs), ev'. cbn [laco]. rewrite He. cbn [bind]. rewrite E.
    rewrite <- app_assoc. cbn [map app]. split; [reflexivity|].
    split; congruence.
Qed.

End Loop.

(** The names and origins of the items, read off the uploads and the
    Drive image. *)
Lemma imagens_nomes uploads drive :
  map nome (imagens_processar uploads drive) =
  map fst (filter decodificado uploads)
  ++ match drive with Some _ => [lit "imagem_drive.jpg"] | None => [] end.
Proof.
  unfold imagens_processar. rewrite map_app. f_equal.
  - induction uploads as [|[n [i|]] uploads IH]; cbn [flat_map filter decodificado snd];
      auto. cbn [app map fst nome]. now rewrite IH.
  - destruct drive; reflexivity.
Qed.

Lemma imagens_tipos uploads drive :
  map tipo (imagens_processar uploads drive) =
  map (fun _ => lit "upload") (filter decodificado uploads)
  ++ match drive with Some _ => [lit "drive"] | None => [] end.
Proof.
  unfold imagens_processar. rewrite map_app. f_equal.
  - induction uploads as [|[n [i|]] uploads IH]; cbn [flat_map filter decodificado snd];
      auto. cbn [app map tipo]. now rewrite IH.
  - destruct drive; reflexivity.
Qed.

(** X5.  When the normaliser raises on no decoded image, the batch gives
    exactly one record per decoded image: first the decoded uploads in
    their order, each under its file name with origin ["upload"], then the
    Drive image, if there is one, under ["imagem_drive.jpg"] with origin
    ["drive"]; uploads that did not decode get no record. *)
Theorem one_record_per_decoded_image :
  forall cv ocr st mostrar_texto minimo_digitos uploads drive,
  (forall n img, In (n, Some img) uploads ->
                 exists p, preprocess_image cv (Some img) = Ok p) ->
  (forall img, drive = Some img -> exists p, preprocess_image cv (Some img) = Ok p) ->
  exists rs ev,
    processar_imagens cv ocr st uploads drive mostrar_texto minimo_digitos = Ok (rs, ev) /\
    map Arquivo rs =
      map fst (filter decodificado uploads)
      ++ match drive with Some _ => [lit "imagem_drive.jpg"] | None => [] end /\
    map Origem rs =
      map (fun _ => lit "upload") (filter decodificado uploads)
      ++ match drive with Some _ => [lit "drive"] | None => [] end /\
    length rs =
      (length (filter decodificado uploads)
       + match drive with Some _ => 1 | None => 0 end)%nat.
Proof.
  intros cv ocr st mt minimo uploads drive Hu Hd.
  destruct (laco_fields cv ocr st mt minimo (imagens_processar uploads drive) 0 [] [])
    as (rs & ev & E & Hn & Ht).
  { intros d Hin.
    destruct (imagens_have_image uploads drive d Hin) as (img & Hi & [[Hin' _]|[Hdr _]]);
      rewrite Hi; eauto. }
  exists rs, ev. split; [exact E|].
  rewrite imagens_nomes in Hn. rewrite imagens_tipos in Ht.
  split; [exact Hn|]. split; [exact Ht|].
  apply (f_equal (@length pystr)) in Hn.
  rewrite length_map, length_app, length_map in Hn. rewrite Hn.
  destruct drive; reflexivity.
Qed.

Lemma one_record_per_decoded_image_witness :
  exists rs ev,
    processar_imagens cv_stub (fun _ => Ok exemplo_vale) st_sem_aninhar
      [(lit "a.png", Some um_pixel); (lit "b.png", None); (lit "c.png", Some duas_cores)]
      (Some um_pixel) true 8 = Ok (rs, ev) /\
    map Arquivo rs = [lit "a.png"; lit "c.png"; lit "imagem_drive.jpg"] /\
    map Origem rs = [lit "upload"; lit "upload"; lit "drive"] /\
    length rs = 3%nat.
Proof.
  apply (one_record_per_decoded_image cv_stub (fun _ => Ok exemplo_vale) st_sem_aninhar true 8
           [(lit "a.png", Some um_pixel); (lit "b.png", None); (lit "c.png", Some duas_cores)]
           (Some um_pixel)).
  - intros n img [H|[H|[H|[]]]]; try discriminate;
      injection H as _ <-; eexists; vm_compute; reflexivity.
  - intros img H. injection H as <-. eexists; vm_compute; reflexivity.
Defined.

(** ** The normaliser's three outcomes *)

(** X6.  The normaliser returns null on the null image and on no other; on a
    raster it raises exactly when the image is taller than 2000 pixels and
    so narrow that the target width [int(w * (2000 / h))] is zero or less;
    otherwise it returns an image. *)
Theorem normaliser_outcomes : forall cv, cv2_laws cv ->
  preprocess_image cv None = Ok None /\
  (forall img, preprocess_image cv (Some img) <> Ok None) /\
  (forall img, raster img ->
     ((exists e, preprocess_image cv (Some img) = Raise e) <->
      (2000 < height img /\ nova_largura (width img) (height img) <= 0)) /\
     ((exists out, preprocess_image cv (Some img) = Ok (Some out)) <->
      (height img <= 2000 \/ 1 <= nova_largura (width img) (height img)))).
Proof.
  intros cv laws. split; [reflexivity|]. split.
  { intros img H. apply preprocess_null in H. discriminate. }
  intros img Hr.
  destruct (Z_le_gt_dec (height img) 2000) as [Hs|Hb].
  - pose proof (preprocess_small cv img Hs) as E. split; split.
    + intros (e & He). rewrite E in He. discriminate.
    + intros [? _]. lia.
    + intros _. now left.
    + intros _. eexists. exact E.
  - destruct (Z_le_gt_dec (nova_largura (width img) (height img)) 0) as [Hz|Hp].
    + destruct (preprocess_raises cv laws img ltac:(lia) Hz) as (e & E). split; split.
      * intros _. split; lia.
      * intros _. now exists e.
      * intros (out & Ho). rewrite E in Ho. discriminate.
      * intros [?|?]; lia.
    + destruct (preprocess_resized cv laws img Hr ltac:(lia) ltac:(lia))
        as (px & E & _). split; split.
      * intros (e & He). rewrite E in He. discriminate.
      * intros [_ ?]. lia.
      * intros _. right. lia.
      * intros _. eexists. exact E.
Qed.

Lemma normaliser_outcomes_witness :
  preprocess_image cv_stub None = Ok None /\
  (forall img, preprocess_image cv_stub (Some img) <> Ok None) /\
  (forall img, raster img ->
     ((exists e, preprocess_image cv_stub (Some img) = Raise e) <->
      (2000 < height img /\ nova_largura (width img) (height img) <= 0)) /\
     ((exists out, preprocess_image cv_stub (Some img) = Ok (Some out)) <->
      (height img <= 2000 \/ 1 <= nova_largura (width img) (height img)))).
Proof. apply (normaliser_outcomes cv_stub cv_stub_laws). Defined.

(** ** The contrast step *)

Lemma scale_abs_table :
  forallb (fun x => (0 <=? scale_abs x) && (scale_abs x <=? 255) &&
                    (scale_abs x <=? scale_abs (x + 1)) &&
                    (x <=? scale_abs x) &&
                    (if 170 <=? x then scale_abs x =? 255 else scale_abs x <? 255))
          (indices 256) = true.
Proof. vm_compute. reflexivity. Qed.

Lemma in_indices n x : 0 <= x < n -> In x (indices n).
Proof.
  intros H. unfold indices. apply in_map_iff. exists (Z.to_nat x). split; [lia|].
  apply in_seq. lia.
Qed.

(** X7.  [convertScaleAbs] with [alpha = 1.5] maps a pixel of 0..255 into
    0..255, never darkens it, keeps the order of intensities, and turns
    exactly the pixels of 170 and more into white (255). *)
Theorem contrast_saturates_from_170 : forall x,
  0 <= x <= 255 ->
  x <= scale_abs x <= 255 /\
  (scale_abs x = 255 <-> 170 <= x) /\
  (forall y, x <= y <= 255 -> scale_abs x <= scale_abs y).
Proof.
  pose proof scale_abs_table as T. rewrite forallb_forall in T.
  assert (P : forall x, 0 <= x <= 255 ->
            0 <= scale_abs x <= 255 /\ scale_abs x <= scale_abs (x + 1) /\
            x <= scale_abs x /\ (scale_abs x = 255 <-> 170 <= x)).
  { intros x Hx. specialize (T x (in_indices 256 x ltac:(lia))).
    apply andb_prop in T as [T T5]. apply andb_prop in T as [T T4].
    apply andb_prop in T as [T T3]. apply andb_prop in T as [T1 T2].
    apply Z.leb_le in T1, T2, T3, T4.
    repeat split; auto.
    - intros E. destruct (170 <=? x) eqn:C; [now apply Z.leb_le in C|].
      apply Z.ltb_lt in T5. lia.
    - intros C. apply Z.leb_le in C. rewrite C in T5. now apply Z.eqb_eq in T5. }
  intros x Hx. destruct (P x Hx) as (H1 & _ & H3 & H4).
  split; [lia|]. split; [exact H4|].
  intros y Hy.
  assert (M : forall n, (0 <= x + Z.of_nat n <= 255) -> scale_abs x <= scale_abs (x + Z.of_nat n)).
  { induction n as [|n IH]; intros Hn.
    - rewrite Z.add_0_r. lia.
    - destruct (P (x + Z.of_nat n) ltac:(lia)) as (_ & Hstep & _).
      replace (x + Z.of_nat (S n)) with (x + Z.of_nat n + 1) by lia.
      specialize (IH ltac:(lia)). lia. }
  replace y with (x + Z.of_nat (Z.to_nat (y - x))) by lia. apply M. lia.
Qed.

Lemma contrast_saturates_from_170_witness :
  200 <= scale_abs 200 <= 255 /\
  (scale_abs 200 = 255 <-> 170 <= 200) /\
  (forall y, 200 <= y <= 255 -> scale_abs 200 <= scale_abs y).
Proof. apply (contrast_saturates_from_170 200). lia. Defined.

(** ** The statistics *)

Lemma str_eqb_eq a : forall b, str_eqb a b = true <-> a = b.
Proof.
  induction a as [|x a IH]; intros [|y b]; simpl; split; intros H;
    try discriminate; auto.
  - apply andb_prop in H as [H1 H2]. apply Z.eqb_eq in H1. apply IH in H2. congruence.
  - injection H as -> ->. rewrite Z.eqb_refl. simpl. now apply IH.
Qed.

Lemma vale_encontrado_iff r :
  vale_encontrado r = true <->
  Numero_do_Vale r <> nao_encontrado /\ Numero_do_Vale r <> ERRO.
Proof.
  unfold vale_encontrado, in_list; simpl. rewrite orb_false_r, negb_true_iff, orb_false_iff.
  split; intros [H1 H2]; split.
  - intros E. apply str_eqb_eq in E. congruence.
  - intros E. apply str_eqb_eq in E. congruence.
  - destruct (str_eqb (Numero_do_Vale r) nao_encontrado) eqn:E; auto.
    apply str_eqb_eq in E. contradiction.
  - destruct (str_eqb (Numero_do_Vale r) ERRO) eqn:E; auto.
    apply str_eqb_eq in E. contradiction.
Qed.

Lemma count_filter {A} (f : A -> bool) l :
  fold_right Z.add 0 (map (fun _ => 1) (filter f l)) = len (filter f l).
Proof.
  unfold len. induction (filter f l) as [|x t IH]; simpl length; [reflexivity|].
  cbn [map fold_right]. rewrite IH. lia.
Qed.

Lemma digits_not_sentinel v :
  digits v -> 5 <= len v -> v <> nao_encontrado /\ v <> ERRO.
Proof.
  intros Hd Hl. split; intros ->.
  - inversion Hd as [|? ? Hx _]. vm_compute in Hx. discriminate.
  - vm_compute in Hl. now apply Hl.
Qed.

Lemma vales_cons r rs :
  vales_encontrados (r :: rs) =
  (if vale_encontrado r then 1 else 0) + vales_encontrados rs.
Proof.
  unfold vales_encontrados. cbn [filter].
  destruct (vale_encontrado r); cbn [map fold_right]; lia.
Qed.

Lemma vales_app a b :
  vales_encontrados (a ++ b) = vales_encontrados a + vales_encontrados b.
Proof.
  induction a as [|r a IH]; [reflexivity|].
  cbn [app]. rewrite !vales_cons, IH. lia.
Qed.

Lemma vales_middle antes r depois :
  vales_encontrados (antes ++ r :: depois) =
  vales_encontrados (antes ++ depois) + (if vale_encontrado r then 1 else 0).
Proof. rewrite !vales_app, vales_cons. lia. Qed.

Lemma ok_found d minimo t :
  vale_encontrado (registro_ok d minimo t) =
  match filtro_minimo minimo (extract_vale_number t) with Some _ => true | None => false end.
Proof.
  destruct (filtro_minimo minimo (extract_vale_number t)) as [v|] eqn:E.
  - apply vale_encontrado_iff. unfold registro_ok; simpl. rewrite E.
    apply Voucher.filtro_keeps in E as [E _].
    apply Voucher.vale_floor in E as [Hd Hl].
    rewrite Voucher.ou_some by now apply Voucher.long_truthy.
    now apply digits_not_sentinel.
  - destruct (vale_encontrado (registro_ok d minimo t)) eqn:F; [|reflexivity].
    apply vale_encontrado_iff in F as [F _]. unfold registro_ok in F; simpl in F.
    rewrite E in F. now contradiction F.
Qed.

(** X8.  The count of vouchers found is the number of records whose
    voucher field is neither ["Não encontrado"] nor ["ERRO"]: it is zero on
    the empty table, a record with one of the two sentinels adds nothing
    to it and any other record adds one.  So an error record of the loop is
    never counted, and a success record is counted exactly when the
    extractor found a voucher that passed the minimum-digit filter.  The
    count never exceeds the number of records, and the success rate is
    computed except on an empty table. *)
Theorem found_vouchers_are_counted : forall resultados,
  0 <= vales_encontrados resultados <= total_processado resultados /\
  (resultados = [] -> vales_encontrados resultados = 0) /\
  (forall antes r depois, resultados = antes ++ r :: depois ->
     (Numero_do_Vale r = nao_encontrado \/ Numero_do_Vale r = ERRO ->
      vales_encontrados resultados = vales_encontrados (antes ++ depois)) /\
     (Numero_do_Vale r <> nao_encontrado -> Numero_do_Vale r <> ERRO ->
      vales_encontrados resultados = vales_encontrados (antes ++ depois) + 1)) /\
  (forall antes d e depois, resultados = antes ++ registro_erro d e :: depois ->
     vales_encontrados resultados = vales_encontrados (antes ++ depois)) /\
  (forall antes d minimo_digitos t depois,
     resultados = antes ++ registro_ok d minimo_digitos t :: depois ->
     vales_encontrados resultados =
     vales_encontrados (antes ++ depois) +
     match filtro_minimo minimo_digitos (extract_vale_number t) with
     | Some _ => 1
     | None => 0
     end) /\
  (taxa_sucesso resultados = None <-> resultados = []).
Proof.
  intros rs. split; [|split; [|split; [|split; [|split]]]].
  - unfold vales_encontrados, total_processado. rewrite count_filter.
    unfold len. pose proof (filter_length_le vale_encontrado rs). lia.
  - intros ->. reflexivity.
  - intros antes r depois ->. rewrite vales_middle. split.
    + intros H. destruct (vale_encontrado r) eqn:F; [|lia].
      apply vale_encontrado_iff in F as [F1 F2]. destruct H; contradiction.
    + intros H1 H2.
      assert (F : vale_encontrado r = true) by now apply vale_encontrado_iff.
      now rewrite F.
  - intros antes d e depois ->. rewrite vales_middle.
    change (vale_encontrado (registro_erro d e)) with false. cbv iota. lia.
  - intros antes d m t depois ->. rewrite vales_middle, ok_found.
    now destruct (filtro_minimo m (extract_vale_number t)).
  - unfold taxa_sucesso, total_processado.
    destruct rs as [|r rs]; [split; reflexivity|].
    split; [|discriminate].
    destruct (len (r :: rs) >? 0) eqn:E; [discriminate|].
    unfold len in E. simpl length in E. rewrite Z.gtb_ltb in E. apply Z.ltb_ge in E. lia.
Qed.

End BatchMore.

(** * Literal keys followed by a greedy group *)

Module Greedy.
Import Re Spec SpecMore ReFacts Chars.

Lemma span_split p s : forall xs rest,
  span p s = (xs, rest) ->
  s = xs ++ rest /\ Forall (fun x => p x = true) xs /\ stops p rest.
Proof.
  induction s as [|x s IH]; intros xs rest H; simpl in H.
  - injection H as <- <-. repeat split; auto.
  - destruct (p x) eqn:E.
    + destruct (span p s) as [ys r]. injection H as <- <-.
      destruct (IH ys r eq_refl) as (-> & Ha & Hs). repeat split; auto.
    + injection H as <- <-. repeat split; auto.
Qed.

Section Run.
Context {A : Type} (p : Z -> bool).

(** A greedy run without upper bound stops where the run of
    [p]-characters ends, when what follows accepts that. *)
Lemma rep_greedy_longest xs : forall rest lo (k : pystr -> option A),
  Forall (fun x => p x = true) xs -> stops p rest -> (lo <= length xs)%nat ->
  k rest <> None ->
  rep_greedy p lo None k (xs ++ rest) = k rest.
Proof.
  induction xs as [|x xs IH]; intros rest lo k Hall Hst Hlo Hk.
  - simpl in Hlo. assert (lo = O) by lia. subst lo. simpl.
    destruct rest as [|y rest]; simpl; auto.
    simpl in Hst. now rewrite Hst.
  - inversion Hall as [|? ? Hx Hxs]; subst.
    simpl. rewrite Hx. simpl.
    rewrite (IH rest (pred lo) k Hxs Hst ltac:(simpl in Hlo; lia) Hk).
    destruct (k rest); [reflexivity | contradiction].
Qed.

Lemma rep_greedy_short xs : forall rest lo (k : pystr -> option A),
  Forall (fun x => p x = true) xs -> stops p rest -> (length xs < lo)%nat ->
  rep_greedy p lo None k (xs ++ rest) = None.
Proof.
  induction xs as [|x xs IH]; intros rest lo k Hall Hst Hlo.
  - destruct lo as [|lo]; [simpl in Hlo; lia|]. simpl.
    destruct rest as [|y rest]; simpl; auto.
    simpl in Hst. now rewrite Hst.
  - inversion Hall as [|? ? Hx Hxs]; subst.
    simpl. rewrite Hx. simpl.
    rewrite (IH rest (pred lo) k Hxs Hst ltac:(simpl in Hlo; lia)).
    destruct lo as [|lo]; [simpl in Hlo; lia | reflexivity].
Qed.

End Run.

Lemma rmatch_str_ok w : forall s c k, rmatch false (str w) (lit w ++ s) c k = k s c.
Proof.
  induction w as [|a w IH]; intros s c k; [reflexivity|].
  change (str (String a w)) with (RCat (RAtom (ALit (ord a))) (str w)).
  change (lit (String a w) ++ s) with (ord a :: (lit w ++ s)).
  cbn [rmatch]. rewrite atom_lit, Z.eqb_refl. apply IH.
Qed.

Lemma rmatch_str_some w : forall s c k res,
  rmatch false (str w) s c k = Some res -> exists t, s = lit w ++ t.
Proof.
  induction w as [|a w IH]; intros s c k res H; [now exists s|].
  change (str (String a w)) with (RCat (RAtom (ALit (ord a))) (str w)) in H.
  cbn [rmatch] in H. destruct s as [|x s]; [discriminate|].
  rewrite atom_lit in H. destruct (x =? ord a) eqn:E; [|discriminate].
  apply Z.eqb_eq in E. subst x. apply IH in H as (t & ->).
  now exists t.
Qed.

Section Key.
Variable w : string.
Variable a : atom.
Variable n : nat.

(** The match of [key (run+)] at the head of a text: the key, then the
    whole run. *)
Lemma key_here_eval i rest :
  Forall (fun x => atom_match false a x = true) i -> stops (atom_match false a) rest ->
  (n <= length i)%nat ->
  match_here false (key_pattern w a n) (lit w ++ i ++ rest) = Some (rest, [(1%nat, i)]).
Proof.
  intros Hi Hst Hn. unfold match_here, key_pattern.
  change (seqs [str w; RGroup 1 (at_least n a)])
    with (RCat (str w) (RCat (RGroup 1 (at_least n a)) REmpty)).
  cbn [rmatch]. rewrite rmatch_str_ok. unfold at_least. cbn [rmatch].
  rewrite rep_greedy_longest; auto; [|discriminate].
  now rewrite consumed_app.
Qed.

Lemma key_here_inv s rest c :
  match_here false (key_pattern w a n) s = Some (rest, c) ->
  exists i, s = lit w ++ i ++ rest /\ Forall (fun x => atom_match false a x = true) i /\
            stops (atom_match false a) rest /\ (n <= length i)%nat /\ c = [(1%nat, i)].
Proof.
  intros H. pose proof H as H0. unfold match_here, key_pattern in H.
  change (seqs [str w; RGroup 1 (at_least n a)])
    with (RCat (str w) (RCat (RGroup 1 (at_least n a)) REmpty)) in H.
  cbn [rmatch] in H. apply rmatch_str_some in H as (t & ->).
  destruct (span (atom_match false a) t) as [i r] eqn:Es.
  apply span_split in Es as (-> & Hi & Hst).
  destruct (le_lt_dec n (length i)) as [Hn|Hn].
  - rewrite (key_here_eval i r Hi Hst Hn) in H0. injection H0 as <- <-.
    exists i. auto.
  - exfalso. unfold match_here, key_pattern in H0.
    change (seqs [str w; RGroup 1 (at_least n a)])
      with (RCat (str w) (RCat (RGroup 1 (at_least n a)) REmpty)) in H0.
    cbn [rmatch] in H0. rewrite rmatch_str_ok in H0. unfold at_least in H0.
    cbn [rmatch] in H0. rewrite rep_greedy_short in H0; auto. discriminate.
Qed.

End Key.

End Greedy.

(** * The Drive identifier *)

Module DriveFacts.
Import Re Spec SpecMore ReFacts Chars Pieces Greedy Drive.

Lemma atom_id x : atom_match false id_char x = is_id_char x.
Proof.
  unfold atom_match, id_char, oneof, set_match, is_id_char; simpl.
  now rewrite orb_false_r, !orb_assoc.
Qed.

Lemma all_id i : Forall (fun x => atom_match false id_char x = true) i <->
                 Forall (fun x => is_id_char x = true) i.
Proof. split; apply Forall_impl; intros x; now rewrite atom_id. Qed.

Lemma stops_id rest : stops (atom_match false id_char) rest <-> stops is_id_char rest.
Proof. destruct rest as [|x rest]; cbn [stops]; [tauto | now rewrite atom_id]. Qed.

Section Key.
Variable w : string.

Lemma key_found s i : key_here (lit w) s i ->
  match_here false (key_pattern w id_char 1) s = Some (skipn (length (lit w) + length i) s, [(1%nat, i)]).
Proof.
  intros (rest & -> & Hne & Hi & Hst).
  rewrite key_here_eval.
  - rewrite app_assoc, <- length_app, skipn_app, skipn_all, Nat.sub_diag. reflexivity.
  - now apply all_id.
  - now apply stops_id.
  - destruct i; [contradiction | simpl; lia].
Qed.

Lemma key_inv s rest c :
  match_here false (key_pattern w id_char 1) s = Some (rest, c) -> exists i, key_here (lit w) s i /\ c = [(1%nat, i)].
Proof.
  intros H. apply key_here_inv in H as (i & -> & Hi & Hst & Hn & ->).
  exists i. split; auto. exists rest. split; [reflexivity|]. split.
  - destruct i; [simpl in Hn; lia | discriminate].
  - split; [now apply all_id | now apply stops_id].
Qed.

Lemma key_search_leftmost link i :
  leftmost (key_here (lit w)) link i ->
  exists p rest, search false (key_pattern w id_char 1) link = Some (p, rest, [(1%nat, i)]).
Proof.
  intros (pre & suf & -> & Hk & Hleft). unfold search. rewrite search_from_skip.
  - pose proof (key_found suf i Hk) as E.
    eexists _, _. destruct suf; simpl; rewrite E; reflexivity.
  - intros pre' suf' Heq Hl.
    destruct (match_here false (key_pattern w id_char 1) suf') as [[rest c]|] eqn:E; [|reflexivity].
    apply key_inv in E as (j & Hj & _). exfalso. now apply (Hleft pre' suf' j).
Qed.

Lemma key_search_nowhere link :
  nowhere (key_here (lit w)) link <-> search false (key_pattern w id_char 1) link = None.
Proof.
  split.
  - intros H. destruct (search false (key_pattern w id_char 1) link) as [[[p rest] c]|] eqn:E; [|reflexivity].
    apply search_from_some in E as (pre & suf & -> & _ & E & _).
    apply key_inv in E as (j & Hj & _). exfalso. now apply (H pre suf j).
  - intros H pre suf i -> Hk.
    pose proof (key_found suf i Hk) as E.
    rewrite (search_from_none false (key_pattern w id_char 1) _ 0%nat pre suf H eq_refl) in E. discriminate.
Qed.

Lemma key_search_valid link p rest c :
  search false (key_pattern w id_char 1) link = Some (p, rest, c) ->
  exists i, c = [(1%nat, i)] /\ i <> [] /\ Forall (fun x => is_id_char x = true) i /\
            substring i link.
Proof.
  intros H. pose proof H as H0.
  apply search_from_some in H as (pre & suf & -> & _ & E & _).
  apply key_inv in E as (i & (rest' & -> & Hne & Hi & _) & ->).
  exists i. repeat split; auto.
  exists (pre ++ lit w), rest'. now rewrite <- !app_assoc.
Qed.

End Key.

Lemma id_valid link i :
  get_drive_file_id link = Some i ->
  i <> [] /\ Forall (fun x => is_id_char x = true) i /\ substring i link.
Proof.
  intros H. unfold get_drive_file_id, padroes in H. cbn [id_loop] in H.
  destruct (search false padrao_d link) as [[[p rest] c]|] eqn:E1.
  - apply (key_search_valid "/d/") in E1 as (j & -> & ? & ? & ?).
    simpl in H. injection H as <-. auto.
  - destruct (search false padrao_id link) as [[[p rest] c]|] eqn:E2; [|discriminate].
    apply (key_search_valid "id=") in E2 as (j & -> & ? & ? & ?).
    simpl in H. injection H as <-. auto.
Qed.

(** X9.  An identifier returned by [get_drive_file_id] is never empty, is
    made of letters, digits, [_] and [-] only, and stands in the link.  So
    the two emptiness tests of lines 278-281 decide nothing: the download
    is attempted exactly when an identifier is found, with that identifier,
    and there is no Drive image when none is found. *)
Theorem drive_id_is_well_formed : forall link,
  (forall i, get_drive_file_id link = Some i ->
     i <> [] /\ Forall (fun x => is_id_char x = true) i /\ substring i link) /\
  (forall download,
     imagem_do_drive download link =
     match get_drive_file_id link with
     | Some i => download i
     | None => None
     end).
Proof.
  intros link. split; [intros i; apply id_valid|].
  intros download. unfold imagem_do_drive.
  destruct link as [|x link]; [reflexivity|]. cbn [Extract.truthy].
  destruct (get_drive_file_id (x :: link)) as [i|] eqn:E; [|reflexivity].
  apply id_valid in E as (Hne & _). destruct i; [contradiction | reflexivity].
Qed.

Lemma drive_id_is_well_formed_witness :
  lit "1AbC-9_x" <> [] /\ Forall (fun x => is_id_char x = true) (lit "1AbC-9_x") /\
  substring (lit "1AbC-9_x") (lit "https://drive.google.com/file/d/1AbC-9_x/view?usp=sharing").
Proof.
  apply (proj1 (drive_id_is_well_formed
                  (lit "https://drive.google.com/file/d/1AbC-9_x/view?usp=sharing"))
               (lit "1AbC-9_x")).
  vm_compute. reflexivity.
Defined.

(** X10.  [get_drive_file_id] returns the whole identifier that follows
    the leftmost ["/d/"] of the link; without any ["/d/" id] it returns the
    identifier that follows the leftmost ["id="]; it returns [None] exactly
    when neither occurs.  A ["/d/" id] wins over an ["id=" id] wherever the
    two stand. *)
Theorem drive_id_prefers_d_then_id : forall link,
  (forall i, leftmost (key_here (lit "/d/")) link i -> get_drive_file_id link = Some i) /\
  (nowhere (key_here (lit "/d/")) link ->
   forall i, leftmost (key_here (lit "id=")) link i -> get_drive_file_id link = Some i) /\
  (get_drive_file_id link = None <->
   nowhere (key_here (lit "/d/")) link /\ nowhere (key_here (lit "id=")) link).
Proof.
  intros link. unfold get_drive_file_id, padroes. cbn [id_loop]. split; [|split].
  - intros i H. apply (key_search_leftmost "/d/") in H as (p & rest & E).
    unfold padrao_d. unfold key_pattern in E. now rewrite E.
  - intros Hn i H. apply (key_search_nowhere "/d/") in Hn.
    unfold padrao_d. unfold key_pattern in Hn. rewrite Hn.
    apply (key_search_leftmost "id=") in H as (p & rest & E).
    unfold padrao_id. unfold key_pattern in E. now rewrite E.
  - rewrite (key_search_nowhere "/d/" link), (key_search_nowhere "id=" link).
    unfold key_pattern. fold padrao_d. fold padrao_id.
    destruct (search false padrao_d link) as [[[p rest] c]|] eqn:E1.
    + apply (key_search_valid "/d/") in E1 as (j & -> & _).
      simpl. split; [discriminate | intros [? _]; discriminate].
    + destruct (search false padrao_id link) as [[[p rest] c]|] eqn:E2.
      * apply (key_search_valid "id=") in E2 as (j & -> & _).
        simpl. split; [discriminate | intros [_ ?]; discriminate].
      * tauto.
Qed.

Lemma drive_id_prefers_d_then_id_witness :
  get_drive_file_id (lit "https://drive.google.com/open?id=ZZ9&x=/d/1AbC-9_x/view") =
  Some (lit "1AbC-9_x").
Proof.
  apply (proj1 (drive_id_prefers_d_then_id
                  (lit "https://drive.google.com/open?id=ZZ9&x=/d/1AbC-9_x/view"))).
  exists (lit "https://drive.google.com/open?id=ZZ9&x="), (lit "/d/1AbC-9_x/view").
  split; [reflexivity|]. split.
  - exists (lit "/view"). split; [reflexivity|]. split; [discriminate|].
    split; [repeat constructor | reflexivity].
  - intros pre' suf' i' E Hl (rest & -> & _).
    do 39 (destruct pre' as [|? pre']; [vm_compute in E; discriminate E|]).
    simpl in Hl. lia.
Defined.

End DriveFacts.

(** * The voucher number after the word "Vale" *)

Module ValeFacts.
Import Re Spec SpecMore ReFacts Chars Pieces Greedy Extract VoucherMore.

Lemma find_all_false {A} (f : A -> bool) l :
  (forall x, In x l -> f x = false) -> find f l = None.
Proof.
  induction l as [|y l IH]; intros H; simpl; auto.
  rewrite (H y (or_introl eq_refl)). apply IH. intros x Hx. apply H. now right.
Qed.

Lemma runs_miss_digits :
  forallb (fun z => forallb (fun '(a, b, _, _) => (b <? z) || (z + 9 <? a)) Unicode.lower_runs)
          Unicode.decimal_zeros = true.
Proof. vm_compute. reflexivity. Qed.

(** Decimal digits have no case. *)
Lemma decimal_lower x : Unicode.isdecimal x = true -> Unicode.tolower x = x.
Proof.
  unfold Unicode.isdecimal, Unicode.tolower. intros H.
  apply existsb_exists in H as (z & Hz & Hx).
  apply andb_prop in Hx as [H1 H2]. apply Z.leb_le in H1. apply Z.ltb_lt in H2.
  pose proof runs_miss_digits as T. rewrite forallb_forall in T.
  specialize (T z Hz). rewrite forallb_forall in T.
  rewrite find_all_false; auto.
  intros [[[a b] st] d] Hr. specialize (T _ Hr). simpl in T.
  apply orb_prop in T as [T|T]; apply Z.ltb_lt in T.
  - destruct (x <=? b) eqn:E; [apply Z.leb_le in E; lia|].
    now rewrite andb_false_r.
  - destruct (a <=? x) eqn:E; [apply Z.leb_le in E; lia|]. reflexivity.
Qed.

Lemma folds_values c y :
  folds c y = true -> In y (Unicode.tolower c :: Unicode.casefix (Unicode.tolower c)).
Proof.
  unfold folds, mem. intros H. apply orb_prop in H as [H|H].
  - apply Z.eqb_eq in H. now left.
  - right. apply existsb_exists in H as (v & Hv & E). apply Z.eqb_eq in E. now subst.
Qed.

Lemma item_folded_values it y :
  item_folded it y = true ->
  In y (item_values it) \/ Unicode.isspace y = true \/ it = SDigit.
Proof.
  destruct it as [c|lo hi| |]; simpl; intros H; auto.
  - left. now apply folds_values.
  - left. apply existsb_exists in H as (c & Hc & H).
    apply in_flat_map. exists c. split; auto. now apply folds_values.
Qed.

Lemma vale_set_cased : existsb item_cased vale_set = true.
Proof. vm_compute. reflexivity. Qed.

Lemma vale_set_values :
  forallb (fun v => negb (Unicode.isdecimal v)) (flat_map item_values vale_set) = true.
Proof. vm_compute. reflexivity. Qed.

(** No decimal digit is matched by the separator set. *)
Lemma vale_set_not_decimal x :
  atom_match true (oneof vale_set) x = true -> Unicode.isdecimal x = false.
Proof.
  intros H. destruct (Unicode.isdecimal x) eqn:Hd; [|reflexivity]. exfalso.
  unfold atom_match, oneof in H. cbn [xorb] in H.
  unfold set_match in H. rewrite vale_set_cased in H. cbv beta iota zeta in H.
  rewrite (decimal_lower x Hd) in H.
  apply existsb_exists in H as (it & Hit & H).
  apply item_folded_values in H as [H|[H|H]].
  - pose proof vale_set_values as T. rewrite forallb_forall in T.
    assert (Hin : In x (flat_map item_values vale_set)) by (apply in_flat_map; eauto).
    apply T in Hin. now rewrite Hd in Hin.
  - apply decimal_not_space in Hd. congruence.
  - subst it. unfold vale_set in Hit. simpl in Hit.
    repeat (destruct Hit as [Hit|Hit]; try discriminate). contradiction.
Qed.

Lemma space_ic x : atom_match true space x = Unicode.isspace x.
Proof. unfold atom_match, space, set_match; simpl. now rewrite orb_false_r. Qed.

Lemma vale_sep_points :
  forallb (fun x => atom_match true (oneof vale_set) x && negb (Unicode.isdecimal x))
          (space_points ++ [ord "."; ord ":"; 186; ord "N"; ord "n"; 176; ord "-"]) = true.
Proof. vm_compute. reflexivity. Qed.

Lemma vale_sep_ok x :
  is_vale_sep x = true ->
  atom_match true (oneof vale_set) x = true /\ Unicode.isdecimal x = false.
Proof.
  intros H. pose proof vale_sep_points as T. rewrite forallb_forall in T.
  assert (Hin : In x (space_points ++ [ord "."; ord ":"; 186; ord "N"; ord "n"; 176; ord "-"])).
  { unfold is_vale_sep in H. apply orb_prop in H as [H|H]; apply in_or_app.
    - left. now apply isspace_points.
    - right. unfold mem in H. apply existsb_exists in H as (v & Hv & E).
      apply Z.eqb_eq in E. now subst. }
  apply T in Hin. apply andb_prop in Hin as [H1 H2].
  split; auto. now destruct (Unicode.isdecimal x).
Qed.

Lemma lit_fold c lo x :
  Unicode.iscased c = true -> Unicode.tolower c = lo -> Unicode.casefix lo = [] ->
  lit_match true c x = (Unicode.tolower x =? lo).
Proof.
  intros Hc Hl Hf. unfold lit_match, folds. rewrite Hc, Hl, Hf. simpl.
  now rewrite orb_false_r.
Qed.

Lemma letter_V x : lit_match true (ord "V") x = (Unicode.tolower x =? ord "v").
Proof. apply lit_fold; vm_compute; reflexivity. Qed.

Lemma m_str_len ic w : forall s c s1 c1,
  matches ic (str w) s c s1 c1 ->
  exists u, s = u ++ s1 /\ length u = String.length w /\ c1 = c.
Proof.
  induction w as [|a w IH]; intros s c s1 c1 H.
  - destruct H as [-> ->]. now exists [].
  - change (str (String a w)) with (RCat (RAtom (ALit (ord a))) (str w)) in H.
    cbn [matches] in H. destruct H as (s2 & c2 & (x & -> & _ & ->) & H).
    apply IH in H as (u & -> & Hl & ->).
    exists (x :: u). simpl. auto.
Qed.

Lemma rmatch_cat_sound ic r1 r2 s c k res :
  rmatch ic (RCat r1 r2) s c k = Some res ->
  exists s1 c1, matches ic r1 s c s1 c1 /\ rmatch ic r2 s1 c1 k = Some res.
Proof. cbn [rmatch]. intros H. apply rmatch_sound in H. exact H. Qed.

Lemma m_star ic a s c s1 c1 :
  matches ic (star a) s c s1 c1 ->
  exists xs, s = xs ++ s1 /\ Forall (fun x => atom_match ic a x = true) xs /\ c1 = c.
Proof. unfold star; cbn [matches]. intros (xs & -> & H & _ & ->). now exists xs. Qed.

Lemma star_matches ic a xs t c :
  Forall (fun x => atom_match ic a x = true) xs -> matches ic (star a) (xs ++ t) c t c.
Proof.
  intros H. unfold star; cbn [matches]. exists xs.
  split; [reflexivity|]. split; [exact H|]. split; [|reflexivity].
  split; [apply Nat.le_0_l | exact I].
Qed.

Lemma vale_word_matches kw t c :
  is_vale_word kw -> matches true (str "Vale") (kw ++ t) c t c.
Proof.
  intros (v & a & l & e & -> & Hv & Ha & Hl & He).
  change (str "Vale") with
    (RCat (RAtom (ALit (ord "V"))) (RCat (RAtom (ALit (ord "a")))
       (RCat (RAtom (ALit (ord "l"))) (RCat (RAtom (ALit (ord "e"))) REmpty)))).
  cbn [matches app].
  exists (a :: l :: e :: t), c. split.
  { exists v. repeat split; auto. destruct Hv as [->| ->]; vm_compute; reflexivity. }
  exists (l :: e :: t), c. split.
  { exists a. repeat split; auto. destruct Ha as [->| ->]; vm_compute; reflexivity. }
  exists (e :: t), c. split.
  { exists l. repeat split; auto. destruct Hl as [->| ->]; vm_compute; reflexivity. }
  exists t, c. split.
  { exists e. repeat split; auto. destruct He as [->| ->]; vm_compute; reflexivity. }
  split; reflexivity.
Qed.

Lemma digits_ic ds : digits ds -> Forall (fun x => atom_match true digit x = true) ds.
Proof. unfold digits. apply Forall_impl. intros x. now rewrite atom_digit_ic. Qed.

Lemma stops_digit_ic rest : stops Unicode.isdecimal rest -> stops (atom_match true digit) rest.
Proof. destruct rest as [|x rest]; cbn [stops]; auto. now rewrite atom_digit_ic. Qed.

Lemma padrao_vale_1_shape :
  padrao_vale_1 =
  RCat (str "Vale") (RCat (star space) (RCat (star (oneof vale_set)) (RCat (star space)
    (RCat (RGroup 1 (at_least 5 digit)) REmpty)))).
Proof. reflexivity. Qed.

(** The first pattern at the word: it captures the whole run of digits. *)
Lemma vale_here kw sep ds rest :
  is_vale_word kw -> Forall (fun x => is_vale_sep x = true) sep ->
  digits ds -> (5 <= length ds)%nat -> stops Unicode.isdecimal rest ->
  match_here true padrao_vale_1 (kw ++ sep ++ ds ++ rest) = Some (rest, [(1%nat, ds)]).
Proof.
  intros Hkw Hsep Hds Hlen Hst.
  assert (Hne : match_here true padrao_vale_1 (kw ++ sep ++ ds ++ rest) <> None).
  { apply (match_here_complete true _ _ rest [(1%nat, ds)]).
    rewrite padrao_vale_1_shape. cbn [matches].
    exists (sep ++ ds ++ rest), []. split; [now apply vale_word_matches|].
    exists (sep ++ ds ++ rest), []. split; [apply (star_matches true space []); constructor|].
    exists (ds ++ rest), []. split.
    { apply star_matches. revert Hsep. apply Forall_impl. intros x Hx.
      now apply vale_sep_ok. }
    exists (ds ++ rest), []. split; [apply (star_matches true space []); constructor|].
    exists rest, [(1%nat, ds)]. split; [|split; reflexivity].
    exists []. split; [|now rewrite consumed_app].
    unfold at_least; cbn [matches]. exists ds.
    split; [reflexivity|]. split; [now apply digits_ic|]. split; [|reflexivity].
    split; [exact Hlen | exact I]. }
  destruct (match_here true padrao_vale_1 (kw ++ sep ++ ds ++ rest)) as [res|] eqn:E;
    [clear Hne | contradiction].
  unfold match_here in E. rewrite padrao_vale_1_shape in E.
  apply rmatch_cat_sound in E as (s1 & c1 & M1 & E).
  apply rmatch_cat_sound in E as (s2 & c2 & M2 & E).
  apply rmatch_cat_sound in E as (s3 & c3 & M3 & E).
  apply rmatch_cat_sound in E as (s4 & c4 & M4 & E).
  apply m_str_len in M1 as (u1 & E1 & L1 & ->).
  apply m_star in M2 as (x2 & -> & F2 & ->).
  apply m_star in M3 as (x3 & -> & F3 & ->).
  apply m_star in M4 as (x4 & -> & F4 & ->).
  destruct Hkw as (v & a & l & e & -> & _).
  apply same_length_app in E1 as [_ E1]; [|now rewrite L1].
  cbn [rmatch] in E. unfold at_least in E. cbn [rmatch] in E.
  pose proof E as E0.
  apply rep_greedy_sound in E0 as (ys & r' & -> & Fy & [Ly _] & _).
  destruct ys as [|y ys]; [simpl in Ly; lia|].
  destruct ds as [|d ds]; [simpl in Hlen; lia|].
  assert (E2 : sep ++ d :: (ds ++ rest) = (x2 ++ x3 ++ x4) ++ y :: (ys ++ r')).
  { rewrite <- !app_assoc. exact E1. }
  apply (span_unique (fun x => negb (Unicode.isdecimal x))) in E2 as (_ & <- & E2).
  - change ((d :: ys) ++ r') with (d :: (ys ++ r')) in E. rewrite <- E2 in E.
    change (d :: ds ++ rest) with ((d :: ds) ++ rest) in E.
    rewrite rep_greedy_longest in E; auto using digits_ic, stops_digit_ic; [|discriminate].
    rewrite consumed_app in E. now injection E as <-.
  - revert Hsep. apply Forall_impl. intros x Hx.
    apply vale_sep_ok in Hx as [_ ->]. reflexivity.
  - rewrite !Forall_app. repeat split.
    + revert F2. apply Forall_impl. intros x Hx. rewrite space_ic in Hx.
      destruct (Unicode.isdecimal x) eqn:Hd; [|reflexivity].
      apply decimal_not_space in Hd. congruence.
    + revert F3. apply Forall_impl. intros x Hx.
      now rewrite (vale_set_not_decimal x Hx).
    + revert F4. apply Forall_impl. intros x Hx. rewrite space_ic in Hx.
      destruct (Unicode.isdecimal x) eqn:Hd; [|reflexivity].
      apply decimal_not_space in Hd. congruence.
  - inversion Hds as [|? ? Hd _]. now rewrite Hd.
  - inversion Fy as [|? ? Hy _]. rewrite atom_digit_ic in Hy. now rewrite Hy.
Qed.

Lemma not_v_no_match x t :
  Unicode.tolower x <> ord "v" -> match_here true padrao_vale_1 (x :: t) = None.
Proof.
  intros H. unfold match_here. rewrite padrao_vale_1_shape.
  change (str "Vale") with (RCat (RAtom (ALit (ord "V"))) (str "ale")).
  cbn [rmatch atom_match]. rewrite letter_V.
  apply Z.eqb_neq in H. now rewrite H.
Qed.

Lemma inside_prefix {A} (pre' : list A) : forall pre s suf',
  pre ++ s = pre' ++ suf' -> (length pre' < length pre)%nat ->
  exists x t, suf' = x :: t /\ In x pre.
Proof.
  induction pre' as [|y pre' IH]; intros [|x pre] s suf' E Hl; simpl in *; try lia.
  - exists x, (pre ++ s). auto.
  - injection E as _ E. destruct (IH pre s suf' E ltac:(lia)) as (z & t & -> & Hz).
    exists z, t. auto.
Qed.

(** X11.  When the text has no letter [v] before a word ["Vale"] (in any
    mix of cases) that is followed by separators (white space and the
    characters [. : º N n ° -], in any number) and then by a run of five or
    more decimal digits, the extractor returns that run of digits in
    full. *)
Theorem voucher_after_vale_is_found : forall pre kw sep ds rest,
  no_v pre -> is_vale_word kw -> Forall (fun x => is_vale_sep x = true) sep ->
  digits ds -> (5 <= length ds)%nat -> stops Unicode.isdecimal rest ->
  extract_vale_number (pre ++ kw ++ sep ++ ds ++ rest) = Some ds.
Proof.
  intros pre kw sep ds rest Hpre Hkw Hsep Hds Hlen Hst.
  unfold extract_vale_number.
  assert (Ht : truthy (pre ++ kw ++ sep ++ ds ++ rest) = true).
  { destruct Hkw as (v & a & l & e & -> & _). destruct pre; reflexivity. }
  rewrite Ht. unfold padroes_vale. cbn [vale_loop].
  assert (Es : search true padrao_vale_1 (pre ++ kw ++ sep ++ ds ++ rest) =
               Some ((0 + length pre)%nat, rest, [(1%nat, ds)])).
  { unfold search. rewrite search_from_skip.
    - pose proof (vale_here kw sep ds rest Hkw Hsep Hds Hlen Hst) as E.
      destruct Hkw as (v & a & l & e & -> & _).
      cbn [app search_from] in *. now rewrite E.
    - intros pre' suf' Heq Hl.
      destruct (inside_prefix pre' pre _ suf' Heq Hl) as (x & t & -> & Hx).
      apply not_v_no_match. unfold no_v in Hpre. rewrite Forall_forall in Hpre. auto. }
  rewrite Es. cbn [group Nat.eqb]. rewrite (sub_delete_id ds Hds).
  assert (Hl : (len ds >=? 5) = true) by (unfold len; apply Z.geb_le; lia).
  now rewrite Hl.
Qed.

Lemma voucher_after_vale_is_found_witness :
  extract_vale_number (lit "Fornecedor: ABC  " ++ lit "vALE" ++ (lit " n" ++ [186] ++ lit ". ")
                         ++ lit "00045123" ++ lit " Data") = Some (lit "00045123").
Proof.
  apply (voucher_after_vale_is_found (lit "Fornecedor: ABC  ") (lit "vALE")
           (lit " n" ++ [186] ++ lit ". ") (lit "00045123") (lit " Data")).
  - unfold no_v. apply Forall_forall. intros x Hx.
    assert (T : forallb (fun y => negb (Unicode.tolower y =? ord "v"))
                        (lit "Fornecedor: ABC  ") = true) by (vm_compute; reflexivity).
    rewrite forallb_forall in T. apply T in Hx.
    apply negb_true_iff, Z.eqb_neq in Hx. exact Hx.
  - exists (ord "v"), (ord "A"), (ord "L"), (ord "E"). repeat split; auto.
  - repeat constructor.
  - repeat constructor.
  - simpl. lia.
  - reflexivity.
Defined.

End ValeFacts.

(** * Locating Tesseract *)

Module SetupFacts.
Import SpecMore Setup.

Section Probe.
Variable path_exists : pystr -> bool.
Variable version_ok : pystr -> bool.

Lemma tentar_true cs : forall cmd c,
  tentar path_exists version_ok cs cmd = (true, c) ->
  exists antes depois, cs = antes ++ c :: depois /\ answers path_exists version_ok c = true /\
                       forall b, In b antes -> answers path_exists version_ok b = false.
Proof.
  induction cs as [|x cs IH]; intros cmd c H; simpl in H; [discriminate|].
  assert (Hrec : forall cmd', tentar path_exists version_ok cs cmd' = (true, c) ->
                 answers path_exists version_ok x = false ->
                 exists antes depois, x :: cs = antes ++ c :: depois /\ answers path_exists version_ok c = true /\
                                      forall b, In b antes -> answers path_exists version_ok b = false).
  { intros cmd' H' Hx. apply IH in H' as (antes & depois & -> & Hc & Hb).
    exists (x :: antes), depois. split; [reflexivity|]. split; [exact Hc|].
    intros b [<-|Hin]; auto. }
  destruct (path_exists x) eqn:Ex.
  - destruct (version_ok x) eqn:Ev.
    + injection H as <-. exists [], cs. split; [reflexivity|]. split.
      * unfold answers. now rewrite Ex, Ev.
      * intros b [].
    + apply (Hrec _ H). unfold answers. now rewrite Ex, Ev.
  - apply (Hrec _ H). unfold answers. now rewrite Ex.
Qed.

Lemma tentar_false cs : forall cmd cmd',
  tentar path_exists version_ok cs cmd = (false, cmd') ->
  (forall c, In c cs -> answers path_exists version_ok c = false) /\
  cmd' = ultimo_existente path_exists cs cmd.
Proof.
  induction cs as [|x cs IH]; intros cmd cmd' H; simpl in H.
  - injection H as <-. split; [intros c []|reflexivity].
  - unfold ultimo_existente; simpl. destruct (path_exists x) eqn:Ex.
    + destruct (version_ok x) eqn:Ev; [discriminate|].
      apply IH in H as (Hall & ->). split; auto.
      intros c [<-|Hin]; [unfold answers; now rewrite Ex, Ev | auto].
    + apply IH in H as (Hall & ->). split; auto.
      intros c [<-|Hin]; [unfold answers; now rewrite Ex | auto].
Qed.

Lemma tentar_finds cs : forall cmd c,
  In c cs -> answers path_exists version_ok c = true -> fst (tentar path_exists version_ok cs cmd) = true.
Proof.
  induction cs as [|x cs IH]; intros cmd c Hin Hc; [contradiction|]. simpl.
  destruct (path_exists x) eqn:Ex; [destruct (version_ok x) eqn:Ev; [reflexivity|]|].
  - destruct Hin as [->|Hin]; [unfold answers in Hc; rewrite Ex, Ev in Hc; discriminate|].
    now apply (IH x c).
  - destruct Hin as [->|Hin]; [unfold answers in Hc; rewrite Ex in Hc; discriminate|].
    now apply (IH cmd c).
Qed.

End Probe.

(** X12.  [setup_tesseract] returns [True] exactly when some candidate
    path exists and answers the version query; [tesseract_cmd] is then the
    first such candidate of the list, the paths before it having failed.
    When it returns [False], [tesseract_cmd] is left at the last candidate
    that exists (it was assigned before the failed query), or unchanged if
    none exists.  Under [/app] only the three Linux paths are tried. *)
Theorem setup_picks_first_answering_path : forall path_exists version_ok cmd0,
  let caminhos := caminhos_tentar path_exists in
  let r := setup_tesseract path_exists version_ok cmd0 in
  (fst r = true <-> exists c, In c caminhos /\ answers path_exists version_ok c = true) /\
  (fst r = true ->
   exists antes depois, caminhos = antes ++ snd r :: depois /\
     answers path_exists version_ok (snd r) = true /\
     forall b, In b antes -> answers path_exists version_ok b = false) /\
  (fst r = false -> snd r = ultimo_existente path_exists caminhos cmd0) /\
  (path_exists (lit "/app") = true -> caminhos = caminhos_cloud) /\
  (path_exists (lit "/app") = false -> caminhos = caminhos_local).
Proof.
  intros path_exists version_ok cmd0 caminhos r.
  unfold r, setup_tesseract. fold caminhos.
  destruct (tentar path_exists version_ok caminhos cmd0) as [[|] c] eqn:E; simpl.
  - apply tentar_true in E as (antes & depois & Ec & Hc & Hb).
    split; [|split; [|split; [|split]]].
    + split; auto. intros _. exists c. split; auto. rewrite Ec. apply in_elt.
    + intros _. exists antes, depois. auto.
    + discriminate.
    + intros H. unfold caminhos, caminhos_tentar. now rewrite H.
    + intros H. unfold caminhos, caminhos_tentar. now rewrite H.
  - pose proof E as E'. apply tentar_false in E as (Hall & ->).
    split; [|split; [|split; [|split]]].
    + split; [discriminate|]. intros (c' & Hin & Hc').
      rewrite (Hall c' Hin) in Hc'. discriminate.
    + discriminate.
    + reflexivity.
    + intros H. unfold caminhos, caminhos_tentar. now rewrite H.
    + intros H. unfold caminhos, caminhos_tentar. now rewrite H.
Qed.

Lemma setup_picks_first_answering_path_witness :
  let existe c := Report.str_eqb c (lit "/usr/bin/tesseract")
                  || Report.str_eqb c (lit "/usr/local/bin/tesseract") in
  let responde c := Report.str_eqb c (lit "/usr/local/bin/tesseract") in
  fst (setup_tesseract existe responde (lit "tesseract")) = true /\
  exists antes depois,
    caminhos_tentar existe =
      antes ++ snd (setup_tesseract existe responde (lit "tesseract")) :: depois /\
    answers existe responde (snd (setup_tesseract existe responde (lit "tesseract"))) = true /\
    forall b, In b antes -> answers existe responde b = false.
Proof.
  intros existe responde.
  assert (H : fst (setup_tesseract existe responde (lit "tesseract")) = true)
    by (vm_compute; reflexivity).
  split; [exact H|].
  destruct (setup_picks_first_answering_path existe responde (lit "tesseract"))
    as (_ & Hp & _).
  exact (Hp H).
Defined.

End SetupFacts.
